(** * venn-helper: a shallow embedding of the layout engine

    The development follows [layout.ts] (the area-proportional Venn/Euler
    layout engine) and the top-level [vennSolution] of the package.

    Conventions of the embedding.
    - A JavaScript [number] is idealised as a real number ([R]); the
      comparisons of the source are decided with [decide].  The doubles
      of the source round and have NaN: where that would decide a
      statement, the statement is left out or made under a hypothesis
      that keeps the computation away from it ([kept_radius],
      [moderate_angle]).
    - A set identifier is a [string] (the source casts every identifier
      with [as string] and only ever uses it as a property key).
    - A plain JavaScript object used as a dictionary is an association
      list of its own properties in enumeration order ([obj]); an object
      used only through the [in] operator on keys built by the program
      is a [gset string].
    - An optional field is an [option]; where the source distinguishes
      [undefined] from [null] the three-valued [jsopt] is used.
    - A [throw] is the [Throw] outcome of [result]. *)

From Stdlib Require Import Reals Lra Lia ZArith String Ascii List Permutation.
From stdpp Require Import base decidable option list gmap strings sorting.
Import ListNotations.

Local Open Scope R_scope.

(** ** JavaScript values *)

#[global] Instance Rlt_decision : RelDecision Rlt := Rlt_dec.
#[global] Instance Rle_decision : RelDecision Rle := Rle_dec.
#[global] Instance Rge_decision : RelDecision Rge := Rge_dec.
#[global] Instance Rgt_decision : RelDecision Rgt := Rgt_dec.
#[global] Instance Req_decision : EqDecision R := Req_dec_T.
(** A read outside an array of numbers ([undefined]) is taken as 0. *)
#[global] Instance R_inhabited : Inhabited R := populate 0.

(** A value that may be [undefined], [null] or present. *)
Inductive jsopt (A : Type) : Type :=
| Undefined : jsopt A
| Null : jsopt A
| Val : A -> jsopt A.
Arguments Undefined {A}.
Arguments Null {A}.
Arguments Val {A} _.

(** [v ?? d] *)
Definition nullish {A} (v : jsopt A) (d : A) : A :=
  match v with Val a => a | _ => d end.

(** The outcome of a call that may throw. *)
Inductive result (A : Type) : Type :=
| Ok : A -> result A
| Throw : string -> result A.
Arguments Ok {A} _.
Arguments Throw {A} _.

#[global] Instance result_ret : MRet result := fun _ a => Ok a.
#[global] Instance result_bind : MBind result := fun _ _ f r =>
  match r with Ok a => f a | Throw e => Throw e end.

(** [Array.prototype.sort(cmp)]: a stable sort.  [after a b] says that
    the comparator asks for [a] to go after [b] ([cmp(a, b) > 0]).  For
    a consistent comparator every stable sort returns the same array,
    which is the one computed here by insertion from the right. *)
Section JsSort.
Context {A : Type} (after : A -> A -> bool).

Fixpoint js_insert (a : A) (l : list A) : list A :=
  match l with
  | [] => [a]
  | b :: l' => if after a b then b :: js_insert a l' else a :: b :: l'
  end.

Definition js_sort (l : list A) : list A := foldr js_insert [] l.
End JsSort.

(** A comparator that returns a number. *)
Definition num_after {A} (cmp : A -> A -> R) (a b : A) : bool :=
  bool_decide (cmp a b > 0).

(** ** Own properties of a plain object, in enumeration order

    [for (k in o)] and [Object.keys(o)] list the canonical array indices
    first, in ascending numeric order, and then the other string keys in
    the order in which they were created.

    A record is modelled by its own properties.  On a plain object the
    source's [o[k]] and [k in o] also answer for the names that every
    object inherits from [Object.prototype], and [o["__proto__"] = v]
    makes no own property; for every other name the two agree.  A
    statement below that depends on a record being read or written at a
    name the caller supplies says so, with [own_name]. *)

Definition digit_of (c : ascii) : option N :=
  let n := N_of_ascii c in
  if decide (48 <= n <= 57)%N then Some (n - 48)%N else None.

Fixpoint digits_value (acc : N) (s : string) : option N :=
  match s with
  | EmptyString => Some acc
  | String c s' =>
      match digit_of c with
      | Some d => digits_value (acc * 10 + d)%N s'
      | None => None
      end
  end.

(** The array index a key denotes: a decimal numeral without leading
    zero, below [2^32 - 1]. *)
Definition array_index (k : string) : option N :=
  match k with
  | EmptyString => None
  | String c rest =>
      if decide (c = "0"%char /\ rest <> EmptyString) then None
      else match digits_value 0 k with
           | Some n => if decide (n < 4294967295)%N then Some n else None
           | None => None
           end
  end.

Abbreviation obj V := (list (string * V)).

Section Obj.
Context {V : Type}.

Fixpoint obj_get (o : obj V) (k : string) : option V :=
  match o with
  | [] => None
  | (k', v) :: o' => if decide (k' = k) then Some v else obj_get o' k
  end.

Definition obj_has (o : obj V) (k : string) : bool :=
  bool_decide (is_Some (obj_get o k)).

(** Where a new key goes. *)
Fixpoint obj_add (k : string) (v : V) (o : obj V) : obj V :=
  match o with
  | [] => [(k, v)]
  | (k', v') :: o' =>
      match array_index k, array_index k' with
      | Some n, Some n' =>
          if decide (n < n')%N then (k, v) :: (k', v') :: o'
          else (k', v') :: obj_add k v o'
      | Some _, None => (k, v) :: (k', v') :: o'
      | None, _ => (k', v') :: obj_add k v o'
      end
  end.

(** Overwriting keeps the position of the key. *)
Fixpoint obj_update (k : string) (v : V) (o : obj V) : obj V :=
  match o with
  | [] => []
  | (k', v') :: o' =>
      if decide (k' = k) then (k, v) :: o' else (k', v') :: obj_update k v o'
  end.

(** [o[k] = v] *)
Definition obj_set (k : string) (v : V) (o : obj V) : obj V :=
  if obj_has o k then obj_update k v o else obj_add k v o.

Definition obj_keys (o : obj V) : list string := fst <$> o.
Definition obj_values (o : obj V) : list V := snd <$> o.
End Obj.

(** ** Data model *)

Record Area := mkArea {
  sets : list string;
  size : R;
  weight : option R;
  label : option string
}.

(** ** Missing pairwise completion ([addMissingAreas]) *)

(** The template string built from [a] and [b] with a comma between. *)
Definition pair_key (a b : string) : string := a +:+ "," +:+ b.

(** The first loop: single ids are pushed onto [ids], both orders of a
    two-set Area are recorded in [pairs]. *)
Definition collect_step (st : list string * gset string) (area : Area)
  : list string * gset string :=
  match sets area with
  | [a] => (st.1 ++ [a], st.2)
  | [a; b] => (st.1, {[pair_key b a]} ∪ ({[pair_key a b]} ∪ st.2))
  | _ => st
  end.

Definition collect (areas : list Area) : list string * gset string :=
  foldl collect_step ([], ∅) areas.

(** The inner loop over [j], for a fixed [a = ids[i]]. *)
Definition missing_for (pairs : gset string) (a : string) (rest : list string)
  : list Area :=
  rest ≫= fun b => if decide (pair_key a b ∈ pairs) then []
                   else [mkArea [a; b] 0 None None].

(** The double loop over [i < j]. *)
Fixpoint missing_pairs (pairs : gset string) (ids : list string) : list Area :=
  match ids with
  | [] => []
  | a :: rest => missing_for pairs a rest ++ missing_pairs pairs rest
  end.

Section AddMissingAreas.
(** [String.prototype.localeCompare], which the host provides. *)
Variable localeCompare : string -> string -> Z.

Definition sorted_ids (areas : list Area) : list string :=
  js_sort (fun a b => bool_decide (localeCompare a b > 0)%Z) (collect areas).1.

Definition addMissingAreas (areas : list Area) : list Area :=
  areas ++ missing_pairs (collect areas).2 (sorted_ids areas).
End AddMissingAreas.

(** A comparator for closed examples: the order of the code units, which
    is the order [localeCompare] gives to the identifiers used there. *)
Definition codeUnitCompare (a b : string) : Z :=
  match String.compare a b with Eq => 0 | Lt => -1 | Gt => 1 end.

Definition comma_free (s : string) : bool :=
  forallb (fun c => negb (Ascii.eqb c ",")) (list_ascii_of_string s).

(** A simulated set.  [parent] is the transient union-find pointer of
    [disjointCluster]; it refers to a circle of the store (see below). *)
Module Circle.
Record t := mk {
  x : R;
  y : R;
  rowid : option nat;
  size : option R;
  radius : R;
  parent : option nat;
  setid : string
}.
Definition set_xy (c : t) (x' y' : R) : t :=
  mk x' y' (rowid c) (size c) (radius c) (parent c) (setid c).
Definition set_parent (c : t) (p : option nat) : t :=
  mk (x c) (y c) (rowid c) (size c) (radius c) p (setid c).
End Circle.
Abbreviation Circle := Circle.t.

(** The layout: set identifier to circle. *)
Abbreviation CircleRecord := (obj Circle).

Abbreviation Point := (R * R)%type.

(** ** Geometry primitives

    The module [circle-intersection] is imported by [layout.ts]; its
    source is not among the files of the embedding. *)

(** Modelled from the spec: [distance(a, b)], the Euclidean distance of
    two points with x, y fields (section 4.1). *)
Definition distance (a b : Point) : R :=
  sqrt ((a.1 - b.1) * (a.1 - b.1) + (a.2 - b.2) * (a.2 - b.2)).

Definition center (c : Circle) : Point := (Circle.x c, Circle.y c).

(** Modelled from the spec: the area of the circular segment of a
    circle of radius [r] cut off at depth [width], the summand of the
    two-circular-segment formula (section 4.1). *)
Definition circleArea (r width : R) : R :=
  r * r * acos (1 - width / r) - (r - width) * sqrt (width * (2 * r - width)).

(** Modelled from the spec: [circleOverlap(r1, r2, d)] is 0 when
    [d >= r1 + r2], the area of the smaller circle when
    [d <= |r1 - r2|], and otherwise the standard two-circular-segment
    formula (section 4.1). *)
Definition circleOverlap (r1 r2 d : R) : R :=
  if decide (d >= r1 + r2) then 0
  else if decide (d <= Rabs (r1 - r2)) then PI * Rmin r1 r2 * Rmin r1 r2
  else
    let w1 := r1 - (d * d - r2 * r2 + r1 * r1) / (2 * d) in
    let w2 := r2 - (d * d - r1 * r1 + r2 * r2) / (2 * d) in
    circleArea r1 w1 + circleArea r2 w2.

(** The two primitives of [circle-intersection] that are used as black
    boxes: the overlap of the N-circle intersection (the [overlap]
    field of [intersectionArea]; an entry is [None] where the caller
    passes [undefined]) and the intersection points of two circles. *)
Class CircleIntersection := {
  intersectionArea : list (option Circle) -> R;
  circleCircleIntersection : Point -> R -> Point -> R -> list Point
}.

(** ** Loss function *)

(** [area.weight ? area.weight : 1.0]: a weight of 0 is falsy. *)
Definition weight_or_default (w : option R) : R :=
  match w with
  | Some w => if decide (w = 0) then 1 else w
  | None => 1
  end.

Section Loss.
Context `{CircleIntersection}.

(** The overlap an Area achieves in a layout; [None] where the loop
    [continue]s. *)
Definition achieved (layout : CircleRecord) (area : Area) : option R :=
  match sets area with
  | [_] => None
  | [a; b] =>
      match obj_get layout a, obj_get layout b with
      | Some left_, Some right_ =>
          Some (circleOverlap (Circle.radius left_) (Circle.radius right_)
                  (distance (center left_) (center right_)))
      | _, _ => None
      end
  | ids => Some (intersectionArea (obj_get layout <$> ids))
  end.

Definition loss_step (layout : CircleRecord) (output : R) (area : Area) : R :=
  match achieved layout area with
  | Some overlap =>
      output + weight_or_default (weight area) * (overlap - size area)
               * (overlap - size area)
  | None => output
  end.

Definition lossFunction (layout : CircleRecord) (overlaps : list Area) : R :=
  foldl (loss_step layout) 0 overlaps.
End Loss.

(** ** Distance inversion *)

Definition SMALL : R := 1e-10.

(** Modelled from the spec: [bisect] of the [fmin] package (section
    4.3: the root is found by bisection).  The caller's interval is
    halved until it is shorter than [tolerance], the function vanishes
    at the midpoint, or [maxIterations] halvings were made; end points
    of equal strict sign are refused. *)
Fixpoint bisect_loop (f : R -> R) (fA tolerance : R) (n : nat) (a delta : R) : R :=
  match n with
  | O => a + delta
  | S n' =>
      let delta := delta / 2 in
      let mid := a + delta in
      let fMid := f mid in
      let a := if decide (fMid * fA >= 0) then mid else a in
      if decide (Rabs delta < tolerance \/ fMid = 0) then mid
      else bisect_loop f fA tolerance n' a delta
  end.

Definition bisect_with (maxIterations : nat) (tolerance : R)
    (f : R -> R) (a b : R) : result R :=
  let fA := f a in
  let fB := f b in
  if decide (fA * fB > 0)
  then Throw "Initial bisect points must have opposite signs"
  else if decide (fA = 0) then Ok a
  else if decide (fB = 0) then Ok b
  else Ok (bisect_loop f fA tolerance maxIterations a (b - a)).

Definition bisect := bisect_with 100 1e-10.

Definition distanceFromIntersectArea (r1 r2 overlap : R) : result R :=
  if decide (Rmin r1 r2 * Rmin r1 r2 * PI <= overlap + SMALL)
  then Ok (Rabs (r1 - r2))
  else bisect (fun distance => circleOverlap r1 r2 distance - overlap) 0 (r1 + r2).

(** ** Greedy initial layout *)

Module OverLap.
Record t := mk { set : string; size : R; weight : R }.
End OverLap.
Abbreviation OverLap := OverLap.t.

(** A loop whose body may throw. *)
Fixpoint foldl_result {A B} (f : B -> A -> result B) (b : B) (l : list A)
  : result B :=
  match l with
  | [] => Ok b
  | a :: l' => match f b a with Ok b' => foldl_result f b' l' | Throw e => Throw e end
  end.

(** [!v] for an optional number: [undefined] and 0 are falsy. *)
Definition falsy (v : option R) : bool :=
  match v with Some s => bool_decide (s = 0) | None => true end.

Definition TypeError : string := "TypeError".
Definition missing_overlap : string :=
  "ERROR: missing pairwise overlap information".

(** [o[k]?.push(v)] *)
Definition obj_push {V} (k : string) (v : V) (o : obj (list V)) : obj (list V) :=
  match obj_get o k with
  | Some l => obj_set k (l ++ [v]) o
  | None => o
  end.

(** The first loop: a circle and an empty overlap list for every
    single-set Area. *)
Definition greedy_init_step (st : CircleRecord * obj (list OverLap)) (area : Area)
  : CircleRecord * obj (list OverLap) :=
  match sets area with
  | [set] =>
      (obj_set set
         (Circle.mk 1e10 1e10 (Some (length (obj_keys st.1))) (Some (size area))
            (sqrt (size area / PI)) None set) st.1,
       obj_set set [] st.2)
  | _ => st
  end.

(** The second loop: each two-set Area is recorded with both of its
    sets, unless one of the circles has a falsy size. *)
Definition greedy_overlap_step (circles : CircleRecord)
    (setOverlaps : obj (list OverLap)) (current : Area)
  : result (obj (list OverLap)) :=
  match sets current with
  | [left_; right_] =>
      match obj_get circles left_ with
      | None => Throw TypeError
      | Some leftCircle =>
          if falsy (Circle.size leftCircle) then Ok setOverlaps
          else match obj_get circles right_ with
               | None => Throw TypeError
               | Some rightCircle =>
                   if falsy (Circle.size rightCircle) then Ok setOverlaps
                   else
                     let weight :=
                       if decide (size current + SMALL >=
                                  Rmin (default 0 (Circle.size leftCircle))
                                       (default 0 (Circle.size rightCircle)))
                       then 0 else weight_or_default (weight current) in
                     Ok (obj_push right_ (OverLap.mk left_ (size current) weight)
                           (obj_push left_ (OverLap.mk right_ (size current) weight)
                              setOverlaps))
               end
      end
  | _ => Ok setOverlaps
  end.

Definition overlap_total (overlaps : list OverLap) : R :=
  foldl (fun size o => size + OverLap.size o * OverLap.weight o) 0 overlaps.

Definition by_size_desc {A} (size_of : A -> R) : A -> A -> bool :=
  num_after (fun a b => size_of b - size_of a).

(** [positionSet(point, index)] *)
Definition positionSet (point : Point) (index : string)
    (st : CircleRecord * gset string) : CircleRecord * gset string :=
  (match obj_get st.1 index with
   | Some circle => obj_set index (Circle.set_xy circle point.1 point.2) st.1
   | None => st.1
   end,
   {[index]} ∪ st.2).

Section Greedy.
Context `{CircleIntersection}.

(** The loop over [k > j]: the intersection points of the two distance
    circles around [p1] and each later neighbour. *)
Fixpoint greedy_pair_points (circles : CircleRecord) (set : Circle)
    (p1 : Circle) (d1 : R) (later : list OverLap) : result (list Point) :=
  match later with
  | [] => Ok []
  | item :: later' =>
      match obj_get circles (OverLap.set item) with
      | None => Throw TypeError
      | Some p2 =>
          d2 ← distanceFromIntersectArea (Circle.radius set) (Circle.radius p2)
                 (OverLap.size item);
          more ← greedy_pair_points circles set p1 d1 later';
          Ok (circleCircleIntersection (center p1) d1 (center p2) d2 ++ more)
      end
  end.

(** The loop over [j]: the candidate positions of a set. *)
Fixpoint greedy_candidates (circles : CircleRecord) (set : option Circle)
    (overlap : list OverLap) : result (list Point) :=
  match overlap with
  | [] => Ok []
  | item :: later =>
      match obj_get circles (OverLap.set item) with
      | None => greedy_candidates circles set later
      | Some p1 =>
          match set with
          | None => Throw TypeError
          | Some set' =>
              d1 ← distanceFromIntersectArea (Circle.radius set') (Circle.radius p1)
                     (OverLap.size item);
              extra ← greedy_pair_points circles set' p1 d1 later;
              more ← greedy_candidates circles set later;
              Ok ([ (Circle.x p1 + d1, Circle.y p1); (Circle.x p1 - d1, Circle.y p1);
                    (Circle.x p1, Circle.y p1 + d1); (Circle.x p1, Circle.y p1 - d1) ]
                    ++ extra ++ more)
          end
      end
  end.

(** The loop over the candidates: the set is moved to each of them and
    the first one of least loss is kept. *)
Definition greedy_try (areas : list Area) (setIndex : string)
    (st : CircleRecord * R * option Point) (point : Point)
  : CircleRecord * R * option Point :=
  let '(circles, bestLoss, bestPoint) := st in
  let circles :=
    match obj_get circles setIndex with
    | Some c => obj_set setIndex (Circle.set_xy c point.1 point.2) circles
    | None => circles
    end in
  let localLoss := lossFunction circles areas in
  if decide (localLoss < bestLoss) then (circles, localLoss, Some point)
  else (circles, bestLoss, bestPoint).

(** One round of the placement loop, for [mostOverlapped[i]]. *)
Definition greedy_place (areas : list Area) (setOverlaps : obj (list OverLap))
    (st : CircleRecord * gset string) (entry : string * R)
  : result (CircleRecord * gset string) :=
  let setIndex := entry.1 in
  if decide (setIndex = "") then Throw missing_overlap
  else
    match obj_get setOverlaps setIndex with
    | None => Throw missing_overlap
    | Some all =>
        let overlap :=
          js_sort (by_size_desc OverLap.size)
            (filter (fun element => OverLap.set element ∈ st.2) all) in
        if decide (length overlap = 0%nat) then Throw missing_overlap
        else
          points ← greedy_candidates st.1 (obj_get st.1 setIndex) overlap;
          let '(circles, _, bestPoint) :=
            foldl (greedy_try areas setIndex) (st.1, 1e50, head points) points in
          match bestPoint with
          | Some point => Ok (positionSet point setIndex (circles, st.2))
          | None =>
              match obj_get circles setIndex with
              | Some _ => Throw TypeError
              | None => Ok (circles, {[setIndex]} ∪ st.2)
              end
          end
    end.

Definition greedyLayout (areas : list Area) : result CircleRecord :=
  let '(circles, setOverlaps) := foldl greedy_init_step ([], []) areas in
  let areas := filter (fun a => length (sets a) = 2%nat) areas in
  setOverlaps ← foldl_result (greedy_overlap_step circles) setOverlaps areas;
  let mostOverlapped :=
    js_sort (by_size_desc snd)
      ((fun kv => (kv.1, overlap_total kv.2)) <$> setOverlaps) in
  let first := default "" (fst <$> head mostOverlapped) in
  st ← foldl_result (greedy_place areas setOverlaps)
         (positionSet (0, 0) first (circles, ∅)) (tail mostOverlapped);
  Ok st.1.
End Greedy.

(** ** Parameters and the optimisers of [fmin] *)

Inductive Layout := greedy | MDS | best.

(** The [history] field only receives the optimiser's trace and is left
    out. *)
Record Params := mkParams {
  layout : option Layout;
  restarts : option R;
  maxIterations : option R;
  seed : option R
}.

(** The two optimisers of the [fmin] package, used as black boxes: the
    minimiser found by [nelderMead] (the [x] of its solution) and the
    [x] and [fx] found by [conjugateGradient], whose objective returns
    the loss and fills in the gradient vector it is handed. *)
Class Fmin := {
  nelderMead : (list R -> R) -> list R -> Params -> list R;
  conjugateGradient :
    (list R -> list R -> R * list R) -> list R -> Params -> list R * R
}.

(** [zeros], [zerosM] and [norm2] of [fmin]. *)
Definition zeros (n : nat) : list R := replicate n 0.
Definition zerosM (n m : nat) : list (list R) := replicate n (zeros m).
Definition norm2 (a : list R) : R := sqrt (foldl (fun acc v => acc + v * v) 0 a).

(** ** Constrained MDS initial layout *)

(** [m[i][j]] and [m[i][j] = v] on a matrix of numbers. *)
Definition mget (m : list (list R)) (i j : nat) : R := (m !!! i) !!! j.
Definition mset (m : list (list R)) (i j : nat) (v : R) : list (list R) :=
  <[i := <[j := v]> (m !!! i)]> m.

Definition gdm_step (sets_ : list Area) (setids : obj nat)
    (st : list (list R) * list (list R)) (current : Area)
  : result (list (list R) * list (list R)) :=
  match sets current with
  | [a; b] =>
      match obj_get setids a, obj_get setids b with
      | Some left_, Some right_ =>
          let sl := default 0 (size <$> sets_ !! left_) in
          let sr := default 0 (size <$> sets_ !! right_) in
          let r1 := sqrt (sl / PI) in
          let r2 := sqrt (sr / PI) in
          distance ← distanceFromIntersectArea r1 r2 (size current);
          let c := if decide (size current + 1e-10 >= Rmin sl sr) then 1
                   else if decide (size current <= 1e-10) then -1 else 0 in
          Ok (mset (mset st.1 right_ left_ distance) left_ right_ distance,
              mset (mset st.2 right_ left_ c) left_ right_ c)
      | _, _ => Ok st
      end
  | _ => Ok st
  end.

Definition getDistanceMatrices (areas sets_ : list Area) (setids : obj nat)
  : result (list (list R) * list (list R)) :=
  foldl_result (gdm_step sets_ setids)
    (zerosM (length sets_) (length sets_), zerosM (length sets_) (length sets_))
    areas.

(** [a[i] += v], for an index of the array.  (Past the end the source
    appends NaN and the array grows; the optimiser hands over vectors
    of the right length.) *)
Definition add_at (a : list R) (i : nat) (v : R) : list R :=
  <[i := a !!! i + v]> a.

Definition mds_pair (x : list R) (distances constraints : list (list R))
    (i : nat) (st : R * list R) (j : nat) : R * list R :=
  let xi := x !!! (2 * i)%nat in
  let yi := x !!! (2 * i + 1)%nat in
  let xj := x !!! (2 * j)%nat in
  let yj := x !!! (2 * j + 1)%nat in
  let dij := mget distances i j in
  let constraint := mget constraints i j in
  let squaredDistance := (xj - xi) * (xj - xi) + (yj - yi) * (yj - yi) in
  let distance := sqrt squaredDistance in
  let delta := squaredDistance - dij * dij in
  if decide ((constraint > 0 /\ distance <= dij) \/
             (constraint < 0 /\ distance >= dij))
  then st
  else
    let fxprime := add_at st.2 (2 * i) (4 * delta * (xi - xj)) in
    let fxprime := add_at fxprime (2 * i + 1) (4 * delta * (yi - yj)) in
    let fxprime := add_at fxprime (2 * j) (4 * delta * (xj - xi)) in
    let fxprime := add_at fxprime (2 * j + 1) (4 * delta * (yj - yi)) in
    (st.1 + 2 * delta * delta, fxprime).

(** The loss together with the gradient written into [fxprime]. *)
Definition constrainedMDSGradient (x fxprime : list R)
    (distances constraints : list (list R)) : R * list R :=
  let n := length distances in
  foldl (fun st i => foldl (mds_pair x distances constraints i) st
                       (seq (S i) (n - S i)))
    (0, zeros (length fxprime)) (seq 0 n).

(** [createRandomGenerator]: Mulberry32 on 32-bit integers, each taken
    modulo [2^32]; the second component is the number returned. *)
Definition u32 (z : Z) : Z := z mod 4294967296.

Definition mulberry32 (seed : Z) : Z * R :=
  let seed := u32 (seed + 0x6d2b79f5) in
  let t := u32 (Z.lxor seed (Z.shiftr seed 15) * Z.lor 1 seed) in
  let t := Z.lxor (u32 (Z.lxor t (Z.shiftr t 7) * Z.lor 61 t)) t in
  (seed, IZR (Z.lxor t (Z.shiftr t 14)) / 4294967296).

(** [n] successive calls of the generator. *)
Fixpoint draw (n : nat) (seed : Z) : list R * Z :=
  match n with
  | O => ([], seed)
  | S n' =>
      let '(seed, r) := mulberry32 seed in
      let '(rs, seed) := draw n' seed in
      (r :: rs, seed)
  end.

(** [v >>> 0] for a number: the integer part modulo [2^32]. *)
Definition trunc (v : R) : Z :=
  if decide (0 <= v) then Int_part v else (- Int_part (- v))%Z.
Definition toUint32 (v : R) : Z := u32 (trunc v).

(** How often [for (i = 0; i < r; ++i)] runs. *)
Definition loop_count (r : R) : nat := Z.to_nat (1 - up (- r)).

(** [v || d] for an optional number. *)
Definition or_default (v : option R) (d : R) : R :=
  match v with
  | Some v => if decide (v = 0) then d else v
  | None => d
  end.

Section ConstrainedMDS.
Context `{Fmin}.

(** The restart loop: [best] is replaced when a restart ends with a
    smaller [fx]. *)
Fixpoint mds_restarts (n : nat) (params : Params)
    (distances constraints : list (list R)) (seed : Z)
    (best : option (list R * R)) : option (list R * R) :=
  match n with
  | O => best
  | S n' =>
      let '(initial, seed) := draw (length distances * 2) seed in
      let current :=
        conjugateGradient
          (fun x fxprime => constrainedMDSGradient x fxprime distances constraints)
          initial params in
      let best :=
        match best with
        | Some b => if decide (current.2 < b.2) then Some current else Some b
        | None => Some current
        end in
      mds_restarts n' params distances constraints seed best
  end.

(** [mathRandom] is what [Math.random()] returns if it is called. *)
Definition constrainedMDSLayout (mathRandom : R) (areas : list Area)
    (params : Params) : result CircleRecord :=
  let restarts := or_default (restarts params) 10 in
  let '(sets_, setids) :=
    foldl (fun (st : list Area * obj nat) area =>
             match sets area with
             | [a] => (st.1 ++ [area],
                       if decide (a = "") then st.2
                       else obj_set a (length st.1) st.2)
             | _ => st
             end) ([], []) areas in
  matrices ← getDistanceMatrices areas sets_ setids;
  let '(distances, constraints) := matrices in
  let norm := norm2 (norm2 <$> distances) / INR (length distances) in
  let distances := (fun row => (fun value => value / norm) <$> row) <$> distances in
  let seed := toUint32 (default mathRandom (seed params) * 2 ^ 32) in
  let best := mds_restarts (loop_count restarts) params distances constraints seed None in
  foldl_result
    (fun (circles : CircleRecord) (iset : nat * Area) =>
       match sets iset.2 with
       | setName :: _ =>
           match best with
           | None => Throw TypeError
           | Some b =>
               Ok (obj_set setName
                     (Circle.mk (b.1 !!! (2 * iset.1)%nat * norm)
                        (b.1 !!! (2 * iset.1 + 1)%nat * norm)
                        (Some (length (obj_keys circles)))
                        (Some (size iset.2))
                        (sqrt (size iset.2 / PI)) None setName)
                     circles)
           end
       | [] => Ok circles
       end)
    [] (imap (fun i a => (i, a)) sets_).
End ConstrainedMDS.

(** ** Best-of selector *)

Definition LayoutFunction : Type := list Area -> Params -> result CircleRecord.

Section BestOf.
(** The selector is written over its three collaborators. *)
Variables (greedyLayout constrainedMDSLayout : LayoutFunction).
Variable lossFunction : CircleRecord -> list Area -> R.

Definition bestInitialLayout_of : LayoutFunction := fun areas params =>
  initial ← greedyLayout areas params;
  if decide (8 <= length areas)%nat then
    constrained ← constrainedMDSLayout areas params;
    let constrainedLoss := lossFunction constrained areas in
    let greedyLoss := lossFunction initial areas in
    if decide (constrainedLoss + 1e-8 < greedyLoss) then Ok constrained
    else Ok initial
  else Ok initial.
End BestOf.

Section Venn.
Context `{CircleIntersection} `{Fmin}.
Variable localeCompare : string -> string -> Z.

Definition bestInitialLayout (mathRandom : R) : LayoutFunction :=
  bestInitialLayout_of (fun areas _ => greedyLayout areas)
    (constrainedMDSLayout mathRandom) lossFunction.

(** [layoutFunctionMap.get(...)] *)
Definition layoutFunctionMap (mathRandom : R) (l : Layout) : LayoutFunction :=
  match l with
  | greedy => fun areas _ => greedyLayout areas
  | MDS => constrainedMDSLayout mathRandom
  | best => bestInitialLayout mathRandom
  end.

(** The layout that the simplex search scores: the circles of [circles]
    with the coordinates taken from the vector. *)
Definition venn_current (circles : CircleRecord) (values : list R) : CircleRecord :=
  foldl (fun current (ikc : nat * (string * Circle)) =>
           let '(i, (setid, circle)) := ikc in
           obj_set setid
             (Circle.mk (values !!! (2 * i)%nat) (values !!! (2 * i + 1)%nat)
                (Circle.rowid circle) (Circle.size circle) (Circle.radius circle)
                None setid) current)
    [] (imap (fun i kc => (i, kc)) circles).

Definition venn (mathRandom : R) (areas : list Area) (parameters : option Params)
  : result CircleRecord :=
  let parameters := default (mkParams None None None None) parameters in
  let parameters :=
    mkParams (layout parameters) (restarts parameters)
      (Some (or_default (maxIterations parameters) 500))
      (Some (default mathRandom (seed parameters))) in
  let initialLayout :=
    layoutFunctionMap mathRandom (default best (layout parameters)) in
  let areas := addMissingAreas localeCompare areas in
  circles ← initialLayout areas parameters;
  let initial := circles ≫= fun kc => [Circle.x kc.2; Circle.y kc.2] in
  let positions :=
    nelderMead (fun values => lossFunction (venn_current circles values) areas)
      initial parameters in
  Ok (imap (fun i (kc : string * Circle) =>
              (kc.1, Circle.set_xy kc.2 (positions !!! (2 * i)%nat)
                       (positions !!! (2 * i + 1)%nat))) circles).
End Venn.

(** ** The store of circle objects

    [normalizeSolution] and [scaleSolution] receive a record of circle
    objects that the caller still holds, copy some of them and update
    circles in place.  For these stages a circle object is a location of
    a store, a record maps set identifiers to locations, and a stage is
    a function of the store that returns its outcome with the store it
    leaves behind (also when it throws). *)

Abbreviation loc := nat.
Abbreviation store := (list Circle).
Definition St (A : Type) : Type := store -> result A * store.

#[global] Instance St_ret : MRet St := fun _ a h => (Ok a, h).
#[global] Instance St_bind : MBind St := fun _ _ f m h =>
  match m h with
  | (Ok a, h') => f a h'
  | (Throw e, h') => (Throw e, h')
  end.

Definition throw {A} (e : string) : St A := fun h => (Throw e, h).

(** A new object. *)
Definition alloc (c : Circle) : St loc := fun h => (Ok (length h), h ++ [c]).

(** Reading and writing the fields of an object. *)
Definition load (l : loc) : St Circle := fun h =>
  match h !! l with
  | Some c => (Ok c, h)
  | None => (Throw TypeError, h)
  end.

Definition update (l : loc) (f : Circle -> Circle) : St unit := fun h =>
  match h !! l with
  | Some c => (Ok (), <[l := f c]> h)
  | None => (Throw TypeError, h)
  end.

(** A loop over an array. *)
Fixpoint for_each {A} (body : A -> St unit) (l : list A) : St unit :=
  match l with
  | [] => mret ()
  | a :: l' => body a ;; for_each body l'
  end.

Fixpoint fold_St {A B} (body : B -> A -> St B) (b : B) (l : list A) : St B :=
  match l with
  | [] => mret b
  | a :: l' => b' ← body b a; fold_St body b' l'
  end.

Definition load_all (ls : list loc) : St (list Circle) :=
  fold_St (fun acc l => c ← load l; mret (acc ++ [c])) [] ls.

(** ** Orientation of a cluster *)

(** [Math.atan2(y, x)] *)
Definition atan2 (y x : R) : R :=
  if decide (0 < x) then atan (y / x)
  else if decide (x < 0) then
    if decide (0 <= y) then atan (y / x) + PI else atan (y / x) - PI
  else if decide (0 < y) then PI / 2
  else if decide (y < 0) then - PI / 2
  else 0.

(** [while (angle < 0) angle += 2 * Math.PI], with the number of rounds
    the loop can take as fuel.  Over the reals the loop ends for every
    angle; in the doubles of the source it ends as long as adding
    [2 PI] changes the angle, which it does for the angles of
    [moderate_angle]. *)
Fixpoint while_below (fuel : nat) (angle : R) : R :=
  match fuel with
  | O => angle
  | S fuel' => if decide (angle < 0) then while_below fuel' (angle + 2 * PI) else angle
  end.

(** [while (angle > 2 * Math.PI) angle -= 2 * Math.PI] *)
Fixpoint while_above (fuel : nat) (angle : R) : R :=
  match fuel with
  | O => angle
  | S fuel' =>
      if decide (angle > 2 * PI) then while_above fuel' (angle - 2 * PI) else angle
  end.

Definition normalise_angle (angle : R) : R :=
  let angle := while_below (loop_count (- angle / (2 * PI)) + 1) angle in
  while_above (loop_count (angle / (2 * PI))) angle.

(** The comparator argument of [circles.sort]: the caller's order, the
    order by descending radius when the caller passes [null], and the
    default order of [sort(undefined)], which compares the elements as
    strings; every circle prints as the same string, so nothing goes
    after anything. *)
Definition orientation_after (orientationOrder : jsopt (Circle -> Circle -> R))
  : Circle -> Circle -> bool :=
  match orientationOrder with
  | Null => num_after (fun a b => Circle.radius b - Circle.radius a)
  | Val order => num_after order
  | Undefined => fun _ _ => false
  end.

(** [circles.sort(...)] on an array of objects of the store. *)
Definition sort_circles (after : Circle -> Circle -> bool) (circles : list loc)
  : St (list loc) := fun h =>
  match mapM (fun l => h !! l) circles with
  | Some _ =>
      (Ok (js_sort (fun a b =>
                      match h !! a, h !! b with
                      | Some ca, Some cb => after ca cb
                      | _, _ => false
                      end) circles), h)
  | None => (Throw TypeError, h)
  end.

Definition rotate (c s : R) (circle : Circle) : Circle :=
  Circle.set_xy circle (c * Circle.x circle - s * Circle.y circle)
    (s * Circle.x circle + c * Circle.y circle).

Definition mirror (slope : R) (circle : Circle) : Circle :=
  let d := (Circle.x circle + slope * Circle.y circle) / (1 + slope * slope) in
  Circle.set_xy circle (2 * d - Circle.x circle) (2 * d * slope - Circle.y circle).

(** [orientateCircles]; the array is sorted in place, so the sorted
    array is returned.  The slope of the mirror line is taken with the
    total division of the reals; the source divides by zero when the
    second circle stands at [x = -1e-10], and then leaves NaN in every
    coordinate. *)
Definition orientateCircles (circles : list loc) (orientation : jsopt R)
    (orientationOrder : jsopt (Circle -> Circle -> R)) : St (list loc) :=
  circles ← sort_circles (orientation_after orientationOrder) circles;
  (* shift circles so largest circle is at (0, 0) *)
  match circles with
  | [] => mret ()
  | first :: _ =>
      largest ← load first;
      for_each (fun l => update l (fun c =>
                  Circle.set_xy c (Circle.x c - Circle.x largest)
                    (Circle.y c - Circle.y largest))) circles
  end;;
  match circles with
  | [l1; l2] =>
      c1 ← load l1; c2 ← load l2;
      if decide (distance (center c1) (center c2)
                 < Rabs (Circle.radius c2 - Circle.radius c1))
      then update l2 (fun c =>
             Circle.set_xy c (Circle.x c1 + Circle.radius c1 - Circle.radius c2 - 1e-10)
               (Circle.y c))
      else mret ()
  | _ => mret ()
  end;;
  (* rotate circles so that second largest is at an angle of 'orientation' *)
  match circles with
  | _ :: second :: _ =>
      c1 ← load second;
      let rotation := atan2 (Circle.x c1) (Circle.y c1) - nullish orientation 0 in
      for_each (fun l => update l (rotate (cos rotation) (sin rotation))) circles
  | _ => mret ()
  end;;
  (* mirror solution if third solution is above plane *)
  match circles with
  | _ :: second :: third :: _ =>
      c2 ← load third;
      let angle :=
        normalise_angle (atan2 (Circle.x c2) (Circle.y c2) - nullish orientation 0) in
      if decide (angle > PI) then
        c1 ← load second;
        let slope := Circle.y c1 / (1e-10 + Circle.x c1) in
        for_each (fun l => update l (mirror slope)) circles
      else mret ()
  | _ => mret ()
  end;;
  mret circles.

(** ** Disjoint clusters *)

Definition out_of_fuel : string := "find: out of fuel".

(** [find], with path compression.  [fuel] bounds the length of the
    parent chain that is followed. *)
Fixpoint find (fuel : nat) (circle : option loc) : St (option loc) :=
  match circle with
  | None => mret None
  | Some l =>
      c ← load l;
      if decide (Circle.parent c = Some l) then mret (Circle.parent c)
      else match fuel with
           | O => throw out_of_fuel
           | S fuel' =>
               root ← find fuel' (Circle.parent c);
               update l (fun c => Circle.set_parent c root);;
               mret root
           end
  end.

Definition union (fuel : nat) (x y : loc) : St unit :=
  xRoot ← find fuel (Some x);
  yRoot ← find fuel (Some y);
  match xRoot with
  | None => mret ()
  | Some xr => update xr (fun c => Circle.set_parent c yRoot)
  end.

(** The loop over the pairs [i < j]. *)
Fixpoint union_overlapping (fuel : nat) (circles : list loc) : St unit :=
  match circles with
  | [] => mret ()
  | l1 :: later =>
      for_each (fun l2 =>
                  c1 ← load l1; c2 ← load l2;
                  let maxDistance := Circle.radius c1 + Circle.radius c2 in
                  if decide (distance (center c1) (center c2) + 1e-10 < maxDistance)
                  then union fuel l2 l1 else mret ()) later;;
      union_overlapping fuel later
  end.

Definition group_step (fuel : nat) (disjointClusters : obj (list loc)) (l : loc)
  : St (obj (list loc)) :=
  parentCircle ← find fuel (Some l);
  match parentCircle with
  | None => mret disjointClusters
  | Some pl =>
      pc ← load pl;
      match Circle.parent pc with
      | None => mret disjointClusters
      | Some ppl =>
          ppc ← load ppl;
          let setid := Circle.setid ppc in
          if decide (setid = "") then mret disjointClusters
          else
            let disjointClusters :=
              if obj_has disjointClusters setid then disjointClusters
              else obj_set setid [] disjointClusters in
            mret (obj_push setid l disjointClusters)
      end
  end.

Definition disjointCluster (circles : list loc) : St (list (list loc)) :=
  let fuel := length circles in
  for_each (fun l => update l (fun c => Circle.set_parent c (Some l))) circles;;
  union_overlapping fuel circles;;
  disjointClusters ← fold_St (group_step fuel) [] circles;
  for_each (fun l => update l (fun c => Circle.set_parent c None)) circles;;
  mret (obj_values disjointClusters).

(** ** Bounding box *)

Record Bounds := mkBounds { xmax : R; xmin : R; ymax : R; ymin : R }.

(** [Math.max.apply(null, l)] for a list that is not empty. *)
Definition max_of (a : R) (l : list R) : R := foldl Rmax a l.
Definition min_of (a : R) (l : list R) : R := foldl Rmin a l.

(** [getBoundingBox]; [None] stands for the infinite bounds of an empty
    array. *)
Definition getBoundingBox (circles : list Circle) : option Bounds :=
  match circles with
  | [] => None
  | c :: cs =>
      Some (mkBounds
              (max_of (Circle.x c + Circle.radius c)
                 ((fun c => Circle.x c + Circle.radius c) <$> cs))
              (min_of (Circle.x c - Circle.radius c)
                 ((fun c => Circle.x c - Circle.radius c) <$> cs))
              (max_of (Circle.y c + Circle.radius c)
                 ((fun c => Circle.y c + Circle.radius c) <$> cs))
              (min_of (Circle.y c - Circle.radius c)
                 ((fun c => Circle.y c - Circle.radius c) <$> cs)))
  end.

(** ** Normalisation and packing *)

(** A cluster with the [size] and [bounds] attached to it. *)
Record Cluster := mkCluster {
  members : list loc;
  cluster_size : R;
  cluster_bounds : Bounds
}.

Definition bounds_of (ls : list loc) : St Bounds :=
  cs ← load_all ls;
  match getBoundingBox cs with
  | Some b => mret b
  | None => throw TypeError
  end.

Definition addCluster (returnBounds : Bounds) (spacing : R)
    (cluster : option Cluster) (right_ bottom : bool) (circles : list loc)
  : St (list loc) :=
  match cluster with
  | None => mret circles
  | Some cluster =>
      if decide (cluster_size cluster = 0) then mret circles
      else
        let bounds := cluster_bounds cluster in
        let xOffset :=
          if right_ then xmax returnBounds - xmin bounds + spacing
          else
            let xOffset := xmax returnBounds - xmax bounds in
            let centreing := (xmax bounds - xmin bounds) / 2
                             - (xmax returnBounds - xmin returnBounds) / 2 in
            if decide (centreing < 0) then xOffset + centreing else xOffset in
        let yOffset :=
          if bottom then ymax returnBounds - ymin bounds + spacing
          else
            let yOffset := ymax returnBounds - ymax bounds in
            let centreing := (ymax bounds - ymin bounds) / 2
                             - (ymax returnBounds - ymin returnBounds) / 2 in
            if decide (centreing < 0) then yOffset + centreing else yOffset in
        fold_St (fun circles l =>
                   update l (fun c => Circle.set_xy c (Circle.x c + xOffset)
                                        (Circle.y c + yOffset));;
                   mret (circles ++ [l]))
          circles (members cluster)
  end.

(** The [while] loop that lays out the clusters three at a time. *)
Fixpoint pack_clusters (spacing : R) (rest : list Cluster) (returnBounds : Bounds)
    (circles : list loc) : St (list loc) :=
  match rest with
  | [] => mret circles
  | c1 :: rest1 =>
      circles ← addCluster returnBounds spacing (Some c1) true false circles;
      circles ← addCluster returnBounds spacing (head rest1) false true circles;
      circles ← addCluster returnBounds spacing (head (tail rest1)) true true circles;
      returnBounds ← bounds_of circles;
      match rest1 with
      | _ :: _ :: rest3 => pack_clusters spacing rest3 returnBounds circles
      | _ => mret circles
      end
  end.

(** The comparator of the clusters.  It answers 0 whenever a size is 0
    and so is not consistent; the order in which the engine's sort
    leaves such clusters is its own, and no statement depends on it. *)
Definition cluster_after (a b : Cluster) : bool :=
  num_after (fun a b =>
               if decide (cluster_size a = 0 \/ cluster_size b = 0) then 0
               else cluster_size b - cluster_size a) a b.

Definition normalizeSolution (solution : obj loc) (orientation : jsopt R)
    (orientationOrder : jsopt (Circle -> Circle -> R)) : St (obj loc) :=
  let orientation :=
    match orientation with Null => Val (PI / 2) | _ => orientation end in
  (* take a copy so we don't mutate input *)
  circles ← fold_St (fun circles (kl : string * loc) =>
                        previous ← load kl.2;
                        l ← alloc (Circle.mk (Circle.x previous) (Circle.y previous)
                                     (Circle.rowid previous) (Circle.size previous)
                                     (Circle.radius previous) (Circle.parent previous)
                                     kl.1);
                        mret (circles ++ [l])) [] solution;
  clusters ← disjointCluster circles;
  clusters ← fold_St (fun acc cluster =>
                         cluster ← orientateCircles cluster orientation orientationOrder;
                         bounds ← bounds_of cluster;
                         mret (acc ++ [mkCluster cluster
                                         ((xmax bounds - xmin bounds)
                                          * (ymax bounds - ymin bounds)) bounds]))
                [] clusters;
  let clusters := js_sort cluster_after clusters in
  match clusters with
  | [] => throw TypeError
  | largestCluster :: rest =>
      let returnBounds := cluster_bounds largestCluster in
      let spacing := (xmax returnBounds - xmin returnBounds) / 50 in
      circles ← pack_clusters spacing rest returnBounds circles;
      fold_St (fun (ret : obj loc) l =>
                 circle ← load l; mret (obj_set (Circle.setid circle) l ret))
        [] circles
  end.

(** ** Scaling *)

(** The object literal of the loop: the circle with its radius and
    coordinates replaced. *)
Definition scaled_copy (bounds : Bounds) (padding xOffset yOffset scaling : R)
    (circle : Circle) : Circle :=
  Circle.mk (padding + xOffset + (Circle.x circle - xmin bounds) * scaling)
    (padding + yOffset + (Circle.y circle - ymin bounds) * scaling)
    (Circle.rowid circle) (Circle.size circle) (scaling * Circle.radius circle)
    (Circle.parent circle) (Circle.setid circle).

(** One round of the loop; an empty identifier is falsy. *)
Definition scale_step (bounds : Bounds) (padding xOffset yOffset scaling : R)
    (scaled : obj loc) (ic : string * Circle) : St (obj loc) :=
  if decide (ic.1 = "") then mret scaled
  else
    l ← alloc (scaled_copy bounds padding xOffset yOffset scaling ic.2);
    mret (obj_set ic.1 l scaled).

Definition scaleSolution (solution : obj loc) (width height padding : R)
  : St (obj loc) :=
  circles ← load_all (obj_values solution);
  let setids := obj_keys solution in
  let width := width - 2 * padding in
  let height := height - 2 * padding in
  match getBoundingBox circles with
  | None => mret []
  | Some bounds =>
      if decide (xmax bounds = xmin bounds \/ ymax bounds = ymin bounds)
      then mret solution
      else
        let xScaling := width / (xmax bounds - xmin bounds) in
        let yScaling := height / (ymax bounds - ymin bounds) in
        let scaling := Rmin yScaling xScaling in
        let xOffset := (width - (xmax bounds - xmin bounds) * scaling) / 2 in
        let yOffset := (height - (ymax bounds - ymin bounds) * scaling) / 2 in
        fold_St (scale_step bounds padding xOffset yOffset scaling) []
          (zip setids circles)
  end.

(** ** The top-level solution ([vennSolution]) *)

Module Options.
Record t := mk {
  orientation : R;
  width : R;
  height : R;
  padding : R;
  set_id_delimiter : string;
  orientationOrder : jsopt (Circle -> Circle -> R);
  layout : option Layout;
  seed : option R
}.
End Options.

(** A label anchor of [computeTextCentres]. *)
Record TextCentre := mkTextCentre { tx : R; ty : R; disjoint : bool }.

Module Output.
Record intersection := mkIntersection {
  i_set_id : string;
  i_sets : list string;
  i_path : string;
  i_textX : option R;
  i_textY : option R;
  i_size : R
}.
Record circle := mkCircle {
  c_set_id : string;
  c_x : R;
  c_y : R;
  c_size : R;
  c_textX : R;
  c_textY : R
}.
Record t := mk { circles : list circle; intersections : list intersection }.
End Output.

(** [l.join(delimiter)] *)
Fixpoint join (delimiter : string) (l : list string) : string :=
  match l with
  | [] => ""
  | [a] => a
  | a :: l' => a +:+ delimiter +:+ join delimiter l'
  end.

(** [vennSolution] is written over the stages it calls, each of them a
    computation of a monad [M] in which a stage may have any effect
    (reading its random seed, updating circles, throwing). *)
Section VennSolution.
Context {M : Type -> Type} `{!MBind M, !MRet M}.
Variable raise : forall A, string -> M A.
Variable venn_stage : list Area -> Params -> M CircleRecord.
Variable normalize_stage :
  CircleRecord -> R -> jsopt (Circle -> Circle -> R) -> M CircleRecord.
Variable scale_stage : CircleRecord -> R -> R -> R -> M CircleRecord.
Variable computeTextCentres : CircleRecord -> list Area -> M (obj TextCentre).
Variable intersectionAreaPath : list (option Circle) -> M string.

(** A loop that maps an array through a computation. *)
Fixpoint mapM_stage {A B} (f : A -> M B) (l : list A) : M (list B) :=
  match l with
  | [] => mret []
  | a :: l' => b ← f a; bs ← mapM_stage f l'; mret (b :: bs)
  end.

Definition safe (datum : Area) : bool :=
  bool_decide (size datum <> 0) && bool_decide (0 < length (sets datum))%nat.

Definition vennSolution (data : list Area) (options : Options.t) : M Output.t :=
  let safeData := List.filter safe data in
  if decide (length safeData = 0%nat) then mret (Output.mk [] [])
  else
    solution ← venn_stage safeData
                 (mkParams (Options.layout options) None None (Options.seed options));
    solution ← (if decide (Options.orientation options <> PI / 2)
                then normalize_stage solution (Options.orientation options)
                       (Options.orientationOrder options)
                else mret solution);
    solution ← scale_stage solution (Options.width options)
                 (Options.height options) (Options.padding options);
    textCenters ← computeTextCentres solution safeData;
    intersections ←
      mapM_stage (fun datum =>
        let setName := join "," (sets datum) in
        match obj_get textCenters setName with
        | None => raise _ TypeError
        | Some centre =>
            path ← intersectionAreaPath (obj_get solution <$> sets datum);
            mret (Output.mkIntersection
                    (join (Options.set_id_delimiter options) (sets datum))
                    (sets datum) path
                    (if disjoint centre then None else Some (tx centre))
                    (if disjoint centre then None else Some (ty centre))
                    (size datum))
        end) safeData;
    let intersections :=
      List.filter (fun d => bool_decide (1 < length (Output.i_sets d))%nat)
        intersections in
    circles ←
      mapM_stage (fun kc : string * Circle =>
        match obj_get textCenters kc.1 with
        | None => raise _ TypeError
        | Some centre =>
            mret (Output.mkCircle kc.1 (Circle.x kc.2) (Circle.y kc.2)
                    ((Circle.radius kc.2 * 2) ^ 2) (tx centre) (ty centre))
        end) solution;
    mret (Output.mk circles intersections).
End VennSolution.

(** ** Label anchors ([computeTextCentres] and its helpers) *)

(** One round of a loop of [circleMargin]: [m] replaces the margin when
    [m <= margin]. *)
Definition margin_step (m_of : Circle -> R) (margin : R) (c : Circle) : R :=
  let m := m_of c in if decide (m <= margin) then m else margin.

(** [circleMargin]; reading [interior[0]] of an empty array throws. *)
Definition circleMargin (current : Point) (interior exterior : list Circle)
  : result R :=
  match interior with
  | [] => Throw TypeError
  | first :: rest =>
      let margin := Circle.radius first - distance (center first) current in
      let margin :=
        foldl (margin_step (fun c => Circle.radius c - distance (center c) current))
          margin rest in
      Ok (foldl (margin_step (fun c => distance (center c) current - Circle.radius c))
            margin exterior)
  end.

(** [o[k]!.push(v)] *)
Definition push_strict {V} (k : string) (v : V) (o : obj (list V))
  : result (obj (list V)) :=
  match obj_get o k with
  | Some l => Ok (obj_set k (l ++ [v]) o)
  | None => Throw TypeError
  end.

(** The body of the inner loop of [getOverlappingCircles], for the
    identifiers at [i] and [j]. *)
Definition overlapping_pair (circles : CircleRecord) (idi : string)
    (ret : obj (list string)) (idj : string) : result (obj (list string)) :=
  match obj_get circles idi, obj_get circles idj with
  | Some a, Some b =>
      let d := distance (center a) (center b) in
      if decide (d + Circle.radius b <= Circle.radius a + 1e-10)
      then push_strict idj idi ret
      else if decide (d + Circle.radius a <= Circle.radius b + 1e-10)
      then push_strict idi idj ret
      else Ok ret
  | _, _ => Throw TypeError
  end.

(** The loop over [i], with the loop over [j > i] inside. *)
Fixpoint overlapping_from (circles : CircleRecord) (circleids : list string)
    (ret : obj (list string)) : result (obj (list string)) :=
  match circleids with
  | [] => Ok ret
  | idi :: later =>
      ret ← foldl_result (overlapping_pair circles idi) ret later;
      overlapping_from circles later ret
  end.

Definition getOverlappingCircles (circles : CircleRecord)
  : result (obj (list string)) :=
  let circleids := obj_keys circles in
  overlapping_from circles circleids
    (foldl (fun ret id => obj_set id [] ret) [] circleids).

(** One round of the loop over the sets of an area: the set goes to
    [areaids], the circles listed under it to [exclude]. *)
Definition text_area_step (overlapped : obj (list string))
    (st : obj bool * obj bool) (set : string) : obj bool * obj bool :=
  let areaids := obj_set set true st.1 in
  match obj_get overlapped set with
  | None => (areaids, st.2)
  | Some overlaps =>
      (areaids, foldl (fun exclude k => obj_set k true exclude) st.2 overlaps)
  end.

(** One round of the loop over the circles: to [interior], to
    [exterior], or to neither. *)
Definition text_split_step (areaids exclude : obj bool)
    (st : list Circle * list Circle) (kc : string * Circle)
  : list Circle * list Circle :=
  if obj_has areaids kc.1 then (st.1 ++ [kc.2], st.2)
  else if obj_has exclude kc.1 then st
  else (st.1, st.2 ++ [kc.2]).

(** The body of the loop over the areas.  [computeTextCentre] runs the
    optimiser of the module [fmin] and is a parameter; the warning
    written to the console is left out. *)
Definition text_centre_step
    (computeTextCentre : list Circle -> list Circle -> result TextCentre)
    (circles : CircleRecord) (overlapped : obj (list string)) (delimiter : string)
    (ret : obj TextCentre) (a : Area) : result (obj TextCentre) :=
  let area := sets a in
  let st := foldl (text_area_step overlapped) ([], []) area in
  let areaids := st.1 in
  let exclude := st.2 in
  let split := foldl (text_split_step areaids exclude) ([], []) circles in
  let interior := split.1 in
  let exterior := split.2 in
  centre ← computeTextCentre interior exterior;
  Ok (obj_set (join delimiter area) centre ret).

Definition computeTextCentres
    (computeTextCentre : list Circle -> list Circle -> result TextCentre)
    (circles : CircleRecord) (areas : list Area) (delimiter : string)
  : result (obj TextCentre) :=
  overlapped ← getOverlappingCircles circles;
  foldl_result (text_centre_step computeTextCentre circles overlapped delimiter)
    [] areas.

(** * Notions used in the statements

    What the theorems below speak of besides the program itself: the
    quantities of the specification, the frame of a computation on the
    store, and the sample inputs of the closed examples. *)

(** ** Names of plain objects *)

(** The names that every plain object inherits from [Object.prototype]. *)
Definition prototype_names : list string :=
  [ "constructor"; "__defineGetter__"; "__defineSetter__"; "hasOwnProperty";
    "__lookupGetter__"; "__lookupSetter__"; "isPrototypeOf";
    "propertyIsEnumerable"; "toString"; "valueOf"; "__proto__";
    "toLocaleString" ].

(** A name under which a plain object holds what was stored there and
    nothing else. *)
Definition own_name (k : string) : Prop := k ∉ prototype_names.

(** Every set of every Area has such a name. *)
Definition own_names (areas : list Area) : Prop :=
  Forall (fun a => Forall own_name (sets a)) areas.

(** An orientation for which the loops of [orientateCircles] that bring
    the angle into [0, 2 PI] end in double arithmetic as they do over
    the reals: beyond about [2^55] adding [2 PI] changes no double. *)
Definition moderate_angle (orientation : jsopt R) : Prop :=
  Rabs (nullish orientation 0) <= 2 ^ 32.

(** ** Missing pairwise completion *)

(** The single-set identifiers of an Area list, in input order. *)
Definition single_ids (areas : list Area) : list string :=
  areas ≫= fun ar => match sets ar with [a] => [a] | _ => [] end.

(** Some Area of the list names exactly the two sets, in either order. *)
Definition explicit_pair (areas : list Area) (a b : string) : Prop :=
  ∃ ar, ar ∈ areas ∧ (sets ar = [a; b] ∨ sets ar = [b; a]).

(** [a] stands at a smaller index than [b]. *)
Definition precedes (a b : string) (l : list string) : Prop :=
  ∃ i j, (i < j)%nat ∧ l !! i = Some a ∧ l !! j = Some b.

(** The comparator is consistent on the identifiers: of two of them it
    never puts each after the other, and not going after is transitive.
    This is what [Array.prototype.sort] asks of a comparator, and what
    [localeCompare], a collation order, provides. *)
Definition consistent_on (cmp : string -> string -> Z) (ids : list string) : Prop :=
  Forall (fun a =>
    Forall (fun b =>
      ((0 < cmp a b)%Z → (cmp b a <= 0)%Z) ∧
      Forall (fun c => (cmp a b <= 0)%Z → (cmp b c <= 0)%Z → (cmp a c <= 0)%Z) ids)
      ids) ids.

(** The number of Areas of [l] whose set list is exactly [[a; b]]. *)
Definition count_pair (a b : string) (l : list Area) : nat :=
  length (filter (fun ar => sets ar = [a; b]) l).

(** Three sets of which only the pair (A, B) is given. *)
Definition abc_areas : list Area :=
  [ mkArea ["A"] 12 None None; mkArea ["B"] 12 None None;
    mkArea ["C"] 5 None None; mkArea ["B"; "A"] 2 None None ].

(** The same single set given twice. *)
Definition dup_areas : list Area :=
  [ mkArea ["A"] 12 None None; mkArea ["A"] 12 None None;
    mkArea ["B"] 12 None None ].

(** Without the comma condition a key can stand for two pairs: the
    explicit Area of ("a", "b,c") hides the missing pair ("a,b", "c"). *)
Definition comma_areas : list Area :=
  [ mkArea ["a"] 1 None None; mkArea ["b,c"] 1 None None;
    mkArea ["a,b"] 1 None None; mkArea ["c"] 1 None None;
    mkArea ["a"; "b,c"] 1 None None ].

(** ** Choice of the initial layout *)

(** The number of single-set Areas of a list. *)
Definition count_single (areas : list Area) : nat :=
  length (filter (fun a => length (sets a) = 1%nat) areas).

(** Four single sets and their six pairs: ten Areas, as [venn] hands
    them to the selector for a diagram of four sets. *)
Definition four_sets_ten_areas : list Area :=
  [ mkArea ["A"] 12 None None; mkArea ["B"] 12 None None;
    mkArea ["C"] 12 None None; mkArea ["D"] 12 None None;
    mkArea ["A"; "B"] 2 None None; mkArea ["A"; "C"] 2 None None;
    mkArea ["A"; "D"] 2 None None; mkArea ["B"; "C"] 2 None None;
    mkArea ["B"; "D"] 2 None None; mkArea ["C"; "D"] 2 None None ].

(** A circle of area 12 at the origin. *)
Definition at_origin (id : string) : Circle :=
  Circle.mk 0 0 (Some 0%nat) (Some 12) (sqrt (12 / PI)) None id.

(** Two outcomes of the collaborators and a score that prefers the second. *)
Definition greedy_outcome : CircleRecord := [].
Definition mds_outcome : CircleRecord := [("A", at_origin "A")].
Definition sample_score (layout : CircleRecord) (_ : list Area) : R :=
  match layout with [] => 1 | _ => 0 end.

(** ** Loss *)

(** The sum of a list of numbers. *)
Definition Rsum (l : list R) : R := foldr Rplus 0 l.

Section LossNotions.
Context `{CircleIntersection}.

(** The circle of an identifier exists in the layout. *)
Definition present (layout : CircleRecord) (id : string) : bool :=
  bool_decide (is_Some (obj_get layout id)).

(** An Area with two or more members, all of whose circles exist. *)
Definition counted (layout : CircleRecord) (area : Area) : bool :=
  bool_decide (2 <= length (sets area))%nat && forallb (present layout) (sets area).

(** The overlap achieved for a counted Area: [circleOverlap] of the two
    radii and the centre distance for two members, [intersectionArea]
    for three or more. *)
Definition overlap_of (layout : CircleRecord) (area : Area) : R :=
  match sets area with
  | [a; b] =>
      match obj_get layout a, obj_get layout b with
      | Some left_, Some right_ =>
          circleOverlap (Circle.radius left_) (Circle.radius right_)
            (distance (center left_) (center right_))
      | _, _ => 0
      end
  | ids => intersectionArea (obj_get layout <$> ids)
  end.

(** The sum of [w * (achieved - target)^2] over the counted Areas, for a
    reading [w] of the optional weight. *)
Definition loss_sum (w : option R -> R) (layout : CircleRecord)
    (overlaps : list Area) : R :=
  Rsum ((fun area => w (weight area) * (overlap_of layout area - size area) ^ 2)
          <$> filter (fun area => counted layout area) overlaps).

End LossNotions.

(** Stand-ins for the two black-box primitives, for closed examples in
    which they are not consulted or their value does not matter. *)
Definition no_intersection : CircleIntersection :=
  {| intersectionArea := fun _ => 0;
     circleCircleIntersection := fun _ _ _ _ => [] |}.

(** Three unit circles in a row, the first two five apart. *)
Definition unit_circle (id : string) (x : R) : Circle :=
  Circle.mk x 0 None (Some PI) 1 None id.
Definition layout_far : CircleRecord :=
  [("A", unit_circle "A" 0); ("B", unit_circle "B" 5); ("C", unit_circle "C" 6)].

(** ** Greedy layout *)

(** Two single sets, one of them of size 0. *)
Definition zero_size_areas : list Area :=
  [ mkArea ["A"] 5 None None; mkArea ["B"] 0 None None ].

(** ** The store: what a stage leaves untouched *)

(** The objects that exist below [n] are the same in [h'] as in [h]. *)
Definition frame (n : nat) (h h' : store) : Prop :=
  (n <= length h')%nat ∧ ∀ l, (l < n)%nat → h' !! l = h !! l.

(** Started in a store of at least [n] objects that satisfies [pre], the
    computation leaves the objects below [n] as they are, whether it
    returns or throws, and establishes [post] when it returns. *)
Definition keeps (n : nat) {A} (m : St A) (pre : store -> Prop)
    (post : A -> store -> Prop) : Prop :=
  ∀ h, (n <= length h)%nat → pre h →
       frame n h (m h).2 ∧ ∀ a, (m h).1 = Ok a → post a (m h).2.

(** Locations of objects created after the first [n]. *)
Definition fresh (n : nat) (ls : list loc) : Prop := Forall (fun l => (n <= l)%nat) ls.

(** The parent pointers of the circles of [S] stay within [S]. *)
Definition closed (S : list loc) (h : store) : Prop :=
  ∀ l c p, l ∈ S → h !! l = Some c → Circle.parent c = Some p → p ∈ S.

(** The condition on the store that asks for nothing. *)
Definition quiet : store -> Prop := fun _ => True.

(** ** Scaling *)

(** The bounding box has no width or no height. *)
Definition degenerate (b : Bounds) : Prop := xmax b = xmin b ∨ ymax b = ymin b.

(** The radius is positive, and at least the spacing of the doubles at
    the coordinates of the centre: [x + radius] and [x - radius] are
    then different doubles, as they are different reals, and so for
    [y]. *)
Definition kept_radius (c : Circle) : Prop :=
  0 < Circle.radius c ∧
  Rabs (Circle.x c) <= 2 ^ 52 * Circle.radius c ∧
  Rabs (Circle.y c) <= 2 ^ 52 * Circle.radius c.

(** The uniform factor: the smaller of the two per-axis ratios of the
    viewport without its padding to the extent of the bounding box. *)
Definition scaling_of (b : Bounds) (width height padding : R) : R :=
  Rmin ((height - 2 * padding) / (ymax b - ymin b))
       ((width - 2 * padding) / (xmax b - xmin b)).

(** The circle scaled by that factor and centred in the viewport. *)
Definition fit (b : Bounds) (width height padding : R) (c : Circle) : Circle :=
  let s := scaling_of b width height padding in
  Circle.mk
    (padding + (width - 2 * padding - (xmax b - xmin b) * s) / 2
     + (Circle.x c - xmin b) * s)
    (padding + (height - 2 * padding - (ymax b - ymin b) * s) / 2
     + (Circle.y c - ymin b) * s)
    (Circle.rowid c) (Circle.size c) (s * Circle.radius c)
    (Circle.parent c) (Circle.setid c).

(** The entries of a record, with their circles, whose identifier is
    not the empty string. *)
Definition named (solution : obj loc) (cs : list Circle) : list (string * Circle) :=
  filter (fun ic => ic.1 ≠ "") (zip (obj_keys solution) cs).

(** The record that assigns to the identifiers, in order, the objects
    created from [base] on. *)
Definition record_from (base : nat) (acc : obj loc) (ids : list string) : obj loc :=
  foldl (fun o (jid : nat * string) => obj_set jid.2 jid.1 o) acc
    (imap (fun j id => ((base + j)%nat, id)) ids).

(** Two unit circles on the x axis, three apart, and their box. *)
Definition two_circles (id1 id2 : string) : store :=
  [unit_circle id1 0; unit_circle id2 3].
Definition two_bounds : Bounds :=
  mkBounds (max_of (0 + 1) [3 + 1]) (min_of (0 - 1) [3 - 1])
           (max_of (0 + 1) [0 + 1]) (min_of (0 - 1) [0 - 1]).

(** ** Orientation of a cluster *)

(** A cluster of two circles, the smaller one listed first. *)
Definition small_large : store :=
  [Circle.mk 0 0 None None 1 None "A"; Circle.mk 3 0 None None 2 None "B"].

(** ** Further notions *)

(** The squared distance of the points [i] and [j] of a position vector. *)
Definition squared_distance (x : list R) (i j : nat) : R :=
  (x !!! (2 * j)%nat - x !!! (2 * i)%nat) * (x !!! (2 * j)%nat - x !!! (2 * i)%nat)
  + (x !!! (2 * j + 1)%nat - x !!! (2 * i + 1)%nat)
    * (x !!! (2 * j + 1)%nat - x !!! (2 * i + 1)%nat).

(** The circle under [k] encloses the circle under [id], up to the
    tolerance of the source. *)
Definition encloses (circles : CircleRecord) (k id : string) : Prop :=
  ∃ a b, obj_get circles k = Some a ∧ obj_get circles id = Some b ∧
         distance (center a) (center b) + Circle.radius b <= Circle.radius a + 1e-10.

(** [k] is listed under [id]. *)
Definition listed (ret : obj (list string)) (id k : string) : Prop :=
  ∃ l, obj_get ret id = Some l ∧ k ∈ l.

(** The result has an entry for exactly the identifiers of [circles]. *)
Definition covers (circles : CircleRecord) (ret : obj (list string)) : Prop :=
  ∀ id, is_Some (obj_get ret id) ↔ id ∈ obj_keys circles.

(** A unit circle inside a circle of radius 2 about the same centre. *)
Definition nested_circles : CircleRecord :=
  [("A", Circle.mk 0 0 None None 2 None "A"); ("B", unit_circle "B" 0)].

(** Every object of [h] is still there in [h'], changed at most as
    [rel] allows, and no object was added. *)
Definition evolves (rel : Circle -> Circle -> Prop) (h h' : store) : Prop :=
  length h' = length h ∧
  ∀ l c, h !! l = Some c → ∃ c', h' !! l = Some c' ∧ rel c c'.

(** The computation changes the objects of the store at most as [rel]
    allows, whether it returns or throws. *)
Definition pres (rel : Circle -> Circle -> Prop) {A} (m : St A) : Prop :=
  ∀ h, evolves rel h (m h).2.

(** The two circles agree but for the union-find pointer. *)
Definition same_but_parent (c c' : Circle) : Prop :=
  c' = Circle.set_parent c (Circle.parent c').

(** The two circles agree but for the position. *)
Definition same_but_position (c c' : Circle) : Prop :=
  c' = Circle.set_xy c (Circle.x c') (Circle.y c').

(** The two circles stand for the same set, with the same size. *)
Definition same_set (c c' : Circle) : Prop :=
  Circle.radius c' = Circle.radius c ∧ Circle.size c' = Circle.size c ∧
  Circle.rowid c' = Circle.rowid c ∧ Circle.setid c' = Circle.setid c.

(** Started in a store that satisfies [pre], the computation returns,
    with a value and a store that satisfy [post]. *)
Definition runs {A} (m : St A) (pre : store -> Prop) (post : A -> store -> Prop)
  : Prop :=
  ∀ h, pre h → ∃ a, (m h).1 = Ok a ∧ post a (m h).2.

(** The objects of [ls] exist in a store of [n] objects. *)
Definition valid (n : nat) (ls : list loc) : Prop := Forall (fun l => (l < n)%nat) ls.

(** [a] goes after [b] when its key is smaller: descending order. *)
Definition after_desc {A} (key : A -> R) (a b : A) : bool :=
  bool_decide (key b - key a > 0).
Definition desc {A} (key : A -> R) (a b : A) : Prop := key b <= key a.

(** The radius of the object at [l]. *)
Definition radius_of (h : store) (l : loc) : R :=
  default 0 (Circle.radius <$> h !! l).

(** The object at [l] is centred at the origin. *)
Definition origin_at (l : loc) (h : store) : Prop :=
  ∃ c, h !! l = Some c ∧ Circle.x c = 0 ∧ Circle.y c = 0.

(** The object at [l] lies in the direction [theta], measured from the
    y axis towards the x axis, at some distance from the origin. *)
Definition polar_at (theta : R) (l : loc) (h : store) : Prop :=
  ∃ c rho, h !! l = Some c ∧ 0 <= rho ∧
           Circle.x c = rho * sin theta ∧ Circle.y c = rho * cos theta.

(** The store has [n] objects, with the radii [rho]. *)
Definition shaped (n : nat) (rho : loc -> R) (h : store) : Prop :=
  length h = n ∧ ∀ l, radius_of h l = rho l.

(** The first circle of the array is at the origin. *)
Definition first_at_origin (r : list loc) (h : store) : Prop :=
  ∀ first, head r = Some first → origin_at first h.

(** The second circle of the array lies in the direction [theta]. *)
Definition second_at_angle (theta : R) (r : list loc) (h : store) : Prop :=
  ∀ second, r !! 1%nat = Some second → polar_at theta second h.

(** The record has one circle for every single-set identifier of the
    Area list, with the radius, size and name of a single-set Area of
    that identifier. *)
Definition proportional (areas : list Area) (circles : CircleRecord) : Prop :=
  (∀ k, is_Some (obj_get circles k) ↔ k ∈ single_ids areas) ∧
  ∀ k c, obj_get circles k = Some c →
         ∃ area, area ∈ areas ∧ sets area = [k] ∧
                 Circle.radius c = sqrt (size area / PI) ∧
                 Circle.size c = Some (size area) ∧ Circle.setid c = k.

(** The second record has the circles of the first, moved. *)
Definition moved (o o' : CircleRecord) : Prop :=
  ∀ k, option_Forall2 same_but_position (obj_get o k) (obj_get o' k).

(** The round of the loop for this Area reads a field of [undefined]. *)
Definition dangling (circles : CircleRecord) (a : Area) : Prop :=
  ∃ l r, sets a = [l; r] ∧
         (obj_get circles l = None ∨
          ∃ lc, obj_get circles l = Some lc ∧ falsy (Circle.size lc) = false ∧
                obj_get circles r = None).

(** A two-set Area names a set that has no single-set Area: the first
    set, or the second one when every single-set Area has a size other
    than 0. *)
Definition unknown_set (areas : list Area) : Prop :=
  ∃ ar l r, ar ∈ areas ∧ sets ar = [l; r] ∧
            (l ∉ single_ids areas ∨
             (r ∉ single_ids areas ∧
              ∀ a, a ∈ areas → length (sets a) = 1%nat → size a ≠ 0)).

(** The stand-in for the two optimisers in closed examples: each
    returns the vector it starts from. *)
Definition no_fmin : Fmin :=
  {| nelderMead := fun _ initial _ => initial;
     conjugateGradient := fun _ initial _ => (initial, 0) |}.

(** An [n] by [n] matrix. *)
Definition square (n : nat) (m : list (list R)) : Prop :=
  length m = n ∧ Forall (fun row => length row = n) m.

Definition symmetric (m : list (list R)) : Prop :=
  ∀ i j, mget m i j = mget m j i.

(** What [getDistanceMatrices] keeps true of its two matrices. *)
Definition matrices_ok (n : nat) (st : list (list R) * list (list R)) : Prop :=
  square n st.1 ∧ square n st.2 ∧ symmetric st.1 ∧ symmetric st.2 ∧
  ∀ i j, mget st.2 i j = -1 ∨ mget st.2 i j = 0 ∨ mget st.2 i j = 1.

(** Two sets of size 1 whose overlap is given as 5: more than either. *)
Definition nested_areas : list Area :=
  [ mkArea ["A"] 1 None None; mkArea ["B"] 1 None None;
    mkArea ["A"; "B"] 5 None None ].

(** The layout with every circle shifted by [(dx, dy)]. *)
Definition shift_layout (dx dy : R) (layout : CircleRecord) : CircleRecord :=
  (fun kc : string * Circle =>
     (kc.1, Circle.set_xy kc.2 (Circle.x kc.2 + dx) (Circle.y kc.2 + dy))) <$> layout.

(** The copy that [normalizeSolution] makes of a circle, under the key
    it was found at. *)
Definition copy_of (key : string) (previous : Circle) : Circle :=
  Circle.mk (Circle.x previous) (Circle.y previous) (Circle.rowid previous)
    (Circle.size previous) (Circle.radius previous) (Circle.parent previous) key.

(** The parent pointer of the object at [l]. *)
Definition parent_of (h : store) (l : loc) : option loc :=
  h !! l ≫= Circle.parent.

(** [chain h l r P]: following the parent pointers from [l] one passes
    the circles [P], from [l] to the root [r], which is its own parent. *)
Inductive chain (h : store) : loc -> loc -> list loc -> Prop :=
| chain_root l : parent_of h l = Some l → chain h l l [l]
| chain_step l p r P :
    parent_of h l = Some p → p ≠ l → chain h p r P → chain h l r (l :: P).

(** Every chain of [h] is still a chain of [h'], to the same root, and
    not longer. *)
Definition compresses (h h' : store) : Prop :=
  ∀ m r P, chain h m r P → ∃ P', chain h' m r P' ∧ (length P' <= length P)%nat.

(** What a step of the union-find keeps: the circles but for their
    pointers, the pointers within [S], and every chain, to the same
    root and not longer. *)
Definition uf_step (S : list loc) (h h' : store) : Prop :=
  compresses h h' ∧ (closed S h → closed S h') ∧ evolves same_but_parent h h'.

(** The root that the parent pointers lead to. *)
Definition root_in (h : store) (l r : loc) : Prop := ∃ P, chain h l r P.

(** Every circle of [S] has a root. *)
Definition forest (S : list loc) (h : store) : Prop :=
  ∀ l, l ∈ S → ∃ r, root_in h l r.

(** The two circles have the same root. *)
Definition same (h : store) (a b : loc) : Prop :=
  ∃ r, root_in h a r ∧ root_in h b r.

(** The test of the double loop of [disjointCluster], on the circles at
    two locations. *)
Definition overlapping (h : store) (a b : loc) : Prop :=
  ∃ ca cb, h !! a = Some ca ∧ h !! b = Some cb ∧
    distance (center ca) (center cb) + 1e-10 < Circle.radius ca + Circle.radius cb.

(** The pairs the double loop visits, in its order, as the arguments of
    [union]. *)
Fixpoint pairs_of (circles : list loc) : list (loc * loc) :=
  match circles with
  | [] => []
  | l1 :: later => ((fun l2 => (l2, l1)) <$> later) ++ pairs_of later
  end.

(** The overlapping pairs among [D]. *)
Definition edges (h : store) (D : list (loc * loc)) (a b : loc) : Prop :=
  (a, b) ∈ D ∧ overlapping h a b.

(** Connected by a path of overlapping circles of the array. *)
Definition connected (h : store) (circles : list loc) : relation loc :=
  rtsc (fun a b => a ∈ circles ∧ b ∈ circles ∧ overlapping h a b).

(** The state of the union-find after the pairs [D]: the classes are the
    components of the overlapping pairs among [D]. *)
Definition uf_inv (S : list loc) (h0 : store) (D : list (loc * loc)) (h : store) : Prop :=
  forest S h ∧ closed S h ∧ evolves same_but_parent h0 h ∧
  ∀ a b, a ∈ S → b ∈ S → (same h a b ↔ rtsc (edges h0 D) a b).

(** The key under which the grouping loop files a circle: the [setid] of
    its root. *)
Definition keyed (h : store) (l : loc) (k : string) : Prop :=
  ∃ r c, root_in h l r ∧ h !! r = Some c ∧ Circle.setid c = k.

(** The groups hold the circles [seen], each once, under its key. *)
Definition grouped (h : store) (seen : list loc) (g : obj (list loc)) : Prop :=
  NoDup (obj_keys g) ∧ concat (obj_values g) ≡ₚ seen ∧
  ∀ k ls l, (k, ls) ∈ g → l ∈ ls → keyed h l k.

(** No group is empty. *)
Definition inhabited (g : obj (list loc)) : Prop :=
  ∀ k ls, (k, ls) ∈ g → ls ≠ [].

(** Three circles in a row, each overlapping the next: one cluster. *)
Definition three_in_a_row : store :=
  [unit_circle "A" 0; unit_circle "B" 1; unit_circle "C" 2].

(** The circles of the sets of the area, in the order of the record. *)
Definition interior_of (circles : CircleRecord) (a : Area) : list Circle :=
  (filter (fun kc : string * Circle => kc.1 ∈ sets a) circles).*2.

(** The circles outside the area that are listed under none of its
    sets, in the order of the record. *)
Definition exterior_of (circles : CircleRecord) (overlapped : obj (list string))
    (a : Area) : list Circle :=
  (filter (fun kc : string * Circle =>
             kc.1 ∉ sets a ∧
             ¬ Exists (fun s => kc.1 ∈ default [] (obj_get overlapped s)) (sets a))
     circles).*2.

(** A stand-in for [computeTextCentre] that tells how many circles it
    was given as interior and as exterior. *)
Definition count_centre (interior exterior : list Circle) : result TextCentre :=
  Ok (mkTextCentre (INR (length interior)) (INR (length exterior)) false).

(** Two unit circles five apart. *)
Definition far_apart : CircleRecord :=
  [("A", unit_circle "A" 0); ("B", unit_circle "B" 5)].

(** * Theorems *)

(** ** Sorting *)

Lemma js_insert_perm {A} (after : A -> A -> bool) a l :
  js_insert after a l ≡ₚ a :: l.
Proof.
  induction l as [|b l IH]; simpl; [done|].
  destruct (after a b); [|done].
  rewrite IH. apply Permutation_swap.
Qed.

Lemma js_sort_perm {A} (after : A -> A -> bool) l : js_sort after l ≡ₚ l.
Proof.
  induction l as [|a l IH]; simpl; [done|].
  rewrite js_insert_perm. by rewrite IH.
Qed.

(** For a comparator that is consistent on the elements, the array that
    [sort] leaves behind is in order: no element goes after a later
    one. *)
Section JsSortSorted.
Context {A : Type} (after : A -> A -> bool) (S : list A).
Hypothesis Hanti : ∀ a b, a ∈ S → b ∈ S → after a b = true → after b a = false.
Hypothesis Htrans : ∀ a b c, a ∈ S → b ∈ S → c ∈ S →
  after a b = false → after b c = false → after a c = false.

Lemma js_insert_sorted a l :
  a ∈ S → l ⊆ S → StronglySorted (fun x y => after x y = false) l →
  StronglySorted (fun x y => after x y = false) (js_insert after a l).
Proof using Hanti Htrans.
  intros Ha Hl Hs. induction Hs as [|b l Hs IH Hb]; simpl.
  - repeat constructor.
  - assert (b ∈ S) as HbS by (apply Hl; left).
    assert (l ⊆ S) as HlS by (intros x Hx; apply Hl; by right).
    destruct (after a b) eqn:Hab.
    + constructor; [by apply IH|].
      apply Forall_forall. intros x Hx. rewrite js_insert_perm in Hx.
      apply elem_of_cons in Hx as [->|Hx]; [by apply Hanti|].
      by eapply Forall_forall in Hb.
    + constructor; [by constructor|].
      constructor; [done|]. apply Forall_forall. intros x Hx.
      apply (Htrans a b x); [done|done|by apply HlS|done|].
      by eapply Forall_forall in Hb.
Qed.

Lemma js_sort_sorted l :
  l ⊆ S → StronglySorted (fun x y => after x y = false) (js_sort after l).
Proof using Hanti Htrans.
  induction l as [|a l IH]; intros Hl; simpl; [constructor|].
  apply js_insert_sorted.
  - apply Hl. left.
  - intros x Hx. rewrite js_sort_perm in Hx. apply Hl. by right.
  - apply IH. intros x Hx. apply Hl. by right.
Qed.
End JsSortSorted.

Lemma StronglySorted_weaken {A} (R1 R2 : A -> A -> Prop) (l : list A) :
  (∀ a b, R1 a b → R2 a b) → StronglySorted R1 l → StronglySorted R2 l.
Proof.
  intros Hw Hs. induction Hs as [|a l Hs IH Ha]; constructor; [done|].
  eapply Forall_impl; [exact Ha|]. intros b. apply Hw.
Qed.

Lemma StronglySorted_precedes (R : string -> string -> Prop) l a b :
  StronglySorted R l → precedes a b l → R a b.
Proof.
  intros Hs (i & j & Hij & Hi & Hj). revert i j Hij Hi Hj.
  induction Hs as [|x l Hs IH Hx]; intros i j Hij Hi Hj; [done|].
  destruct j as [|j]; [lia|]. destruct i as [|i].
  - injection Hi as ->. eapply Forall_forall in Hx; [exact Hx|].
    by eapply list_elem_of_lookup_2.
  - apply (IH i j); [lia|done|done].
Qed.

(** ** Missing pairwise completion *)

Lemma pair_key_inj a b c d :
  comma_free a → comma_free c → pair_key a b = pair_key c d → a = c ∧ b = d.
Proof.
  unfold pair_key, String.app, comma_free. revert c.
  induction a as [|x a IH]; intros [|y c] Ha Hc; simpl in *.
  - intros [= ->]. done.
  - intros [= <- _]. apply andb_True in Hc as [Hc _]. by destruct Hc.
  - intros [= -> _]. apply andb_True in Ha as [Ha _]. by destruct Ha.
  - intros [= -> H]. apply andb_True in Ha as [_ Ha], Hc as [_ Hc].
    destruct (IH c) as [-> ->]; done.
Qed.

Lemma collect_fold_fst areas ids P :
  (foldl collect_step (ids, P) areas).1 = (ids ++ single_ids areas)%list.
Proof.
  revert ids P. induction areas as [|ar areas IH]; intros ids P; simpl.
  - by rewrite app_nil_r.
  - unfold collect_step at 2. unfold single_ids. simpl.
    destruct (sets ar) as [|a [|b [|c l]]]; simpl; rewrite IH; try done.
    by rewrite <- app_assoc.
Qed.

Lemma collect_fold_snd areas ids P k :
  k ∈ (foldl collect_step (ids, P) areas).2 ↔
  k ∈ P ∨ ∃ ar a b, ar ∈ areas ∧ sets ar = [a; b] ∧
                    (k = pair_key a b ∨ k = pair_key b a).
Proof.
  revert ids P. induction areas as [|ar areas IH]; intros ids P; simpl.
  - split; [auto|]. intros [?|(ar & a & b & Hin & _)]; [done|].
    by apply elem_of_nil in Hin.
  - destruct (collect_step (ids, P) ar) as [ids' P'] eqn:E. rewrite IH.
    assert (∀ k', k' ∈ P' ↔ k' ∈ P ∨ ∃ a b, sets ar = [a; b] ∧
                    (k' = pair_key a b ∨ k' = pair_key b a)) as HP'.
    { unfold collect_step in E. intros k'.
      destruct (sets ar) as [|a [|b [|c l]]]; simplify_eq/=;
        try naive_solver.
      rewrite !elem_of_union, !elem_of_singleton. naive_solver. }
    rewrite HP'. setoid_rewrite elem_of_cons. naive_solver.
Qed.

Lemma collect_ids areas : (collect areas).1 = single_ids areas.
Proof. unfold collect. by rewrite collect_fold_fst. Qed.

Lemma collect_pairs areas k :
  k ∈ (collect areas).2 ↔
  ∃ ar a b, ar ∈ areas ∧ sets ar = [a; b] ∧ (k = pair_key a b ∨ k = pair_key b a).
Proof.
  unfold collect. rewrite collect_fold_snd. split; [|auto].
  intros [H|H]; [|done]. by apply not_elem_of_empty in H.
Qed.

Lemma count_pair_app a b l1 l2 :
  count_pair a b (l1 ++ l2) = (count_pair a b l1 + count_pair a b l2)%nat.
Proof. unfold count_pair. by rewrite filter_app, length_app. Qed.

Lemma count_pair_zero a b l :
  (∀ ar, ar ∈ l → sets ar ≠ [a; b]) → count_pair a b l = 0%nat.
Proof.
  unfold count_pair. induction l as [|x l IH]; intros H; [done|].
  rewrite filter_cons_False by (apply H; left).
  apply IH. intros ar Har. apply H. by right.
Qed.

Lemma missing_for_elem P a rest ar :
  ar ∈ missing_for P a rest ↔
  ∃ b, b ∈ rest ∧ pair_key a b ∉ P ∧ ar = mkArea [a; b] 0 None None.
Proof.
  unfold missing_for. rewrite list_elem_of_bind. split.
  - intros (b & Hb & Hin). exists b. case_decide.
    + by apply elem_of_nil in Hb.
    + apply list_elem_of_singleton in Hb. done.
  - intros (b & Hin & HP & ->). exists b. split; [|done].
    rewrite decide_False by done. by left.
Qed.

Lemma count_missing_for P a rest b :
  NoDup rest → b ∈ rest → pair_key a b ∉ P →
  count_pair a b (missing_for P a rest) = 1%nat.
Proof.
  induction rest as [|c rest IH]; intros Hnd Hin HP.
  - by apply elem_of_nil in Hin.
  - apply NoDup_cons in Hnd as [Hc Hnd].
    change (missing_for P a (c :: rest))
      with ((if decide (pair_key a c ∈ P) then []
             else [mkArea [a; c] 0 None None]) ++ missing_for P a rest).
    rewrite count_pair_app.
    apply elem_of_cons in Hin as [->|Hin].
    + rewrite decide_False by done.
      rewrite (count_pair_zero _ _ (missing_for _ _ _)).
      * unfold count_pair. by rewrite filter_cons_True.
      * intros ar (b & Hb & _ & ->)%missing_for_elem [= ->]. done.
    + rewrite IH by done.
      rewrite count_pair_zero; [done|].
      intros ar Har. case_decide; [by apply elem_of_nil in Har|].
      apply list_elem_of_singleton in Har as ->. intros [= ->]. done.
Qed.

Lemma precedes_cons a b x l :
  precedes a b (x :: l) ↔ (a = x ∧ b ∈ l) ∨ precedes a b l.
Proof.
  unfold precedes. split.
  - intros (i & j & Hij & Hi & Hj). destruct j as [|j]; [lia|].
    destruct i as [|i]; simpl in *.
    + left. split; [congruence|]. by eapply list_elem_of_lookup_2.
    + right. exists i, j. split_and!; [lia|done|done].
  - intros [[-> Hb]|(i & j & Hij & Hi & Hj)].
    + apply list_elem_of_lookup_1 in Hb as [j Hj].
      exists 0%nat, (S j). split_and!; [lia|done|done].
    + exists (S i), (S j). split_and!; [lia|done|done].
Qed.

Lemma precedes_elem a b l : precedes a b l → a ∈ l ∧ b ∈ l.
Proof.
  intros (i & j & _ & Hi & Hj). split; by eapply list_elem_of_lookup_2.
Qed.

Lemma missing_pairs_elem P ids ar :
  ar ∈ missing_pairs P ids →
  ∃ a b, ar = mkArea [a; b] 0 None None ∧ precedes a b ids ∧ pair_key a b ∉ P.
Proof.
  induction ids as [|x ids IH]; simpl; [by intros ?%elem_of_nil|].
  intros [H|H]%elem_of_app.
  - apply missing_for_elem in H as (b & Hb & HP & ->).
    exists x, b. split_and!; [done| |done]. apply precedes_cons. by left.
  - destruct (IH H) as (a & b & -> & Hp & HP).
    exists a, b. split_and!; [done| |done]. apply precedes_cons. by right.
Qed.

Lemma count_missing_pairs P ids a b :
  NoDup ids → precedes a b ids → pair_key a b ∉ P →
  count_pair a b (missing_pairs P ids) = 1%nat.
Proof.
  induction ids as [|x ids IH]; intros Hnd Hp HP.
  - destruct Hp as (i & j & _ & Hi & _). done.
  - apply NoDup_cons in Hnd as [Hx Hnd]. simpl. rewrite count_pair_app.
    apply precedes_cons in Hp as [[-> Hb]|Hp].
    + rewrite count_missing_for by done.
      rewrite count_pair_zero; [done|].
      intros ar (a' & b' & -> & Hp' & _)%missing_pairs_elem [= -> ->].
      by apply precedes_elem in Hp' as [? _].
    + rewrite IH by done.
      rewrite count_pair_zero; [done|].
      intros ar (b' & _ & _ & ->)%missing_for_elem [= -> ->].
      by apply precedes_elem in Hp as [? _].
Qed.

Lemma precedes_total a b l : a ∈ l → b ∈ l → a ≠ b → precedes a b l ∨ precedes b a l.
Proof.
  intros [i Hi]%list_elem_of_lookup_1 [j Hj]%list_elem_of_lookup_1 Hne.
  destruct (Nat.lt_trichotomy i j) as [?|[->|?]].
  - left. by exists i, j.
  - congruence.
  - right. by exists j, i.
Qed.

Lemma precedes_asym a b l : NoDup l → precedes a b l → ¬ precedes b a l.
Proof.
  intros Hnd (i & j & Hij & Hi & Hj) (i' & j' & Hij' & Hi' & Hj').
  pose proof (NoDup_lookup _ _ _ _ Hnd Hi Hj').
  pose proof (NoDup_lookup _ _ _ _ Hnd Hj Hi'). lia.
Qed.

(** C2 (as amended).  When the single-set identifiers of the input are
    pairwise distinct and no identifier contains a comma,
    [addMissingAreas] returns the input followed by appended Areas such
    that: every appended Area is [{sets: [a, b], size: 0}] for a pair
    that stands in this order in the sorted identifier list and has no
    explicit two-set Area; every pair of distinct single-set identifiers
    without an explicit two-set Area gets exactly one appended Area, in
    the order of the sorted list, and none in the other order; a pair
    with an explicit two-set Area (in either order) gets none.  The
    sorted list is in the order of [localeCompare] when that is a
    consistent comparator on the identifiers: no identifier goes after
    a later one, so that [localeCompare a b <= 0] for every appended
    [[a, b]]. *)
Theorem addMissingAreas_completes (localeCompare : string -> string -> Z)
    (areas : list Area) :
  NoDup (single_ids areas) →
  forallb (fun ar => forallb comma_free (sets ar)) areas = true →
  ∃ added,
    addMissingAreas localeCompare areas = (areas ++ added)%list ∧
    (∀ ar, ar ∈ added →
       ∃ a b, ar = mkArea [a; b] 0 None None ∧
              precedes a b (sorted_ids localeCompare areas) ∧
              ¬ explicit_pair areas a b) ∧
    (∀ a b, a ∈ single_ids areas → b ∈ single_ids areas → a ≠ b →
       ¬ explicit_pair areas a b →
       (precedes a b (sorted_ids localeCompare areas) ∧
        count_pair a b added = 1%nat ∧ count_pair b a added = 0%nat) ∨
       (precedes b a (sorted_ids localeCompare areas) ∧
        count_pair b a added = 1%nat ∧ count_pair a b added = 0%nat)) ∧
    (∀ a b, explicit_pair areas a b →
       count_pair a b added = 0%nat ∧ count_pair b a added = 0%nat) ∧
    (consistent_on localeCompare (single_ids areas) →
       StronglySorted (fun a b => (localeCompare a b <= 0)%Z)
         (sorted_ids localeCompare areas) ∧
       ∀ ar, ar ∈ added →
         ∃ a b, ar = mkArea [a; b] 0 None None ∧ (localeCompare a b <= 0)%Z).
Proof.
  intros Hnd Hcf.
  set (sorted := sorted_ids localeCompare areas).
  set (P := (collect areas).2).
  assert (sorted ≡ₚ single_ids areas) as Hperm.
  { unfold sorted, sorted_ids. rewrite js_sort_perm. by rewrite collect_ids. }
  assert (NoDup sorted) as Hnds by by rewrite Hperm.
  assert (∀ ar a, ar ∈ areas → a ∈ sets ar → comma_free a) as Hcf'.
  { intros ar a Har Ha.
    rewrite forallb_forall in Hcf. apply list_elem_of_In in Har.
    specialize (Hcf _ Har). rewrite forallb_forall in Hcf.
    apply Is_true_true, Hcf. by apply list_elem_of_In. }
  assert (∀ a b, a ∈ single_ids areas → pair_key a b ∈ P → explicit_pair areas a b)
    as Hexp.
  { intros a b Ha (ar & a' & b' & Har & Hs & Hk)%collect_pairs.
    assert (comma_free a) as Hca.
    { unfold single_ids in Ha. apply list_elem_of_bind in Ha as (ar0 & Ha & Har0).
      apply (Hcf' ar0); [done|].
      destruct (sets ar0) as [|x [|y l]]; try by apply elem_of_nil in Ha.
      done. }
    exists ar. split; [done|].
    destruct Hk as [Hk|Hk]; apply pair_key_inj in Hk as [-> ->]; auto.
    - apply (Hcf' ar); [done|]. rewrite Hs. by left.
    - apply (Hcf' ar); [done|]. rewrite Hs. right. by left. }
  assert (∀ a b, explicit_pair areas a b → pair_key a b ∈ P) as Hexp'.
  { intros a b (ar & Har & Hs). apply collect_pairs.
    destruct Hs as [Hs|Hs]; [exists ar, a, b|exists ar, b, a]; auto. }
  assert (∀ a b, pair_key a b ∈ P → count_pair a b (missing_pairs P sorted) = 0%nat)
    as Hzero.
  { intros a b HP. apply count_pair_zero.
    intros ar (a' & b' & -> & _ & HP')%missing_pairs_elem [= -> ->]. done. }
  exists (missing_pairs P sorted). split_and!.
  - done.
  - intros ar (a & b & -> & Hp & HP)%missing_pairs_elem.
    exists a, b. split_and!; [done|done|]. intros He. by apply HP, Hexp'.
  - intros a b Ha Hb Hne Hex.
    assert (∀ x y, x ∈ sorted → y ∈ sorted → ¬ explicit_pair areas x y →
                   precedes x y sorted →
                   count_pair x y (missing_pairs P sorted) = 1%nat ∧
                   count_pair y x (missing_pairs P sorted) = 0%nat) as Hone.
    { intros x y Hx Hy Hxy Hp. split.
      - apply count_missing_pairs; [done|done|].
        intros HP. apply Hxy, Hexp; [|done]. by rewrite <- Hperm.
      - apply count_pair_zero.
        intros ar (a' & b' & -> & Hp' & _)%missing_pairs_elem [= -> ->].
        by eapply precedes_asym. }
    rewrite <- Hperm in Ha, Hb.
    destruct (precedes_total a b sorted) as [Hp|Hp]; [done..| |].
    + left. split; [done|]. by apply Hone.
    + right. split; [done|]. apply Hone; [done|done| |done].
      intros (ar & Har & Hs). apply Hex. exists ar. tauto.
  - intros a b Hex. split; apply Hzero, Hexp'; [done|].
    destruct Hex as (ar & Har & Hs). exists ar. tauto.
  - intros Hcons.
    assert (StronglySorted (fun a b => (localeCompare a b <= 0)%Z) sorted) as Hsorted.
    { unfold sorted, sorted_ids. rewrite collect_ids.
      eapply StronglySorted_weaken;
        [|apply (js_sort_sorted _ (single_ids areas)); [| |done]].
      - intros a b Hab. apply bool_decide_eq_false in Hab. lia.
      - intros a b Ha Hb Hab. apply bool_decide_eq_true in Hab.
        apply bool_decide_eq_false.
        unfold consistent_on in Hcons. rewrite Forall_forall in Hcons.
        specialize (Hcons a Ha). rewrite Forall_forall in Hcons.
        destruct (Hcons b Hb) as [Hanti _]. lia.
      - intros a b c Ha Hb Hc Hab Hbc.
        apply bool_decide_eq_false in Hab, Hbc. apply bool_decide_eq_false.
        unfold consistent_on in Hcons. rewrite Forall_forall in Hcons.
        specialize (Hcons a Ha). rewrite Forall_forall in Hcons.
        destruct (Hcons b Hb) as [_ Htr]. rewrite Forall_forall in Htr.
        specialize (Htr c Hc). lia. }
    split; [done|].
    intros ar (a & b & -> & Hp & _)%missing_pairs_elem.
    exists a, b. split; [done|].
    by apply (StronglySorted_precedes (fun a b => (localeCompare a b <= 0)%Z) sorted).
Qed.

(** The completion of the Areas A, B, C and (A, B): the comparator of
    the example is consistent on the three identifiers, and the two
    appended pairs are in its order. *)
Lemma addMissingAreas_completes_witness :
  consistent_on codeUnitCompare (single_ids abc_areas) ∧
  ∃ added,
    addMissingAreas codeUnitCompare abc_areas = (abc_areas ++ added)%list ∧
    (∀ ar, ar ∈ added →
       ∃ a b, ar = mkArea [a; b] 0 None None ∧
              precedes a b (sorted_ids codeUnitCompare abc_areas) ∧
              ¬ explicit_pair abc_areas a b) ∧
    (∀ a b, a ∈ single_ids abc_areas → b ∈ single_ids abc_areas → a ≠ b →
       ¬ explicit_pair abc_areas a b →
       (precedes a b (sorted_ids codeUnitCompare abc_areas) ∧
        count_pair a b added = 1%nat ∧ count_pair b a added = 0%nat) ∨
       (precedes b a (sorted_ids codeUnitCompare abc_areas) ∧
        count_pair b a added = 1%nat ∧ count_pair a b added = 0%nat)) ∧
    (∀ a b, explicit_pair abc_areas a b →
       count_pair a b added = 0%nat ∧ count_pair b a added = 0%nat) ∧
    StronglySorted (fun a b => (codeUnitCompare a b <= 0)%Z)
      (sorted_ids codeUnitCompare abc_areas) ∧
    ∀ ar, ar ∈ added →
      ∃ a b, ar = mkArea [a; b] 0 None None ∧ (codeUnitCompare a b <= 0)%Z.
Proof.
  assert (consistent_on codeUnitCompare (single_ids abc_areas)) as Hcons.
  { apply (bool_decide_unpack _). vm_compute. exact I. }
  split; [exact Hcons|].
  destruct (addMissingAreas_completes codeUnitCompare abc_areas)
    as (added & H1 & H2 & H3 & H4 & H5).
  - apply (bool_decide_unpack _). vm_compute. exact I.
  - vm_compute. reflexivity.
  - exists added. destruct (H5 Hcons) as [H6 H7]. by split_and!.
Defined.

(** What the completion of [abc_areas] is. *)
Example addMissingAreas_abc :
  addMissingAreas codeUnitCompare abc_areas =
  (abc_areas ++ [mkArea ["A"; "C"] 0 None None; mkArea ["B"; "C"] 0 None None])%list.
Proof. vm_compute. reflexivity. Qed.

(** C2 (as stated) fails: with the single-set Area of A given twice, the
    pair (A, B), which has no explicit Area, gets two appended Areas (and
    the pair (A, A) gets one). *)
Lemma addMissingAreas_duplicate_ids :
  addMissingAreas codeUnitCompare dup_areas =
    (dup_areas ++ [ mkArea ["A"; "A"] 0 None None; mkArea ["A"; "B"] 0 None None;
                    mkArea ["A"; "B"] 0 None None ])%list ∧
  count_pair "A" "B" (missing_pairs (collect dup_areas).2
                        (sorted_ids codeUnitCompare dup_areas)) = 2%nat.
Proof. split; vm_compute; reflexivity. Qed.

Example addMissingAreas_comma_collision :
  count_pair "a,b" "c" (addMissingAreas codeUnitCompare comma_areas) = 0%nat ∧
  count_pair "c" "a,b" (addMissingAreas codeUnitCompare comma_areas) = 0%nat.
Proof. split; vm_compute; reflexivity. Qed.

(** ** Best-of selector *)

Lemma count_single_le areas : (count_single areas <= length areas)%nat.
Proof. unfold count_single. apply length_filter. Qed.

(** C1 (as amended).  The selector always runs the greedy layout.  It
    consults the constrained-MDS layout exactly when the Area list has
    8 or more entries, of whatever arity, and then returns the MDS
    result if the MDS loss plus 1e-8 is strictly less than the greedy
    loss and the greedy result otherwise; with fewer than 8 Areas the
    outcome is the outcome of the greedy layout.  In particular 8 or
    more single-set Areas suffice for the MDS layout to be consulted. *)
Theorem bestInitialLayout_threshold (greedyLayout constrainedMDSLayout : LayoutFunction)
    (lossFunction : CircleRecord -> list Area -> R)
    (areas : list Area) (params : Params) :
  ((length areas < 8)%nat →
     bestInitialLayout_of greedyLayout constrainedMDSLayout lossFunction areas params
     = greedyLayout areas params) ∧
  ((8 <= length areas)%nat →
     bestInitialLayout_of greedyLayout constrainedMDSLayout lossFunction areas params
     = (initial ← greedyLayout areas params;
        constrained ← constrainedMDSLayout areas params;
        if decide (lossFunction constrained areas + 1e-8 < lossFunction initial areas)
        then Ok constrained else Ok initial)) ∧
  ((8 <= count_single areas)%nat → (8 <= length areas)%nat).
Proof.
  unfold bestInitialLayout_of. split_and!.
  - intros Hlt. destruct (greedyLayout areas params) as [g|e]; simpl; [|done].
    rewrite decide_False by lia. done.
  - intros Hge. destruct (greedyLayout areas params) as [g|e]; simpl; [|done].
    rewrite decide_True by lia. done.
  - pose proof (count_single_le areas). lia.
Qed.

(** The same for the selector as [venn] uses it. *)
Corollary bestInitialLayout_below_threshold `{CircleIntersection} `{Fmin}
    (mathRandom : R) (areas : list Area) (params : Params) :
  (length areas < 8)%nat → bestInitialLayout mathRandom areas params = greedyLayout areas.
Proof.
  intros Hlt. unfold bestInitialLayout, bestInitialLayout_of.
  destruct (greedyLayout areas) as [g|e]; simpl; [|done].
  by rewrite decide_False by lia.
Qed.

(** C1 (as stated) fails: an input with only four single-set Areas, but
    ten Areas in all, makes the selector consult the MDS layout and
    return its result when it scores better. *)
Lemma bestInitialLayout_counts_all_areas :
  count_single four_sets_ten_areas = 4%nat ∧
  bestInitialLayout_of (fun _ _ => Ok greedy_outcome) (fun _ _ => Ok mds_outcome)
    sample_score four_sets_ten_areas (mkParams None None None None)
  = Ok mds_outcome ∧
  mds_outcome ≠ greedy_outcome.
Proof.
  split_and!.
  - vm_compute. reflexivity.
  - unfold bestInitialLayout_of. simpl.
    rewrite decide_True by lra. done.
  - done.
Qed.

(** ** Loss function *)

Lemma circleOverlap_disjoint r1 r2 d : r1 + r2 <= d → circleOverlap r1 r2 d = 0.
Proof. intros Hd. unfold circleOverlap. rewrite decide_True by lra. done. Qed.

Lemma circleOverlap_contained r1 r2 d :
  d < r1 + r2 → d <= Rabs (r1 - r2) →
  circleOverlap r1 r2 d = PI * Rmin r1 r2 * Rmin r1 r2.
Proof.
  intros H1 H2. unfold circleOverlap.
  rewrite decide_False by lra. rewrite decide_True by lra. done.
Qed.

Lemma distance_on_x_axis a b : a <= b → distance (a, 0) (b, 0) = b - a.
Proof.
  intros Hab. unfold distance. simpl.
  replace ((a - b) * (a - b) + (0 - 0) * (0 - 0)) with ((b - a) * (b - a)) by lra.
  apply sqrt_square. lra.
Qed.

(** C3 (failing input).  An Area whose weight is present and 0 counts
    with weight 1: [area.weight ? area.weight : 1.0] takes the weight 0
    for an absent one.  The two circles are disjoint and the target is
    1, so the loss is 1, where the weighted sum of the claim, with the
    weight 0 of the Area, is 0. *)
Lemma lossFunction_zero_weight :
  lossFunction (H := no_intersection) layout_far
    [mkArea ["A"; "B"] 1 (Some 0) None] = 1 ∧
  loss_sum (H := no_intersection) (default 1) layout_far
    [mkArea ["A"; "B"] 1 (Some 0) None] = 0.
Proof.
  assert (circleOverlap 1 1 (distance (0, 0) (5, 0)) = 0) as Hov.
  { rewrite distance_on_x_axis by lra. apply circleOverlap_disjoint. lra. }
  split.
  - unfold lossFunction, loss_step, achieved. cbn [foldl sets weight size].
    change (obj_get layout_far "A") with (Some (unit_circle "A" 0)).
    change (obj_get layout_far "B") with (Some (unit_circle "B" 5)).
    cbv beta iota. unfold center. cbn [unit_circle Circle.x Circle.y Circle.radius].
    rewrite Hov. unfold weight_or_default. rewrite decide_True by done. lra.
  - unfold loss_sum. rewrite filter_cons_True by (vm_compute; exact I).
    rewrite filter_nil, fmap_cons, fmap_nil. unfold overlap_of.
    cbn [Rsum foldr sets weight size default].
    change (obj_get layout_far "A") with (Some (unit_circle "A" 0)).
    change (obj_get layout_far "B") with (Some (unit_circle "B" 5)).
    cbv beta iota. unfold Datatypes.id. lra.
Qed.

(** ** Greedy layout *)

Example zero_size_completed :
  addMissingAreas codeUnitCompare zero_size_areas =
  (zero_size_areas ++ [mkArea ["A"; "B"] 0 None None])%list.
Proof. vm_compute. reflexivity. Qed.

(** C5 (failing input).  On the completed Area list of a set of size 5
    and a set of size 0, [greedyLayout] throws the error that the
    completion is meant to rule out: the zero-size Area of the pair is
    skipped because the size of B is falsy, so B has no neighbour at
    all when it is placed. *)
Theorem greedyLayout_throws_on_completed_input `{CircleIntersection} :
  greedyLayout (addMissingAreas codeUnitCompare zero_size_areas)
  = Throw missing_overlap.
Proof.
  rewrite zero_size_completed.
  unfold greedyLayout, zero_size_areas.
  set (cA := Circle.mk 1e10 1e10 (Some 0%nat) (Some 5) (sqrt (5 / PI)) None "A").
  set (cB := Circle.mk 1e10 1e10 (Some 1%nat) (Some 0) (sqrt (0 / PI)) None "B").
  change (foldl greedy_init_step ([], []) _) with
   ([("A", cA); ("B", cB)], [("A", @nil OverLap); ("B", @nil OverLap)]).
  cbv beta iota zeta.
  change (filter _ _) with [mkArea ["A"; "B"] 0 None None].
  assert (falsy (Some 5) = false) as H5.
  { apply bool_decide_eq_false_2. lra. }
  assert (falsy (Some 0) = true) as H0.
  { apply bool_decide_eq_true_2. lra. }
  assert (greedy_overlap_step [("A", cA); ("B", cB)] [("A", []); ("B", [])]
            (mkArea ["A"; "B"] 0 None None) = Ok [("A", []); ("B", [])]) as Hstep.
  { unfold greedy_overlap_step. cbn [sets].
    change (obj_get _ "A") with (Some cA). cbv beta iota.
    change (Circle.size cA) with (Some 5). rewrite H5.
    change (obj_get _ "B") with (Some cB). cbv beta iota.
    change (Circle.size cB) with (Some 0). rewrite H0. done. }
  cbn [foldl_result]. rewrite Hstep. cbn [mbind result_bind].
  assert (by_size_desc (snd : string * R → R) ("A", 0) ("B", 0) = false) as Hs.
  { apply bool_decide_eq_false_2. cbn. lra. }
  change ((λ kv : string * list OverLap, (kv.1, overlap_total kv.2)) <$> _)
    with [("A", 0); ("B", 0)].
  assert (js_sort (by_size_desc snd) [("A", 0); ("B", 0)] = [("A", 0); ("B", 0)]) as ->.
  { cbn [js_sort foldr js_insert]. by rewrite Hs. }
  cbn [head tail fmap option_fmap option_map default fst foldl_result].
  unfold greedy_place at 1. cbn [fst].
  rewrite decide_False by done.
  change (obj_get [("A", []); ("B", [])] "B") with (Some (@nil OverLap)).
  cbv beta iota. done.
Qed.

(** ** The top-level solution *)

Section VennSolutionFacts.
Context {M : Type -> Type} `{!MBind M, !MRet M}.
Variable raise : forall A, string -> M A.
Variable venn_stage : list Area -> Params -> M CircleRecord.
Variable normalize_stage :
  CircleRecord -> R -> jsopt (Circle -> Circle -> R) -> M CircleRecord.
Variable scale_stage : CircleRecord -> R -> R -> R -> M CircleRecord.
Variable computeTextCentres : CircleRecord -> list Area -> M (obj TextCentre).
Variable intersectionAreaPath : list (option Circle) -> M string.

Lemma safe_spec datum :
  safe datum = true ↔ size datum ≠ 0 ∧ sets datum ≠ [].
Proof.
  unfold safe. rewrite andb_true_iff, !bool_decide_eq_true.
  destruct (sets datum); simpl; split; intros [? ?]; split; try done; lia.
Qed.

Lemma filter_safe_idem data : List.filter safe (List.filter safe data) = List.filter safe data.
Proof.
  induction data as [|d data IH]; simpl; [done|].
  destruct (safe d) eqn:Hd; simpl; [|done]. rewrite Hd. by rewrite IH.
Qed.

(** C10.  [vennSolution] keeps exactly the Areas whose size is not 0
    and whose set list is not empty, in their order; every stage sees
    the kept Areas only (the solution of the input is the solution of
    the kept Areas); and when no Area is kept the result is the empty
    solution, returned without running any stage: the computation is
    the plain return of [{circles: [], intersections: []}] whatever the
    stages would do. *)
Theorem vennSolution_drops_unsafe_areas (data : list Area) (options : Options.t) :
  (∀ datum, datum ∈ List.filter safe data ↔
            datum ∈ data ∧ size datum ≠ 0 ∧ sets datum ≠ []) ∧
  vennSolution raise venn_stage normalize_stage scale_stage computeTextCentres
    intersectionAreaPath data options
  = vennSolution raise venn_stage normalize_stage scale_stage computeTextCentres
      intersectionAreaPath (List.filter safe data) options ∧
  (List.filter safe data = [] →
   vennSolution raise venn_stage normalize_stage scale_stage computeTextCentres
     intersectionAreaPath data options
   = mret (Output.mk [] [])).
Proof.
  split_and!.
  - intros datum. rewrite !list_elem_of_In, filter_In, safe_spec. done.
  - unfold vennSolution. by rewrite filter_safe_idem.
  - intros Hnil. unfold vennSolution. rewrite Hnil. done.
Qed.
End VennSolutionFacts.

(** An input of which nothing is kept. *)
Example vennSolution_nothing_kept :
  List.filter safe [mkArea ["A"] 0 None None; mkArea [] 3 None None] = [].
Proof.
  unfold safe. simpl.
  rewrite (bool_decide_eq_false_2 (0 ≠ 0)) by (intros Hne; by apply Hne).
  rewrite !andb_false_r. done.
Qed.

(** ** Determinism under a seed *)

Section Seeded.
Context `{CircleIntersection} `{Fmin}.

Lemma constrainedMDSLayout_seeded (r1 r2 : R) areas l rs mi s :
  constrainedMDSLayout r1 areas (mkParams l rs mi (Some s))
  = constrainedMDSLayout r2 areas (mkParams l rs mi (Some s)).
Proof. reflexivity. Qed.

Lemma bestInitialLayout_seeded (r1 r2 : R) areas l rs mi s :
  bestInitialLayout r1 areas (mkParams l rs mi (Some s))
  = bestInitialLayout r2 areas (mkParams l rs mi (Some s)).
Proof.
  unfold bestInitialLayout, bestInitialLayout_of.
  by rewrite (constrainedMDSLayout_seeded r1 r2).
Qed.

Lemma layoutFunctionMap_seeded (r1 r2 : R) layout areas l rs mi s :
  layoutFunctionMap r1 layout areas (mkParams l rs mi (Some s))
  = layoutFunctionMap r2 layout areas (mkParams l rs mi (Some s)).
Proof.
  destruct layout; simpl; [done| |].
  - apply constrainedMDSLayout_seeded.
  - apply bestInitialLayout_seeded.
Qed.

(** C9.  With an explicit seed the layout solve does not depend on
    [Math.random]: whatever numbers the random source would return in
    two runs ([r1], [r2]), [venn] and [constrainedMDSLayout] return the
    same outcome, circle for circle, on equal Areas and parameters. *)
Theorem venn_deterministic_under_seed (localeCompare : string -> string -> Z)
    (r1 r2 : R) (areas : list Area)
    (l : option Layout) (rs mi : option R) (s : R) :
  venn localeCompare r1 areas (Some (mkParams l rs mi (Some s)))
  = venn localeCompare r2 areas (Some (mkParams l rs mi (Some s))) ∧
  constrainedMDSLayout r1 areas (mkParams l rs mi (Some s))
  = constrainedMDSLayout r2 areas (mkParams l rs mi (Some s)).
Proof.
  split; [|apply constrainedMDSLayout_seeded].
  unfold venn. cbn [default layout restarts maxIterations seed].
  by rewrite (layoutFunctionMap_seeded r1 r2).
Qed.
End Seeded.

(** ** The store: what a stage leaves untouched *)

Lemma frame_refl n h : (n <= length h)%nat → frame n h h.
Proof. by split. Qed.

Lemma frame_trans n h1 h2 h3 : frame n h1 h2 → frame n h2 h3 → frame n h1 h3.
Proof.
  intros [? H12] [? H23]. split; [done|].
  intros l Hl. by rewrite H23, H12.
Qed.

Section Keeps.
Context (n : nat).

Lemma keeps_ret {A} (a : A) (pre : store -> Prop) post :
  (∀ h, pre h → post a h) → keeps n (mret a) pre post.
Proof.
  intros Hp h Hn Hpre. split; [by apply frame_refl|].
  intros a' [= <-]. by apply Hp.
Qed.

Lemma keeps_throw {A} e (pre : store -> Prop) (post : A -> store -> Prop) :
  keeps n (throw e) pre post.
Proof. intros h Hn Hpre. split; [by apply frame_refl|]. by intros a [=]. Qed.

Lemma keeps_bind {A B} (m : St A) (f : A -> St B) pre mid post :
  keeps n m pre mid → (∀ a, keeps n (f a) (mid a) post) →
  keeps n (m ≫= f) pre post.
Proof.
  intros Hm Hf h Hn Hpre. destruct (Hm h Hn Hpre) as [Hfr Hmid].
  unfold mbind, St_bind. destruct (m h) as [[a|e] h1] eqn:Hmh; simpl in *.
  - destruct Hfr as [Hn1 Hfr]. destruct (Hf a h1 Hn1) as [Hfr2 Hpost]; [by apply Hmid|].
    split; [|done]. eapply frame_trans; [|done]. by split.
  - split; [done|]. by intros b [=].
Qed.

Lemma keeps_conseq {A} (m : St A) (pre pre' : store -> Prop)
    (post post' : A -> store -> Prop) :
  keeps n m pre' post' → (∀ h, pre h → pre' h) →
  (∀ a h, post' a h → post a h) → keeps n m pre post.
Proof.
  intros Hm Hpre Hpost h Hn Hp. destruct (Hm h Hn (Hpre h Hp)) as [? Hq].
  split; [done|]. intros a Ha. by apply Hpost, Hq.
Qed.

Lemma keeps_load l (pre : store -> Prop) :
  keeps n (load l) pre (fun c h => pre h ∧ h !! l = Some c).
Proof.
  intros h Hn Hpre. unfold load. destruct (_ !! _) as [c|] eqn:Hl; simpl.
  - split; [by apply frame_refl|]. by intros a [= <-].
  - split; [by apply frame_refl|]. by intros a [=].
Qed.

Lemma keeps_update l f (pre : store -> Prop) (post : unit -> store -> Prop) :
  (n <= l)%nat →
  (∀ h c, pre h → h !! l = Some c → post () (<[l := f c]> h)) →
  keeps n (update l f) pre post.
Proof.
  intros Hl Hp h Hn Hpre. unfold update. destruct (_ !! _) as [c|] eqn:Hc; simpl.
  - split.
    + split; [by rewrite length_insert|].
      intros l' Hl'. apply list_lookup_insert_ne. lia.
    + intros [] _. by apply Hp.
  - split; [by apply frame_refl|]. by intros a [=].
Qed.

Lemma keeps_alloc c (pre : store -> Prop) (post : loc -> store -> Prop) :
  (∀ h, (n <= length h)%nat → pre h → post (length h) (h ++ [c])) →
  keeps n (alloc c) pre post.
Proof.
  intros Hp h Hn Hpre. unfold alloc. simpl. split.
  - split; [rewrite length_app; lia|].
    intros l Hl. apply lookup_app_l. lia.
  - intros a [= <-]. by apply Hp.
Qed.

Lemma keeps_for_each {A} (body : A -> St unit) (l : list A) (inv : store -> Prop) :
  (∀ a, a ∈ l → keeps n (body a) inv (fun _ => inv)) →
  keeps n (for_each body l) inv (fun _ => inv).
Proof.
  induction l as [|a l IH]; intros Hbody; simpl.
  - by apply keeps_ret.
  - eapply keeps_bind; [apply Hbody; by left|].
    intros []. apply IH. intros a' Ha'. apply Hbody. by right.
Qed.

Lemma keeps_fold_St {A B} (body : B -> A -> St B) (l : list A) (b : B)
    (inv : B -> store -> Prop) :
  (∀ b a, a ∈ l → keeps n (body b a) (inv b) inv) →
  keeps n (fold_St body b l) (inv b) inv.
Proof.
  revert b. induction l as [|a l IH]; intros b Hbody; simpl.
  - by apply keeps_ret.
  - eapply keeps_bind; [apply Hbody; by left|].
    intros b'. apply IH. intros b'' a' Ha'. apply Hbody. by right.
Qed.
End Keeps.

Section Frame.
Context (n : nat).

Lemma keeps_pure {A} (m : St A) (pre : store -> Prop) post (P : Prop) :
  (∀ h, pre h → P) → (P → keeps n m pre post) → keeps n m pre post.
Proof. intros HP Hm h Hn Hpre. apply Hm; eauto. Qed.

Lemma fresh_elem S l : fresh n S → l ∈ S → (n <= l)%nat.
Proof. intros HS Hl. by eapply Forall_forall in HS. Qed.

Lemma closed_set_parent S h l c0 r :
  closed S h → h !! l = Some c0 → (∀ p, r = Some p → p ∈ S) →
  closed S (<[l := Circle.set_parent c0 r]> h).
Proof.
  intros Hcl Hl Hr l' c p Hl' Hc Hp.
  destruct (decide (l' = l)) as [->|Hne].
  - rewrite list_lookup_insert_eq in Hc by (by eapply lookup_lt_Some).
    injection Hc as <-. simpl in Hp. by apply Hr.
  - rewrite list_lookup_insert_ne in Hc by done. by eapply Hcl.
Qed.

Lemma find_keeps S fuel circle :
  fresh n S →
  keeps n (find fuel circle)
    (fun h => closed S h ∧ ∀ l, circle = Some l → l ∈ S)
    (fun r h => closed S h ∧ ∀ l, r = Some l → l ∈ S).
Proof.
  intros HS. revert circle.
  induction fuel as [|fuel IH]; intros [l|]; simpl;
    try (apply keeps_ret; intros h [? _]; by split).
  - eapply keeps_bind; [apply keeps_load|]. intros c.
    case_decide as Hp; [|apply keeps_throw].
    apply keeps_ret. intros h [[Hcl Hin] _]. split; [done|].
    rewrite Hp. intros ? [= <-]. by apply Hin.
  - eapply keeps_bind; [apply keeps_load|]. intros c.
    case_decide as Hp.
    { apply keeps_ret. intros h [[Hcl Hin] _]. split; [done|].
      rewrite Hp. intros ? [= <-]. by apply Hin. }
    apply (keeps_pure _ _ _ (l ∈ S)); [intros h [[_ Hin] _]; by apply Hin|].
    intros HlS.
    eapply keeps_bind.
    { eapply keeps_conseq; [apply (IH (Circle.parent c))| |].
      - intros h [[Hcl _] Hl]. split; [done|]. intros p Hpc. by eapply Hcl.
      - intros r h Hpost. exact Hpost. }
    intros root. simpl.
    eapply keeps_bind.
    { apply (keeps_update n l _ _
               (fun _ h => closed S h ∧ ∀ p, root = Some p → p ∈ S)).
      - by eapply fresh_elem.
      - intros h c0 [Hcl Hr] Hc0. split; [|done].
        by apply closed_set_parent. }
    intros []. apply keeps_ret. done.
Qed.

Lemma union_keeps S fuel x y :
  fresh n S → x ∈ S → y ∈ S →
  keeps n (union fuel x y) (closed S) (fun _ => closed S).
Proof.
  intros HS Hx Hy. unfold union.
  eapply keeps_bind.
  { eapply keeps_conseq; [apply (find_keeps S fuel (Some x) HS)| |].
    - intros h Hcl. split; [done|]. by intros ? [= <-].
    - intros r h Hpost. exact Hpost. }
  intros xRoot. simpl.
  apply (keeps_pure _ _ _ (∀ l, xRoot = Some l → l ∈ S)); [by intros h [_ ?]|].
  intros HxR.
  eapply keeps_bind.
  { eapply keeps_conseq; [apply (find_keeps S fuel (Some y) HS)| |].
    - intros h [Hcl _]. split; [done|]. by intros ? [= <-].
    - intros r h Hpost. exact Hpost. }
  intros yRoot. simpl.
  destruct xRoot as [xr|]; [|apply keeps_ret; by intros h [? _]].
  apply keeps_update.
  - eapply fresh_elem; [done|]. by apply HxR.
  - intros h c0 [Hcl Hr] Hc0. by apply closed_set_parent.
Qed.

Lemma union_overlapping_keeps S fuel circles :
  fresh n S → circles ⊆ S →
  keeps n (union_overlapping fuel circles) (closed S) (fun _ => closed S).
Proof.
  intros HS. induction circles as [|l1 later IH]; intros Hsub; simpl.
  - by apply keeps_ret.
  - eapply keeps_bind.
    + apply keeps_for_each. intros l2 Hl2.
      eapply keeps_bind; [apply keeps_load|]. intros c1. simpl.
      eapply keeps_bind; [apply keeps_load|]. intros c2. simpl.
      case_decide.
      * eapply keeps_conseq; [apply (union_keeps S fuel l2 l1 HS)|..].
        -- apply Hsub. by right.
        -- apply Hsub. by left.
        -- by intros h [[? _] _].
        -- done.
      * apply keeps_ret. by intros h [[? _] _].
    + intros []. apply IH. intros l Hl. apply Hsub. by right.
Qed.
End Frame.

(** Entries of an object after an assignment. *)
Lemma obj_get_elem {V} (o : obj V) k v : obj_get o k = Some v → (k, v) ∈ o.
Proof.
  induction o as [|[k' v'] o IH]; simpl; [done|].
  case_decide as Hk; [intros [= ->]; subst; by left|].
  intros Hv. right. by apply IH.
Qed.

Lemma obj_add_elem {V} (o : obj V) k v kv : kv ∈ obj_add k v o → kv = (k, v) ∨ kv ∈ o.
Proof.
  induction o as [|[k' v'] o IH]; simpl.
  - intros ->%list_elem_of_singleton. by left.
  - destruct (array_index k), (array_index k'); try case_decide;
      rewrite ?elem_of_cons; intros Hin;
      repeat match goal with
             | H : _ ∨ _ |- _ => destruct H
             end; subst; auto;
      match goal with
      | H : _ ∈ obj_add _ _ _ |- _ => apply IH in H as [->|?]; auto
      end; right; by right.
Qed.

Lemma obj_update_elem {V} (o : obj V) k v kv :
  kv ∈ obj_update k v o → kv = (k, v) ∨ kv ∈ o.
Proof.
  induction o as [|[k' v'] o IH]; simpl; [by intros ?%elem_of_nil|].
  case_decide; rewrite !elem_of_cons; intros [?|Hin]; subst; auto.
  apply IH in Hin as [?|?]; auto.
Qed.

Lemma obj_set_elem {V} (o : obj V) k v kv : kv ∈ obj_set k v o → kv = (k, v) ∨ kv ∈ o.
Proof.
  unfold obj_set. destruct (obj_has o k).
  - apply obj_update_elem.
  - apply obj_add_elem.
Qed.

Section FrameStages.
Context (n : nat).

Lemma keeps_quiet {A} (m : St A) pre post :
  keeps n m pre post → keeps n m pre (fun _ _ => True).
Proof. intros Hm. eapply keeps_conseq; [exact Hm|done|done]. Qed.

Lemma keeps_updates (ls : list loc) (F : loc -> Circle -> Circle) (inv : store -> Prop) :
  fresh n ls →
  (∀ l h c, l ∈ ls → inv h → h !! l = Some c → inv (<[l := F l c]> h)) →
  keeps n (for_each (fun l => update l (F l)) ls) inv (fun _ => inv).
Proof.
  intros Hls Hinv. apply keeps_for_each. intros l Hl.
  apply keeps_update; [by eapply fresh_elem|].
  intros h c Hh Hc. by apply Hinv.
Qed.

Lemma load_all_keeps (ls : list loc) (inv : store -> Prop) :
  keeps n (load_all ls) inv (fun _ => inv).
Proof.
  unfold load_all.
  apply (keeps_fold_St n _ ls [] (fun _ => inv)).
  intros acc l _. eapply keeps_bind; [apply keeps_load|].
  intros c. apply keeps_ret. by intros h [? _].
Qed.

Lemma bounds_of_keeps (ls : list loc) (inv : store -> Prop) :
  keeps n (bounds_of ls) inv (fun _ => inv).
Proof.
  unfold bounds_of. eapply keeps_bind; [apply load_all_keeps|].
  intros cs. destruct (getBoundingBox cs); [by apply keeps_ret|apply keeps_throw].
Qed.

Lemma sort_circles_keeps after (circles : list loc) :
  fresh n circles →
  keeps n (sort_circles after circles) quiet (fun r _ => fresh n r).
Proof.
  intros Hf h Hn _. unfold sort_circles.
  destruct (mapM _ circles); simpl.
  - split; [by apply frame_refl|]. intros r [= <-].
    unfold fresh. by rewrite js_sort_perm.
  - split; [by apply frame_refl|]. by intros r [=].
Qed.

Lemma group_step_keeps S fuel (groups : obj (list loc)) l :
  fresh n S → l ∈ S →
  keeps n (group_step fuel groups l)
    (fun h => closed S h ∧ ∀ k ls, (k, ls) ∈ groups → ls ⊆ S)
    (fun groups' h => closed S h ∧ ∀ k ls, (k, ls) ∈ groups' → ls ⊆ S).
Proof.
  intros HS Hl. unfold group_step.
  apply (keeps_pure _ _ _ _ (∀ k ls, (k, ls) ∈ groups → ls ⊆ S)); [by intros h [_ ?]|].
  intros Hg.
  eapply keeps_bind.
  { eapply keeps_conseq; [apply (find_keeps n S fuel (Some l) HS)| |].
    - intros h [Hcl _]. split; [done|]. by intros ? [= <-].
    - intros r h Hpost. exact Hpost. }
  intros [pl|]; simpl; [|apply keeps_ret; by intros h [? _]].
  eapply keeps_bind; [apply keeps_load|]. intros pc. simpl.
  destruct (Circle.parent pc) as [ppl|]; [|apply keeps_ret; by intros h [[? _] _]].
  eapply keeps_bind; [apply keeps_load|]. intros ppc. simpl.
  case_decide; [apply keeps_ret; by intros h [[[? _] _] _]|].
  apply keeps_ret. intros h [[[Hcl _] _] _]. split; [done|].
  set (groups1 := if obj_has groups (Circle.setid ppc) then groups
                  else obj_set (Circle.setid ppc) [] groups).
  assert (∀ k ls, (k, ls) ∈ groups1 → ls ⊆ S) as Hg1.
  { intros k ls. unfold groups1. destruct (obj_has _ _); [apply Hg|].
    intros [[= -> ->]|Hin]%obj_set_elem; [by intros ? ?%elem_of_nil|by eapply Hg]. }
  intros k ls. unfold obj_push.
  destruct (obj_get groups1 (Circle.setid ppc)) as [old|] eqn:Hold; [|apply Hg1].
  intros [[= -> ->]|Hin]%obj_set_elem; [|by eapply Hg1].
  apply obj_get_elem in Hold. intros l' [Hl'|Hl']%elem_of_app.
  - by eapply Hg1.
  - apply list_elem_of_singleton in Hl' as ->. done.
Qed.

Lemma keeps_for_each_prefix {A} (body : A -> St unit) (l : list A)
    (inv : list A -> store -> Prop) :
  (∀ done a rest, l = (done ++ a :: rest)%list →
                  keeps n (body a) (inv done) (fun _ => inv (done ++ [a])%list)) →
  keeps n (for_each body l) (inv []) (fun _ => inv l).
Proof.
  intros Hbody.
  assert (∀ done rest, l = (done ++ rest)%list →
            keeps n (for_each body rest) (inv done) (fun _ => inv l)) as Hgen.
  { intros done rest. revert done. induction rest as [|a rest IH]; intros done Hl; simpl.
    - apply keeps_ret. intros h Hh. rewrite Hl, app_nil_r. done.
    - eapply keeps_bind; [by apply (Hbody done a rest)|].
      intros []. apply IH. rewrite Hl, <- app_assoc. done. }
  by apply (Hgen [] l).
Qed.

Lemma disjointCluster_keeps (circles : list loc) :
  fresh n circles →
  keeps n (disjointCluster circles) quiet
    (fun clusters _ => Forall (fresh n) clusters).
Proof.
  intros Hf. unfold disjointCluster.
  eapply keeps_bind.
  { eapply keeps_conseq.
    - apply (keeps_for_each_prefix _ circles
               (fun done h => ∀ l c, l ∈ done → h !! l = Some c →
                                     Circle.parent c = Some l)).
      intros done a rest Hl.
      apply keeps_update.
      + eapply fresh_elem; [done|]. rewrite Hl. set_solver.
      + intros h c Hinv Hc l c' Hin Hc'.
        destruct (decide (l = a)) as [->|Hne].
        * rewrite list_lookup_insert_eq in Hc' by (by eapply lookup_lt_Some).
          by injection Hc' as <-.
        * rewrite list_lookup_insert_ne in Hc' by done.
          apply (Hinv l c'); [|done]. set_solver.
    - intros h _ l c Hin. by apply elem_of_nil in Hin.
    - intros u h Hinv. exact Hinv. }
  intros []. simpl.
  eapply keeps_bind.
  { eapply keeps_conseq;
      [apply (union_overlapping_keeps n circles (length circles) circles Hf); done| |].
    - intros h Hinv l c p Hl Hc Hp. rewrite (Hinv l c Hl Hc) in Hp.
      by injection Hp as <-.
    - intros u h Hcl. exact Hcl. }
  intros []. simpl.
  eapply keeps_bind.
  { eapply keeps_conseq.
    - apply (keeps_fold_St n _ circles []
               (fun groups h => closed circles h ∧
                                ∀ k ls, (k, ls) ∈ groups → ls ⊆ circles)).
      intros groups l Hl. by apply group_step_keeps.
    - intros h Hcl. split; [done|]. by intros k ls Hin%elem_of_nil.
    - intros groups h Hpost. exact Hpost. }
  intros groups. simpl.
  apply (keeps_pure _ _ _ _ (∀ k ls, (k, ls) ∈ groups → ls ⊆ circles));
    [by intros h [_ ?]|].
  intros Hg.
  eapply keeps_bind.
  { eapply keeps_conseq;
      [apply (keeps_updates circles (fun _ c => Circle.set_parent c None) quiet);
       done|done|].
    intros u h Hq. exact Hq. }
  intros []. apply keeps_ret. intros h _.
  apply Forall_forall. intros ls Hls.
  apply list_elem_of_fmap in Hls as [[k ls'] [-> Hin]]. simpl.
  apply Forall_forall. intros l Hl.
  eapply fresh_elem; [done|]. by eapply Hg.
Qed.
Lemma keeps_pre_quiet {A} (m : St A) (pre : store -> Prop) post :
  keeps n m quiet post → keeps n m pre post.
Proof. intros Hm. eapply keeps_conseq; [exact Hm|done|done]. Qed.

(** A pure fact of the precondition is taken out and the rest of the
    precondition is dropped. *)
Lemma keeps_from {A} (m : St A) (pre : store -> Prop) post (P : Prop) :
  (∀ h, pre h → P) → (P → keeps n m quiet post) → keeps n m pre post.
Proof.
  intros HP Hm. apply (keeps_pure _ _ _ _ P HP). intros p.
  by apply keeps_pre_quiet, Hm.
Qed.

Lemma keeps_updates_quiet (ls : list loc) (F : Circle -> Circle) :
  fresh n ls → keeps n (for_each (fun l => update l F) ls) quiet (fun _ => quiet).
Proof. intros Hf. by apply (keeps_updates ls (fun _ => F) quiet). Qed.

Lemma keeps_load_quiet l (k : Circle -> St unit) :
  (∀ c, keeps n (k c) quiet (fun _ => quiet)) →
  keeps n (load l ≫= k) quiet (fun _ => quiet).
Proof.
  intros Hk. eapply keeps_bind; [apply keeps_load|].
  intros c. by apply keeps_pre_quiet.
Qed.

Lemma orientateCircles_keeps (circles : list loc) orientation orientationOrder :
  fresh n circles →
  keeps n (orientateCircles circles orientation orientationOrder) quiet
    (fun r _ => fresh n r).
Proof.
  intros Hf. unfold orientateCircles.
  eapply keeps_bind; [by apply sort_circles_keeps|].
  intros sorted. simpl.
  apply (keeps_from _ _ _ (fresh n sorted)); [done|]. intros Hs.
  assert (∀ l, l ∈ sorted → (n <= l)%nat) as Hin by (intros l; by apply fresh_elem).
  eapply (keeps_bind _ _ _ _ (fun _ => quiet)).
  { destruct sorted as [|first rest]; [by apply keeps_ret|].
    apply keeps_load_quiet. intros largest. by apply keeps_updates_quiet. }
  intros _.
  eapply (keeps_bind _ _ _ _ (fun _ => quiet)).
  { destruct sorted as [|l1 [|l2 [|l3 rest]]]; try by apply keeps_ret.
    apply keeps_load_quiet. intros c1. apply keeps_load_quiet. intros c2.
    case_decide; [|by apply keeps_ret].
    apply keeps_update; [|done]. apply Hin. set_solver. }
  intros _.
  eapply (keeps_bind _ _ _ _ (fun _ => quiet)).
  { destruct sorted as [|l1 [|l2 rest]]; try by apply keeps_ret.
    apply keeps_load_quiet. intros c1. by apply keeps_updates_quiet. }
  intros _.
  eapply (keeps_bind _ _ _ _ (fun _ => quiet)).
  { destruct sorted as [|l1 [|l2 [|l3 rest]]]; try by apply keeps_ret.
    apply keeps_load_quiet. intros c2.
    case_decide; [|by apply keeps_ret].
    apply keeps_load_quiet. intros c1. by apply keeps_updates_quiet. }
  intros _. by apply keeps_ret.
Qed.

Lemma addCluster_keeps returnBounds spacing cluster right_ bottom circles :
  fresh n circles → (∀ c, cluster = Some c → fresh n (members c)) →
  keeps n (addCluster returnBounds spacing cluster right_ bottom circles) quiet
    (fun r _ => fresh n r).
Proof.
  intros Hf Hc. unfold addCluster.
  destruct cluster as [cluster|]; [|by apply keeps_ret].
  case_decide; [by apply keeps_ret|].
  specialize (Hc cluster eq_refl).
  eapply keeps_conseq;
    [apply (keeps_fold_St n _ (members cluster) circles (fun r _ => fresh n r))|
     intros h _; exact Hf|intros r h Hr; exact Hr].
  intros acc l Hl.
  eapply (keeps_bind _ _ _ _ (fun _ _ => fresh n acc)).
  { apply keeps_update; [by eapply fresh_elem|].
    intros h c Hacc _. exact Hacc. }
  intros u. apply keeps_ret. intros h Hacc.
  apply Forall_app. split; [done|]. apply Forall_singleton.
  exact (fresh_elem n _ l Hc Hl).
Qed.

Lemma pack_clusters_keeps spacing rest returnBounds circles :
  fresh n circles → Forall (fun c => fresh n (members c)) rest →
  keeps n (pack_clusters spacing rest returnBounds circles) quiet
    (fun r _ => fresh n r).
Proof.
  revert returnBounds circles.
  induction rest as [rest IH] using (induction_ltof1 _ (@length Cluster)).
  unfold ltof in IH. intros returnBounds circles Hf Hrest.
  destruct rest as [|c1 rest1]; cbn [pack_clusters]; [by apply keeps_ret|].
  apply Forall_cons in Hrest as [Hc1 Hrest1].
  assert (∀ c, head rest1 = Some c → fresh n (members c)) as H2.
  { intros c Hc. destruct rest1; [done|]. injection Hc as ->.
    by apply Forall_cons in Hrest1 as [? _]. }
  assert (∀ c, head (tail rest1) = Some c → fresh n (members c)) as H3.
  { intros c Hc. destruct rest1 as [|? [|? ?]]; try done. injection Hc as ->.
    apply Forall_cons in Hrest1 as [_ Hr]. by apply Forall_cons in Hr as [? _]. }
  eapply keeps_bind.
  { apply addCluster_keeps; [done|]. by intros c [= <-]. }
  intros circles1. simpl.
  apply (keeps_from _ _ _ (fresh n circles1)); [done|]. intros Hf1.
  eapply keeps_bind; [by apply (addCluster_keeps _ _ (head rest1))|].
  intros circles2. simpl.
  apply (keeps_from _ _ _ (fresh n circles2)); [done|]. intros Hf2.
  eapply keeps_bind; [by apply (addCluster_keeps _ _ (head (tail rest1)))|].
  intros circles3. simpl.
  apply (keeps_from _ _ _ (fresh n circles3)); [done|]. intros Hf3.
  eapply keeps_bind; [apply (bounds_of_keeps _ quiet)|].
  intros returnBounds'. simpl.
  destruct rest1 as [|c2 [|c3 rest3]]; try by apply keeps_ret.
  apply IH; [simpl; lia|done|].
  apply Forall_cons in Hrest1 as [_ Hr]. by apply Forall_cons in Hr as [_ ?].
Qed.

Lemma normalizeSolution_keeps solution orientation orientationOrder :
  keeps n (normalizeSolution solution orientation orientationOrder) quiet
    (fun _ => quiet).
Proof.
  unfold normalizeSolution.
  eapply keeps_bind.
  { eapply keeps_conseq;
      [apply (keeps_fold_St n _ solution [] (fun circles _ => fresh n circles))|
       intros h _; exact (Forall_nil_2 _)|intros r h Hr; exact Hr].
    intros circles kl _.
    apply (keeps_from _ _ _ (fresh n circles)); [done|]. intros Hf.
    eapply keeps_bind; [apply keeps_load|]. intros previous. simpl.
    eapply keeps_bind.
    { apply (keeps_alloc n _ _ (fun l _ => (n <= l)%nat)). by intros h Hn _. }
    intros l. apply keeps_ret. intros h Hl.
    apply Forall_app. split; [done|]. by apply Forall_singleton. }
  intros circles. simpl.
  apply (keeps_from _ _ _ (fresh n circles)); [done|]. intros Hf.
  eapply keeps_bind; [by apply disjointCluster_keeps|].
  intros clusters. simpl.
  apply (keeps_from _ _ _ (Forall (fresh n) clusters)); [done|]. intros Hcl.
  eapply keeps_bind.
  { eapply keeps_conseq;
      [apply (keeps_fold_St n _ clusters []
                (fun acc _ => Forall (fun c => fresh n (members c)) acc))|
       intros h _; exact (Forall_nil_2 _)|intros r h Hr; exact Hr].
    intros acc cluster Hin.
    apply (keeps_from _ _ _ (Forall (fun c => fresh n (members c)) acc)); [done|].
    intros Hacc.
    eapply keeps_bind.
    { apply (orientateCircles_keeps cluster). by eapply Forall_forall in Hcl. }
    intros sorted. simpl.
    apply (keeps_from _ _ _ (fresh n sorted)); [done|]. intros Hs.
    eapply keeps_bind; [apply (bounds_of_keeps _ quiet)|].
    intros bounds. apply keeps_ret. intros h _.
    apply Forall_app. split; [done|]. by apply Forall_singleton. }
  intros sized. simpl.
  apply (keeps_from _ _ _ (Forall (fun c => fresh n (members c)) sized)); [done|].
  intros Hsized.
  assert (Forall (fun c => fresh n (members c)) (js_sort cluster_after sized)) as Hsorted
    by by rewrite js_sort_perm.
  destruct (js_sort cluster_after sized) as [|largestCluster rest]; [apply keeps_throw|].
  apply Forall_cons in Hsorted as [_ Hrest].
  eapply keeps_bind; [by apply pack_clusters_keeps|].
  intros packed. simpl. apply keeps_pre_quiet.
  eapply keeps_conseq;
    [apply (keeps_fold_St n _ packed [] (fun _ => quiet))|done|done].
  intros ret l _.
  eapply keeps_bind; [apply keeps_load|]. intros circle. by apply keeps_ret.
Qed.

Lemma scaleSolution_keeps solution width height padding :
  keeps n (scaleSolution solution width height padding) quiet (fun _ => quiet).
Proof.
  unfold scaleSolution.
  eapply keeps_bind; [apply (load_all_keeps _ quiet)|].
  intros circles. simpl.
  destruct (getBoundingBox circles) as [bounds|]; [|by apply keeps_ret].
  case_decide; [by apply keeps_ret|].
  eapply keeps_conseq;
    [apply (keeps_fold_St n _ (zip (obj_keys solution) circles) [] (fun _ => quiet))|
     done|done].
  intros scaled [id circle] _. unfold scale_step.
  case_decide; [by apply keeps_ret|].
  eapply keeps_bind.
  { apply (keeps_alloc n _ _ (fun _ => quiet)). done. }
  intros l. by apply keeps_ret.
Qed.
End FrameStages.

(** C8.  [normalizeSolution] and [scaleSolution] do not mutate the
    circles they are given: every circle object that exists when the
    stage is called (the circles of the caller's record among them) has
    the same fields in the store the stage leaves behind, whether the
    stage returns or throws.  All writes go to objects created by the
    stage itself. *)
Theorem stages_keep_input_circles (h : store) (solution : obj loc)
    (orientation : jsopt R) (orientationOrder : jsopt (Circle -> Circle -> R))
    (width height padding : R) :
  (∀ l c, h !! l = Some c →
          (normalizeSolution solution orientation orientationOrder h).2 !! l = Some c) ∧
  (∀ l c, h !! l = Some c →
          (scaleSolution solution width height padding h).2 !! l = Some c).
Proof.
  split; intros l c Hl.
  - destruct (normalizeSolution_keeps (length h) solution orientation
                orientationOrder h) as [[_ Hfr] _]; [done|done|].
    rewrite Hfr; [done|]. by eapply lookup_lt_Some.
  - destruct (scaleSolution_keeps (length h) solution width height padding h)
      as [[_ Hfr] _]; [done|done|].
    rewrite Hfr; [done|]. by eapply lookup_lt_Some.
Qed.

(** A run of [normalizeSolution] on a record of one circle: the result
    refers to the copy, which sits at the origin, and the input circle
    is where it was. *)
Example normalizeSolution_single :
  normalizeSolution [("A", 0%nat)] (Val (PI / 2)) Undefined
    [Circle.mk 3 4 None None 1 None "A"]
  = (Ok [("A", 1%nat)],
     [Circle.mk 3 4 None None 1 None "A";
      Circle.mk (3 - 3) (4 - 4) None None 1 None "A"]).
Proof. reflexivity. Qed.

(** ** Scaling *)

Lemma fold_St_cons {A B} (body : B -> A -> St B) b a l h :
  fold_St body b (a :: l) h
  = match body b a h with
    | (Ok b', h') => fold_St body b' l h'
    | (Throw e, h') => (Throw e, h')
    end.
Proof. reflexivity. Qed.

Lemma scale_step_run b padding xOffset yOffset scaling acc id c h :
  scale_step b padding xOffset yOffset scaling acc (id, c) h
  = if decide (id = "") then (Ok acc, h)
    else (Ok (obj_set id (length h) acc),
          (h ++ [scaled_copy b padding xOffset yOffset scaling c])%list).
Proof. unfold scale_step. simpl. by case_decide. Qed.

Lemma scale_fold b padding xOffset yOffset scaling pairs acc h :
  fold_St (scale_step b padding xOffset yOffset scaling) acc pairs h
  = (Ok (record_from (length h) acc (fst <$> filter (fun ic => ic.1 ≠ "") pairs)),
     (h ++ (scaled_copy b padding xOffset yOffset scaling ∘ snd
            <$> filter (fun ic => ic.1 ≠ "") pairs))%list).
Proof.
  revert acc h. induction pairs as [|[id c] pairs IH]; intros acc h.
  - simpl. by rewrite app_nil_r.
  - rewrite fold_St_cons, scale_step_run, filter_cons. cbn [fst].
    destruct (decide (id = "")) as [->|Hid].
    + rewrite decide_False by (intros Hne; by apply Hne). apply IH.
    + rewrite decide_True by done. rewrite IH.
      rewrite length_app. simpl. f_equal.
      * unfold record_from. simpl. rewrite Nat.add_0_r. do 2 f_equal.
        apply imap_ext. intros j x _. simpl. f_equal. lia.
      * by rewrite <- app_assoc.
Qed.

Lemma max_of_ge a l : a <= max_of a l ∧ ∀ v, v ∈ l → v <= max_of a l.
Proof.
  unfold max_of. revert a. induction l as [|b l IH]; intros a; simpl.
  - split; [lra|]. intros v Hv. by apply elem_of_nil in Hv.
  - destruct (IH (Rmax a b)) as [H1 H2].
    pose proof (Rmax_l a b). pose proof (Rmax_r a b).
    split; [lra|]. intros v [->|Hv]%elem_of_cons; [lra|auto].
Qed.

Lemma min_of_le a l : min_of a l <= a ∧ ∀ v, v ∈ l → min_of a l <= v.
Proof.
  unfold min_of. revert a. induction l as [|b l IH]; intros a; simpl.
  - split; [lra|]. intros v Hv. by apply elem_of_nil in Hv.
  - destruct (IH (Rmin a b)) as [H1 H2].
    pose proof (Rmin_l a b). pose proof (Rmin_r a b).
    split; [lra|]. intros v [->|Hv]%elem_of_cons; [lra|auto].
Qed.

Lemma max_of_attained a l : max_of a l ∈ a :: l.
Proof.
  unfold max_of. revert a. induction l as [|b l IH]; intros a; simpl.
  - apply list_elem_of_here.
  - destruct (proj1 (elem_of_cons _ _ _) (IH (Rmax a b))) as [Heq|Hin].
    + rewrite Heq. unfold Rmax. destruct (Rle_dec a b).
      * apply list_elem_of_further, list_elem_of_here.
      * apply list_elem_of_here.
    + by do 2 apply list_elem_of_further.
Qed.

Lemma min_of_attained a l : min_of a l ∈ a :: l.
Proof.
  unfold min_of. revert a. induction l as [|b l IH]; intros a; simpl.
  - apply list_elem_of_here.
  - destruct (proj1 (elem_of_cons _ _ _) (IH (Rmin a b))) as [Heq|Hin].
    + rewrite Heq. unfold Rmin. destruct (Rle_dec a b).
      * apply list_elem_of_here.
      * apply list_elem_of_further, list_elem_of_here.
    + by do 2 apply list_elem_of_further.
Qed.

Lemma max_of_fmap {A} (f : A → R) c cs :
  (∀ d, d ∈ c :: cs → f d <= max_of (f c) (f <$> cs)) ∧
  ∃ d, d ∈ c :: cs ∧ f d = max_of (f c) (f <$> cs).
Proof.
  destruct (max_of_ge (f c) (f <$> cs)) as [H1 H2]. split.
  - intros d [->|Hd]%elem_of_cons; [done|]. apply H2. by apply list_elem_of_fmap_2.
  - pose proof (max_of_attained (f c) (f <$> cs)) as Hin.
    change (f c :: (f <$> cs)) with (f <$> (c :: cs)) in Hin.
    apply list_elem_of_fmap in Hin as (d & Heq & Hd). eauto.
Qed.

Lemma min_of_fmap {A} (f : A → R) c cs :
  (∀ d, d ∈ c :: cs → min_of (f c) (f <$> cs) <= f d) ∧
  ∃ d, d ∈ c :: cs ∧ f d = min_of (f c) (f <$> cs).
Proof.
  destruct (min_of_le (f c) (f <$> cs)) as [H1 H2]. split.
  - intros d [->|Hd]%elem_of_cons; [done|]. apply H2. by apply list_elem_of_fmap_2.
  - pose proof (min_of_attained (f c) (f <$> cs)) as Hin.
    change (f c :: (f <$> cs)) with (f <$> (c :: cs)) in Hin.
    apply list_elem_of_fmap in Hin as (d & Heq & Hd). eauto.
Qed.

(** Shared form: the box of a list that is not empty encloses every circle. *)
Lemma getBoundingBox_bounds circles b c :
  getBoundingBox circles = Some b → c ∈ circles →
  xmin b <= Circle.x c - Circle.radius c ∧ Circle.x c + Circle.radius c <= xmax b ∧
  ymin b <= Circle.y c - Circle.radius c ∧ Circle.y c + Circle.radius c <= ymax b.
Proof.
  destruct circles as [|c0 cs]; [done|]. intros [= <-] Hc. simpl.
  split_and!.
  - by apply (min_of_fmap (fun c => Circle.x c - Circle.radius c)).
  - by apply (max_of_fmap (fun c => Circle.x c + Circle.radius c)).
  - by apply (min_of_fmap (fun c => Circle.y c - Circle.radius c)).
  - by apply (max_of_fmap (fun c => Circle.y c + Circle.radius c)).
Qed.

Lemma load_all_fold_length (ls : list loc) : ∀ (acc : list Circle) (h : store) cs h',
  fold_St (fun acc l => c ← load l; mret (acc ++ [c])%list) acc ls h = (Ok cs, h') →
  length cs = (length acc + length ls)%nat.
Proof.
  induction ls as [|l ls IH]; intros acc h cs h'.
  - simpl. intros [= <- _]. lia.
  - rewrite fold_St_cons. unfold mbind at 1, St_bind at 1, load at 1.
    destruct (h !! l) as [c|]; [|done].
    unfold mret at 1, St_ret at 1. cbv beta iota.
    intros Hrun. apply IH in Hrun. rewrite length_app in Hrun. simpl in *. lia.
Qed.

Lemma load_all_length (ls : list loc) (h : store) cs h' :
  load_all ls h = (Ok cs, h') → length cs = length ls.
Proof. intros Hrun. by apply load_all_fold_length in Hrun. Qed.

Lemma filter_all {A} (P : A -> Prop) `{!∀ x, Decision (P x)} (l : list A) :
  Forall P l → filter P l = l.
Proof.
  induction 1 as [|x l Hx Hl IH]; [done|].
  rewrite filter_cons_True by done. by rewrite IH.
Qed.

Lemma named_all (solution : obj loc) (cs : list Circle) :
  Forall (fun k => k ≠ "" ∧ own_name k) (obj_keys solution) →
  length cs = length solution →
  fst <$> named solution cs = obj_keys solution ∧ snd <$> named solution cs = cs.
Proof.
  intros Hk Hlen. unfold named.
  assert (filter (fun ic : string * Circle => ic.1 ≠ "") (zip (obj_keys solution) cs)
          = zip (obj_keys solution) cs) as ->.
  { apply filter_all, Forall_forall. intros [k c] Hin. simpl.
    apply elem_of_zip_l in Hin. eapply Forall_forall in Hk; [|done]. tauto. }
  split.
  - apply fst_zip. unfold obj_keys. rewrite length_fmap. lia.
  - apply snd_zip. unfold obj_keys. rewrite length_fmap. lia.
Qed.

(** The box of circles with radii that are not negative has no width, or
    no height, only when every radius is 0. *)
Lemma degenerate_radii cs b :
  getBoundingBox cs = Some b → Forall (fun c => 0 <= Circle.radius c) cs →
  degenerate b → Forall (fun c => Circle.radius c = 0) cs.
Proof.
  intros Hb Hr Hd. apply Forall_forall. intros c Hc.
  destruct (getBoundingBox_bounds cs b c Hb Hc) as (H1 & H2 & H3 & H4).
  eapply Forall_forall in Hr; [|exact Hc]. simpl in Hr.
  destruct Hd as [Hd|Hd]; lra.
Qed.

Lemma kept_radius_box cs b :
  getBoundingBox cs = Some b → Exists kept_radius cs → ¬ degenerate b.
Proof.
  intros Hb (c & Hc & Hr & _)%Exists_exists.
  destruct (getBoundingBox_bounds cs b c Hb Hc) as (H1 & H2 & H3 & H4).
  intros [Hd|Hd]; lra.
Qed.

(** C7 (as amended).  Let the circles of the solution have radii that
    are not negative and the bounding box [b], and let no identifier be
    empty or a name inherited from [Object.prototype].  If the box has
    no width or no height, every radius is 0 and [scaleSolution] returns
    its input record and leaves the store as it is.  If some circle has
    a radius that is positive, and not lost against its coordinates in
    double arithmetic, the box has a width and a height and
    [scaleSolution] returns a record of new circles, one for every
    entry, each the input circle with one uniform factor applied to its
    radius and to both coordinates: the smaller of the two per-axis
    ratios of the viewport minus padding to the extent of the box. *)
Theorem scaleSolution_fits (solution : obj loc) (width height padding : R)
    (h : store) (cs : list Circle) (b : Bounds) :
  load_all (obj_values solution) h = (Ok cs, h) →
  getBoundingBox cs = Some b →
  Forall (fun c => 0 <= Circle.radius c) cs →
  Forall (fun k => k ≠ "" ∧ own_name k) (obj_keys solution) →
  (degenerate b →
   Forall (fun c => Circle.radius c = 0) cs ∧
   scaleSolution solution width height padding h = (Ok solution, h)) ∧
  (Exists kept_radius cs →
   ¬ degenerate b ∧
   scaleSolution solution width height padding h
   = (Ok (record_from (length h) [] (obj_keys solution)),
      (h ++ (fit b width height padding <$> cs))%list)).
Proof.
  intros Hload Hb Hr Hk.
  assert (length cs = length solution) as Hlen.
  { apply load_all_length in Hload. unfold obj_values in Hload.
    by rewrite length_fmap in Hload. }
  destruct (named_all solution cs Hk Hlen) as [Hfst Hsnd].
  split.
  - intros Hd. split; [by eapply degenerate_radii|].
    unfold scaleSolution, mbind, St_bind. rewrite Hload, Hb.
    by rewrite decide_True.
  - intros Hkept. pose proof (kept_radius_box cs b Hb Hkept) as Hd.
    split; [done|].
    unfold scaleSolution, mbind, St_bind. rewrite Hload, Hb.
    rewrite decide_False by done. rewrite scale_fold.
    fold (named solution cs). rewrite Hfst. f_equal. f_equal.
    rewrite <- Hsnd at 2. by rewrite <- list_fmap_compose.
Qed.

Lemma two_bounds_values :
  xmax two_bounds = 4 ∧ xmin two_bounds = -1 ∧
  ymax two_bounds = 1 ∧ ymin two_bounds = -1.
Proof.
  unfold two_bounds, max_of, min_of. simpl.
  rewrite Rmax_right by lra. rewrite Rmin_left by lra.
  rewrite Rmax_left by lra. rewrite (Rmin_left (0 - 1)) by lra.
  split_and!; lra.
Qed.

Lemma two_bounds_not_degenerate : ¬ degenerate two_bounds.
Proof.
  destruct two_bounds_values as (Hx & Hx' & Hy & Hy').
  unfold degenerate. rewrite Hx, Hx', Hy, Hy'. lra.
Qed.

Lemma own_name_A_B : Forall (fun k => k ≠ "" ∧ own_name k) ["A"; "B"].
Proof. apply (bool_decide_unpack _). vm_compute. exact I. Qed.

Lemma unit_circle_kept id x : Rabs x <= 2 ^ 52 → kept_radius (unit_circle id x).
Proof.
  intros Hx. unfold kept_radius. simpl. rewrite Rabs_R0.
  assert (0 < 2 ^ 52) by (apply pow_lt; lra). split_and!; lra.
Qed.

(** A point and two unit circles: the point is returned as it is, the
    two circles are scaled. *)
Lemma scaleSolution_fits_witness :
  scaleSolution [("A", 0%nat)] 500 500 10 [Circle.mk 3 4 None None 0 None "A"]
  = (Ok [("A", 0%nat)], [Circle.mk 3 4 None None 0 None "A"]) ∧
  scaleSolution [("A", 0%nat); ("B", 1%nat)] 500 500 10 (two_circles "A" "B")
  = (Ok (record_from (length (two_circles "A" "B")) [] ["A"; "B"]),
     (two_circles "A" "B" ++ (fit two_bounds 500 500 10 <$> two_circles "A" "B"))%list).
Proof.
  split.
  - destruct (scaleSolution_fits [("A", 0%nat)] 500 500 10
                [Circle.mk 3 4 None None 0 None "A"]
                [Circle.mk 3 4 None None 0 None "A"]
                (mkBounds (3 + 0) (3 - 0) (4 + 0) (4 - 0))) as [Hnoop _].
    + reflexivity.
    + reflexivity.
    + constructor; [simpl; lra|constructor].
    + apply (bool_decide_unpack _). vm_compute. exact I.
    + apply Hnoop. left. simpl. lra.
  - destruct (scaleSolution_fits [("A", 0%nat); ("B", 1%nat)] 500 500 10
                (two_circles "A" "B") (two_circles "A" "B") two_bounds) as [_ Hscaled].
    + reflexivity.
    + reflexivity.
    + constructor; [simpl; lra|]. constructor; [simpl; lra|constructor].
    + apply own_name_A_B.
    + apply Hscaled. apply Exists_cons_hd. apply unit_circle_kept. rewrite Rabs_R0.
      apply pow_le. lra.
Defined.

(** What the scaled record of the two circles is. *)
Example scaleSolution_two_circles :
  (scaleSolution [("A", 0%nat); ("B", 1%nat)] 500 500 10 (two_circles "A" "B")).1
  = Ok [("A", 2%nat); ("B", 3%nat)].
Proof.
  unfold scaleSolution, mbind, St_bind.
  change (load_all _ _) with (Ok (two_circles "A" "B"), two_circles "A" "B").
  cbv beta iota zeta.
  change (getBoundingBox _) with (Some two_bounds). cbv beta iota.
  rewrite decide_False by apply two_bounds_not_degenerate.
  rewrite scale_fold. reflexivity.
Qed.

(** C7 (as stated) fails: a single circle is not a no-op.  The box of
    a circle holds its radius, so the unit circle at the origin has a
    box of width and height 2, and in a viewport of 500 by 500 with
    padding 10 it comes back as a new circle of radius 240 centred at
    (250, 250). *)
Lemma scaleSolution_single_circle :
  scaleSolution [("A", 0%nat)] 500 500 10 [unit_circle "A" 0]
  = (Ok [("A", 1%nat)],
     [unit_circle "A" 0; Circle.mk 250 250 None (Some PI) 240 None "A"]).
Proof.
  unfold scaleSolution, mbind, St_bind.
  change (load_all _ _) with (Ok [unit_circle "A" 0], [unit_circle "A" 0]).
  cbv beta iota zeta. unfold getBoundingBox, max_of, min_of.
  cbn [fmap list_fmap foldl unit_circle Circle.x Circle.y Circle.radius
       xmax xmin ymax ymin].
  rewrite decide_False by lra.
  rewrite scale_fold. cbn [filter]. unfold record_from. simpl.
  f_equal. f_equal. unfold scaled_copy, unit_circle. simpl.
  rewrite Rmin_left by lra. do 2 f_equal; lra.
Qed.

(** ** Orientation of a cluster *)

Lemma js_sort_no_order {A} (l : list A) : js_sort (fun _ _ => false) l = l.
Proof. induction l as [|a l IH]; simpl; [done|]. rewrite IH. by destruct l. Qed.

Lemma js_sort_ext {A} (f g : A -> A -> bool) (l : list A) :
  (∀ a b, f a b = g a b) → js_sort f l = js_sort g l.
Proof.
  intros Hfg. induction l as [|a l IH]; simpl; [done|]. rewrite IH.
  generalize (js_sort g l). intros s. induction s as [|b s IHs]; simpl; [done|].
  by rewrite Hfg, IHs.
Qed.

Lemma St_then_value {A B} (m : St A) (k : A -> St B) (v : B) :
  (∀ a h r h', k a h = (Ok r, h') → r = v) →
  ∀ h r h', (m ≫= k) h = (Ok r, h') → r = v.
Proof.
  intros Hk h r h'. unfold mbind, St_bind.
  destruct (m h) as [[a|e] h1]; [apply Hk|done].
Qed.

(** The array that [orientateCircles] leaves behind is the given array
    sorted by the comparator chosen from [orientationOrder], applied to
    the circles as they are when the function is called. *)
Lemma orientateCircles_result circles orientation orientationOrder h r h' :
  orientateCircles circles orientation orientationOrder h = (Ok r, h') →
  r = js_sort (fun a b => match h !! a, h !! b with
                          | Some ca, Some cb =>
                              orientation_after orientationOrder ca cb
                          | _, _ => false
                          end) circles.
Proof.
  unfold orientateCircles. unfold mbind at 1, St_bind at 1.
  unfold sort_circles at 1. destruct (mapM _ circles); [|done].
  remember (js_sort _ circles) as sorted eqn:Hs. clear Hs.
  cbv beta iota. revert h r h'.
  do 4 (apply St_then_value; intros _).
  by intros h r h' [= <- _].
Qed.

(** Without a caller's order ([undefined]) the array keeps the order in
    which it was given, whatever the radii are. *)
Lemma orientateCircles_undefined_order circles orientation h r h' :
  orientateCircles circles orientation Undefined h = (Ok r, h') → r = circles.
Proof.
  intros ->%orientateCircles_result.
  rewrite <- (js_sort_no_order circles) at 2.
  apply js_sort_ext. intros a b. simpl.
  by destruct (h !! a), (h !! b).
Qed.

(** C6 (failing input).  Called without an orientation order on a
    cluster that lists a circle of radius 1 before a circle of radius
    2, [orientateCircles] does not sort by radius: the array keeps its
    order and the circle of radius 1 is the one at the origin.  The
    branch that sorts by descending radius is taken only when the
    caller passes [null]; then the circle of radius 2 comes first. *)
Theorem orientateCircles_ignores_radius_order :
  let out := orientateCircles [0%nat; 1%nat] (Val (PI / 2)) Undefined small_large in
  let out_null := orientateCircles [0%nat; 1%nat] (Val (PI / 2)) Null small_large in
  out.1 = Ok [0%nat; 1%nat] ∧
  Circle.radius <$> out.2 = [1; 2] ∧
  center <$> out.2 !! 0%nat = Some (0, 0) ∧
  out_null.1 = Ok [1%nat; 0%nat].
Proof.
  cbv zeta. unfold orientateCircles, mbind, St_bind.
  unfold sort_circles. cbn [mapM]. simpl.
  unfold num_after. simpl. rewrite bool_decide_eq_true_2 by lra. simpl.
  repeat case_decide; simpl; (split_and!; [done|done| |done]);
    unfold center; simpl; do 2 f_equal; lra.
Qed.

(** ** The distance for a given overlap *)

(** The shortcut of [distanceFromIntersectArea] on small circles.  Two
    circles of radius [1e-6] at distance [2e-6] overlap in area 0,
    strictly less than the area [PI * 1e-12] of either; but that area
    is itself below [1e-10], so the shortcut is taken and the distance
    returned is [|r1 - r2| = 0], which is [2e-6] away from the distance
    the overlap came from. *)
Example distanceFromIntersectArea_small_radii :
  Rabs (1e-6 - 1e-6) <= 2e-6 <= 1e-6 + 1e-6
  ∧ circleOverlap 1e-6 1e-6 2e-6 < PI * Rmin 1e-6 1e-6 * Rmin 1e-6 1e-6
  ∧ distanceFromIntersectArea 1e-6 1e-6 (circleOverlap 1e-6 1e-6 2e-6) = Ok 0
  ∧ 1e-10 < Rabs (0 - 2e-6).
Proof.
  assert (circleOverlap 1e-6 1e-6 2e-6 = 0) as Hov
    by (apply circleOverlap_disjoint; lra).
  rewrite Hov, Rmin_left by lra.
  pose proof PI_RGT_0 as Hpi. pose proof PI_4 as Hpi4.
  repeat split.
  - rewrite Rabs_right; lra.
  - lra.
  - nra.
  - unfold distanceFromIntersectArea. rewrite Rmin_left by lra.
    rewrite decide_True by (unfold SMALL; nra).
    f_equal. rewrite Rabs_right; lra.
  - rewrite Rabs_left; lra.
Qed.

(** * Further properties of the code *)

(** ** Plain objects: reading after writing *)

Lemma obj_has_get {V} (o : obj V) k : obj_has o k = true ↔ is_Some (obj_get o k).
Proof. unfold obj_has. apply bool_decide_eq_true. Qed.

Lemma obj_has_false {V} (o : obj V) k : obj_has o k = false ↔ obj_get o k = None.
Proof.
  unfold obj_has. rewrite bool_decide_eq_false, eq_None_not_Some. done.
Qed.

Lemma obj_get_keys {V} (o : obj V) k : is_Some (obj_get o k) ↔ k ∈ obj_keys o.
Proof.
  unfold obj_keys. induction o as [|[k' v'] o IH]; simpl.
  - split; [by intros [? ?]|by intros ?%elem_of_nil].
  - case_decide as Hk.
    + subst. split; [intros _; by left|eauto].
    + rewrite IH, elem_of_cons. naive_solver.
Qed.

Lemma obj_get_update {V} (o : obj V) k v k' :
  is_Some (obj_get o k) →
  obj_get (obj_update k v o) k' = if decide (k = k') then Some v else obj_get o k'.
Proof.
  induction o as [|[k0 v0] o IH]; simpl; [by intros [? ?]|].
  intros Hk. destruct (decide (k0 = k)) as [->|Hne]; simpl.
  - destruct (decide (k = k')); [done|]. done.
  - rewrite (IH Hk).
    destruct (decide (k0 = k')) as [->|?]; [|done].
    by rewrite decide_False by congruence.
Qed.

Lemma obj_get_add {V} (o : obj V) k v k' :
  obj_get o k = None →
  obj_get (obj_add k v o) k' = if decide (k = k') then Some v else obj_get o k'.
Proof.
  induction o as [|[k0 v0] o IH]; simpl; [done|].
  destruct (decide (k0 = k)) as [->|Hne]; [done|]. intros Hk.
  assert (obj_get ((k, v) :: (k0, v0) :: o) k'
          = if decide (k = k') then Some v
            else if decide (k0 = k') then Some v0 else obj_get o k') as Hfront by done.
  assert (obj_get ((k0, v0) :: obj_add k v o) k'
          = if decide (k = k') then Some v
            else if decide (k0 = k') then Some v0 else obj_get o k') as Hback.
  { simpl. rewrite (IH Hk).
    destruct (decide (k0 = k')) as [->|?]; [|done].
    by rewrite decide_False by congruence. }
  destruct (array_index k), (array_index k0); try destruct (decide (_ < _)%N); done.
Qed.

Lemma obj_get_set {V} (o : obj V) k v k' :
  obj_get (obj_set k v o) k' = if decide (k = k') then Some v else obj_get o k'.
Proof.
  unfold obj_set. destruct (obj_has o k) eqn:Hh.
  - apply obj_get_update. by apply obj_has_get.
  - apply obj_get_add. by apply obj_has_false.
Qed.

Lemma obj_keys_update {V} (o : obj V) k v : obj_keys (obj_update k v o) = obj_keys o.
Proof.
  unfold obj_keys. induction o as [|[k0 v0] o IH]; simpl; [done|].
  case_decide; simpl; [by subst|by f_equal].
Qed.

Lemma obj_keys_add {V} (o : obj V) k v : obj_keys (obj_add k v o) ≡ₚ k :: obj_keys o.
Proof.
  unfold obj_keys. induction o as [|[k0 v0] o IH]; simpl; [done|].
  assert (k0 :: (obj_add k v o).*1 ≡ₚ k :: k0 :: o.*1) as Hback
    by (rewrite IH; apply Permutation_swap).
  destruct (array_index k), (array_index k0); try destruct (decide (_ < _)%N); done.
Qed.

Lemma obj_keys_set {V} (o : obj V) k v :
  obj_keys (obj_set k v o) ≡ₚ (if obj_has o k then obj_keys o else k :: obj_keys o).
Proof.
  unfold obj_set. destruct (obj_has o k).
  - by rewrite obj_keys_update.
  - apply obj_keys_add.
Qed.

Lemma obj_keys_set_NoDup {V} (o : obj V) k v :
  NoDup (obj_keys o) → NoDup (obj_keys (obj_set k v o)).
Proof.
  intros Hnd. rewrite obj_keys_set. destruct (obj_has o k) eqn:Hh; [done|].
  apply NoDup_cons. split; [|done].
  apply obj_has_false in Hh. rewrite <- obj_get_keys, Hh. by intros [? ?].
Qed.

Lemma obj_keys_set_elem {V} (o : obj V) k v k' :
  k' ∈ obj_keys (obj_set k v o) ↔ k' = k ∨ k' ∈ obj_keys o.
Proof.
  rewrite <- !obj_get_keys, obj_get_set.
  destruct (decide (k = k')) as [->|Hne]; [naive_solver|]. naive_solver.
Qed.

Lemma obj_get_push {V} (o : obj (list V)) k v k' :
  obj_get (obj_push k v o) k'
  = if decide (k = k') then (fun l => l ++ [v])%list <$> obj_get o k' else obj_get o k'.
Proof.
  unfold obj_push. destruct (obj_get o k) as [l|] eqn:Hk.
  - rewrite obj_get_set. destruct (decide (k = k')) as [->|?]; [|done].
    by rewrite Hk.
  - destruct (decide (k = k')) as [->|?]; [|done]. by rewrite Hk.
Qed.

Lemma obj_get_first {V} (o : obj V) i k v :
  NoDup (obj_keys o) → o !! i = Some (k, v) → obj_get o k = Some v.
Proof.
  unfold obj_keys. revert i. induction o as [|[k0 v0] o IH]; intros i Hnd Hi; [done|].
  apply NoDup_cons in Hnd as [Hk0 Hnd]. simpl.
  destruct i as [|i]; simpl in Hi.
  - injection Hi as -> ->. by rewrite decide_True.
  - rewrite decide_False; [by eapply IH|].
    intros ->. apply Hk0. apply list_elem_of_fmap. exists (k, v).
    split; [done|]. by eapply list_elem_of_lookup_2.
Qed.

(** ** Bounding box *)

(** X1.  [getBoundingBox] has no finite bounds exactly for the empty
    array.  Otherwise every circle of the array lies inside the box, and
    each of the four bounds is the edge of one of the circles. *)
Theorem getBoundingBox_encloses (circles : list Circle) :
  match getBoundingBox circles with
  | None => circles = []
  | Some b =>
      (∀ c, c ∈ circles →
         xmin b <= Circle.x c - Circle.radius c ∧ Circle.x c + Circle.radius c <= xmax b ∧
         ymin b <= Circle.y c - Circle.radius c ∧ Circle.y c + Circle.radius c <= ymax b) ∧
      (∃ c, c ∈ circles ∧ Circle.x c - Circle.radius c = xmin b) ∧
      (∃ c, c ∈ circles ∧ Circle.x c + Circle.radius c = xmax b) ∧
      (∃ c, c ∈ circles ∧ Circle.y c - Circle.radius c = ymin b) ∧
      (∃ c, c ∈ circles ∧ Circle.y c + Circle.radius c = ymax b)
  end.
Proof.
  destruct (getBoundingBox circles) as [b|] eqn:Hb.
  - split; [intros c Hc; by eapply getBoundingBox_bounds|].
    destruct circles as [|c0 cs]; [done|]. injection Hb as <-. simpl.
    split_and!.
    + apply (min_of_fmap (fun c => Circle.x c - Circle.radius c)).
    + apply (max_of_fmap (fun c => Circle.x c + Circle.radius c)).
    + apply (min_of_fmap (fun c => Circle.y c - Circle.radius c)).
    + apply (max_of_fmap (fun c => Circle.y c + Circle.radius c)).
  - by destruct circles.
Qed.

(** ** The seeded generator *)

Lemma u32_range z : (0 <= u32 z < 4294967296)%Z.
Proof. unfold u32. apply Z.mod_pos_bound. lia. Qed.

Lemma lxor_u32 a b :
  (0 <= a < 4294967296)%Z → (0 <= b < 4294967296)%Z →
  (0 <= Z.lxor a b < 4294967296)%Z.
Proof.
  intros Ha Hb. assert (0 <= Z.lxor a b)%Z as Hn by (apply Z.lxor_nonneg; lia).
  split; [done|].
  destruct (decide (Z.lxor a b = 0%Z)) as [->|Hz]; [lia|].
  change 4294967296%Z with (2 ^ 32)%Z. apply Z.log2_lt_pow2; [lia|].
  eapply Z.le_lt_trans; [apply Z.log2_lxor; lia|].
  apply Z.max_lub_lt.
  - destruct (decide (a = 0%Z)) as [->|?]; [simpl; lia|]. apply Z.log2_lt_pow2; lia.
  - destruct (decide (b = 0%Z)) as [->|?]; [simpl; lia|]. apply Z.log2_lt_pow2; lia.
Qed.

Lemma shiftr_u32 a n :
  (0 <= n)%Z → (0 <= a < 4294967296)%Z → (0 <= Z.shiftr a n < 4294967296)%Z.
Proof.
  intros Hn Ha. rewrite Z.shiftr_div_pow2 by done.
  assert (0 < 2 ^ n)%Z by (apply Z.pow_pos_nonneg; lia).
  split; [apply Z.div_pos; lia|].
  eapply Z.le_lt_trans; [|apply Ha]. apply Z.div_le_upper_bound; [lia|]. nia.
Qed.

Lemma mulberry32_range seed :
  (0 <= (mulberry32 seed).1 < 4294967296)%Z ∧ 0 <= (mulberry32 seed).2 < 1.
Proof.
  unfold mulberry32. cbv zeta. cbn [fst snd].
  set (s := u32 (seed + 0x6d2b79f5)).
  set (t := u32 (Z.lxor s (Z.shiftr s 15) * Z.lor 1 s)).
  set (t' := Z.lxor (u32 (Z.lxor t (Z.shiftr t 7) * Z.lor 61 t)) t).
  pose proof (u32_range (seed + 0x6d2b79f5)) as Hs. fold s in Hs.
  pose proof (u32_range (Z.lxor s (Z.shiftr s 15) * Z.lor 1 s)) as Ht. fold t in Ht.
  assert (0 <= t' < 4294967296)%Z as Ht' by (apply lxor_u32; [apply u32_range|done]).
  assert (0 <= Z.lxor t' (Z.shiftr t' 14) < 4294967296)%Z as Hr
    by (apply lxor_u32; [done|apply shiftr_u32; [lia|done]]).
  split; [done|].
  destruct Hr as [Hr0 Hr1]. apply IZR_le in Hr0. apply IZR_lt in Hr1.
  split.
  - apply Rmult_le_pos; [done|]. lra.
  - apply Rmult_lt_reg_r with 4294967296; [lra|].
    unfold Rdiv. rewrite Rmult_assoc, Rinv_l by lra. lra.
Qed.

Lemma draw_range n : ∀ seed,
  length (draw n seed).1 = n ∧ Forall (fun r => 0 <= r < 1) (draw n seed).1.
Proof.
  induction n as [|n IH]; intros seed; [by split|].
  cbn [draw]. pose proof (mulberry32_range seed) as [_ Hr].
  destruct (mulberry32 seed) as [seed' r]. cbn [snd] in Hr.
  specialize (IH seed'). destruct (draw n seed') as [rs seed'']. cbn [fst] in *.
  destruct IH as [IH1 IH2]. split; [simpl; by f_equal|by constructor].
Qed.

(** X2.  Every number the seeded generator returns lies in [0, 1), its
    state stays a 32-bit unsigned integer, and [n] calls give [n]
    numbers, whatever the seed. *)
Theorem createRandomGenerator_unit_interval (seed : Z) (n : nat) :
  (0 <= (mulberry32 seed).1 < 4294967296)%Z ∧
  0 <= (mulberry32 seed).2 < 1 ∧
  length (draw n seed).1 = n ∧
  Forall (fun r => 0 <= r < 1) (draw n seed).1.
Proof.
  pose proof (mulberry32_range seed) as [H1 H2].
  pose proof (draw_range n seed) as [H3 H4]. done.
Qed.

(** ** The constrained MDS objective *)

Lemma add_at_length a i v : length (add_at a i v) = length a.
Proof. unfold add_at. apply length_insert. Qed.

Lemma add_at_zero a i : add_at a i 0 = a.
Proof.
  unfold add_at. destruct (a !! i) as [v|] eqn:Hi.
  - apply list_insert_id. rewrite (list_lookup_total_correct _ _ _ Hi), Hi.
    f_equal. lra.
  - apply list_insert_ge. by apply lookup_ge_None.
Qed.

Lemma mds_pair_sound x distances constraints i st j :
  0 <= st.1 →
  0 <= (mds_pair x distances constraints i st j).1 ∧
  length (mds_pair x distances constraints i st j).2 = length st.2.
Proof.
  intros Hst. unfold mds_pair. cbv zeta. case_decide; [done|]. cbn [fst snd].
  split; [|by rewrite !add_at_length].
  set (delta := _ - mget distances i j * mget distances i j).
  pose proof (Rle_0_sqr delta) as Hsq. unfold Rsqr in Hsq. lra.
Qed.

Lemma mds_fold_sound (P : R * list R → Prop) (step : nat → R * list R → nat → R * list R)
    (outer : list nat) (inner : nat → list nat) st :
  (∀ i st j, P st → P (step i st j)) → P st →
  P (foldl (fun st i => foldl (step i) st (inner i)) st outer).
Proof.
  intros Hstep. revert st. induction outer as [|i outer IH]; intros st Hst; [done|].
  simpl. apply IH. generalize (inner i). intros l. revert st Hst.
  induction l as [|j l IHl]; intros st Hst; [done|]. simpl. apply IHl, Hstep, Hst.
Qed.

Lemma mds_pair_exact x distances constraints i st j :
  squared_distance x i j = mget distances i j * mget distances i j →
  mds_pair x distances constraints i st j = st.
Proof.
  intros Hd. unfold mds_pair. cbv zeta. case_decide; [done|].
  fold (squared_distance x i j). rewrite Hd.
  replace (mget distances i j * mget distances i j
           - mget distances i j * mget distances i j) with 0 by ring.
  rewrite !Rmult_0_r, !Rmult_0_l, !add_at_zero, Rplus_0_r. by destruct st.
Qed.

(** X3.  For [n] points, a position vector and a gradient vector of
    length [2 n] and two [n] by [n] matrices, which is what the
    optimiser hands over, the loss that [constrainedMDSGradient]
    returns is never negative and the gradient it fills in keeps its
    length.  At a position vector in which every pair of points is
    exactly at its target distance the loss is 0 and the gradient is
    the zero vector.  (On shorter vectors the source reads [undefined]
    and its [fxprime[k] += v] grows the array.) *)
Theorem constrainedMDSGradient_sound (x fxprime : list R)
    (distances constraints : list (list R)) :
  length x = (2 * length distances)%nat →
  length fxprime = (2 * length distances)%nat →
  Forall (fun row => length row = length distances) distances →
  length constraints = length distances →
  Forall (fun row => length row = length distances) constraints →
  0 <= (constrainedMDSGradient x fxprime distances constraints).1 ∧
  length (constrainedMDSGradient x fxprime distances constraints).2 = length fxprime ∧
  ((∀ i j, (i < j < length distances)%nat →
      squared_distance x i j = mget distances i j * mget distances i j) →
   constrainedMDSGradient x fxprime distances constraints
   = (0, zeros (length fxprime))).
Proof.
  intros _ _ _ _ _. unfold constrainedMDSGradient. cbv zeta. split_and!.
  - apply (mds_fold_sound (fun st => 0 <= st.1 ∧ length st.2 = length fxprime)
             (mds_pair x distances constraints)).
    + intros i st j [H1 H2]. destruct (mds_pair_sound x distances constraints i st j H1).
      split; [done|congruence].
    + simpl. split; [lra|]. unfold zeros. apply length_replicate.
  - apply (mds_fold_sound (fun st => 0 <= st.1 ∧ length st.2 = length fxprime)
             (mds_pair x distances constraints)).
    + intros i st j [H1 H2]. destruct (mds_pair_sound x distances constraints i st j H1).
      split; [done|congruence].
    + simpl. split; [lra|]. unfold zeros. apply length_replicate.
  - intros Hexact. generalize (0, zeros (length fxprime)). intros st.
    assert (∀ i, i ∈ seq 0 (length distances) → (i < length distances)%nat) as Hout
      by (intros i Hi%elem_of_seq; lia).
    revert st Hout. generalize (seq 0 (length distances)).
    intros outer. induction outer as [|i outer IH]; intros st Hout; [done|].
    simpl. rewrite <- (IH st) at 2 by (intros k Hk; apply Hout; by right).
    f_equal.
    assert (∀ j, j ∈ seq (S i) (length distances - S i) →
                 (i < j < length distances)%nat) as Hin
      by (intros j Hj%elem_of_seq; lia).
    revert Hin. generalize (seq (S i) (length distances - S i)).
    intros inner. clear IH. revert st.
    induction inner as [|j inner IHi]; intros st Hin; [done|].
    simpl. rewrite mds_pair_exact by (apply Hexact, Hin; by left).
    apply IHi. intros k Hk. apply Hin. by right.
Qed.

(** Two points at distance 1 with target distance 1. *)
Lemma constrainedMDSGradient_sound_witness :
  0 <= (constrainedMDSGradient [0; 0; 1; 0] [5; 5; 5; 5] [[0; 1]; [1; 0]]
          [[0; 0]; [0; 0]]).1 ∧
  length (constrainedMDSGradient [0; 0; 1; 0] [5; 5; 5; 5] [[0; 1]; [1; 0]]
            [[0; 0]; [0; 0]]).2 = 4%nat ∧
  constrainedMDSGradient [0; 0; 1; 0] [5; 5; 5; 5] [[0; 1]; [1; 0]] [[0; 0]; [0; 0]]
  = (0, zeros 4).
Proof.
  destruct (constrainedMDSGradient_sound [0; 0; 1; 0] [5; 5; 5; 5]
              [[0; 1]; [1; 0]] [[0; 0]; [0; 0]]) as (H1 & H2 & H3);
    [reflexivity|reflexivity|by repeat constructor|reflexivity|by repeat constructor|].
  split_and!; [exact H1|exact H2|].
  apply H3. intros i j Hij. simpl in Hij.
  assert (i = 0%nat ∧ j = 1%nat) as [-> ->] by lia.
  unfold squared_distance, mget. simpl. lra.
Defined.

(** ** Completing twice *)

Lemma single_ids_app l1 l2 : single_ids (l1 ++ l2) = (single_ids l1 ++ single_ids l2)%list.
Proof. unfold single_ids. apply bind_app. Qed.

Lemma single_ids_missing_for P a rest : single_ids (missing_for P a rest) = [].
Proof.
  unfold missing_for. induction rest as [|b rest IH]; [done|].
  rewrite bind_cons, single_ids_app, IH. by case_decide.
Qed.

Lemma single_ids_missing_pairs P ids : single_ids (missing_pairs P ids) = [].
Proof.
  induction ids as [|a ids IH]; [done|].
  simpl. by rewrite single_ids_app, single_ids_missing_for, IH.
Qed.

Lemma missing_pairs_intro P ids a b :
  precedes a b ids → pair_key a b ∉ P →
  mkArea [a; b] 0 None None ∈ missing_pairs P ids.
Proof.
  induction ids as [|x ids IH]; intros Hp HP.
  - destruct Hp as (i & j & _ & Hi & _). by rewrite lookup_nil in Hi.
  - simpl. apply elem_of_app. apply precedes_cons in Hp as [[-> Hb]|Hp].
    + left. apply missing_for_elem. eauto.
    + right. by apply IH.
Qed.

Lemma missing_for_nil P a rest :
  (∀ b, b ∈ rest → pair_key a b ∈ P) → missing_for P a rest = [].
Proof.
  unfold missing_for. induction rest as [|b rest IH]; intros HP; [done|].
  rewrite bind_cons, IH by (intros c Hc; apply HP; by right).
  rewrite decide_True by (apply HP; by left). done.
Qed.

Lemma missing_pairs_nil P ids :
  (∀ a b, precedes a b ids → pair_key a b ∈ P) → missing_pairs P ids = [].
Proof.
  induction ids as [|x ids IH]; intros HP; [done|]. simpl.
  rewrite missing_for_nil, IH; [done| |].
  - intros a b Hp. apply HP, precedes_cons. by right.
  - intros b Hb. apply HP, precedes_cons. by left.
Qed.

Lemma addMissingAreas_single_ids (localeCompare : string → string → Z) areas :
  single_ids (addMissingAreas localeCompare areas) = single_ids areas.
Proof.
  unfold addMissingAreas.
  by rewrite single_ids_app, single_ids_missing_pairs, app_nil_r.
Qed.

(** X4.  Completing a completed list adds nothing: [addMissingAreas] is
    idempotent, for every input and every comparison of the host.  The
    single-set identifiers of the list are not changed by it. *)
Theorem addMissingAreas_idempotent (localeCompare : string → string → Z)
    (areas : list Area) :
  addMissingAreas localeCompare (addMissingAreas localeCompare areas)
  = addMissingAreas localeCompare areas ∧
  single_ids (addMissingAreas localeCompare areas) = single_ids areas.
Proof.
  assert (single_ids (addMissingAreas localeCompare areas) = single_ids areas) as Hids.
  { unfold addMissingAreas.
    by rewrite single_ids_app, single_ids_missing_pairs, app_nil_r. }
  split; [|done].
  unfold addMissingAreas at 1.
  assert (sorted_ids localeCompare (addMissingAreas localeCompare areas)
          = sorted_ids localeCompare areas) as ->.
  { unfold sorted_ids. by rewrite !collect_ids, Hids. }
  rewrite missing_pairs_nil; [by rewrite app_nil_r|].
  intros a b Hp. apply collect_pairs.
  destruct (decide (pair_key a b ∈ (collect areas).2)) as [Hin|Hout].
  - apply collect_pairs in Hin as (ar & a' & b' & Har & Hs & Hk).
    exists ar, a', b'. split; [|done]. unfold addMissingAreas.
    apply elem_of_app. by left.
  - exists (mkArea [a; b] 0 None None), a, b. split; [|by split; [|left]].
    unfold addMissingAreas. apply elem_of_app. right.
    by apply missing_pairs_intro.
Qed.

(** ** Label anchors: the margin of a point *)

Lemma margin_fold_min m_of margin l :
  foldl (margin_step m_of) margin l <= margin ∧
  (∀ c, c ∈ l → foldl (margin_step m_of) margin l <= m_of c) ∧
  (foldl (margin_step m_of) margin l = margin ∨
   ∃ c, c ∈ l ∧ foldl (margin_step m_of) margin l = m_of c).
Proof.
  revert margin. induction l as [|c l IH]; intros margin; simpl.
  - split_and!; [lra| |by left]. intros c Hc. by apply elem_of_nil in Hc.
  - destruct (IH (margin_step m_of margin c)) as (H1 & H2 & H3).
    assert (margin_step m_of margin c <= margin ∧ margin_step m_of margin c <= m_of c
            ∧ (margin_step m_of margin c = margin ∨ margin_step m_of margin c = m_of c))
      as (Ha & Hb & Hc).
    { unfold margin_step. cbv zeta. case_decide; split_and!; auto; lra. }
    split_and!.
    + lra.
    + intros d [->|Hd]%elem_of_cons; [lra|auto].
    + destruct H3 as [H3|(d & Hd & H3)].
      * destruct Hc as [Hc|Hc]; [left; congruence|].
        right. exists c. split; [by left|congruence].
      * right. exists d. split; [by right|done].
Qed.

(** X6.  [circleMargin] throws exactly when there is no interior
    circle.  Otherwise the margin it returns is the least of the
    distances to the edge: it is non-negative exactly when the point is
    inside (or on) every interior circle and outside (or on) every
    exterior circle. *)
Theorem circleMargin_sign (current : Point) (interior exterior : list Circle) :
  match circleMargin current interior exterior with
  | Throw e => interior = [] ∧ e = TypeError
  | Ok margin =>
      interior ≠ [] ∧
      (0 <= margin ↔
       (∀ c, c ∈ interior → distance (center c) current <= Circle.radius c) ∧
       (∀ c, c ∈ exterior → Circle.radius c <= distance (center c) current))
  end.
Proof.
  destruct interior as [|first rest]; simpl; [done|]. split; [done|].
  set (mi := fun c => Circle.radius c - distance (center c) current).
  set (me := fun c => distance (center c) current - Circle.radius c).
  change (Circle.radius first - distance (center first) current) with (mi first).
  destruct (margin_fold_min mi (mi first) rest) as (Hi1 & Hi2 & Hi3).
  set (m1 := foldl (margin_step mi) (mi first) rest) in *.
  destruct (margin_fold_min me m1 exterior) as (He1 & He2 & He3).
  set (m2 := foldl (margin_step me) m1 exterior) in *.
  split.
  - intros Hpos. split.
    + intros c [->|Hc]%elem_of_cons.
      * unfold mi in Hi1. lra.
      * specialize (Hi2 c Hc). unfold mi in Hi2. lra.
    + intros c Hc. specialize (He2 c Hc). unfold me in He2. lra.
  - intros [Hin Hout].
    destruct He3 as [->|(c & Hc & ->)].
    + destruct Hi3 as [->|(c & Hc & ->)].
      * specialize (Hin first (list_elem_of_here _ _)). unfold mi. lra.
      * specialize (Hin c (list_elem_of_further _ _ _ Hc)). unfold mi. lra.
    + specialize (Hout c Hc). unfold me. lra.
Qed.

(** ** Label anchors: which circles enclose which *)

Lemma distance_sym a b : distance a b = distance b a.
Proof. unfold distance. f_equal. ring. Qed.

Lemma listed_push ret k v id x :
  is_Some (obj_get ret k) →
  listed (obj_set k (default [] (obj_get ret k) ++ [v]) ret) id x ↔
  listed ret id x ∨ (id = k ∧ x = v).
Proof.
  intros [l Hl]. unfold listed. rewrite Hl. simpl. split.
  - intros (l' & Hget & Hx). rewrite obj_get_set in Hget.
    destruct (decide (k = id)) as [->|Hne].
    + injection Hget as <-. apply elem_of_app in Hx as [Hx|Hx%list_elem_of_singleton].
      * left. eauto.
      * right. done.
    + left. eauto.
  - intros [(l' & Hget & Hx)|[-> ->]].
    + destruct (decide (k = id)) as [->|Hne].
      * exists (l ++ [v])%list. rewrite obj_get_set, decide_True by done.
        split; [done|]. apply elem_of_app. left. congruence.
      * exists l'. by rewrite obj_get_set, decide_False.
    + exists (l ++ [v])%list. rewrite obj_get_set, decide_True by done.
      split; [done|]. apply elem_of_app. right. by apply list_elem_of_singleton.
Qed.

Section Overlapping.
Variable circles : CircleRecord.

Lemma push_strict_spec ret k v :
  covers circles ret → k ∈ obj_keys circles →
  ∃ ret', push_strict k v ret = Ok ret' ∧ covers circles ret' ∧
          ∀ id x, listed ret' id x ↔ listed ret id x ∨ (id = k ∧ x = v).
Proof.
  intros Hc Hk. unfold push_strict.
  destruct (proj2 (Hc k) Hk) as [l Hl]. rewrite Hl.
  eexists. split; [done|]. split.
  - intros id. rewrite obj_get_set. destruct (decide (k = id)) as [->|?]; [|apply Hc].
    split; [done|eauto].
  - intros id x. pose proof (listed_push ret k v id x (mk_is_Some _ _ Hl)) as Hp.
    by rewrite Hl in Hp.
Qed.

Lemma overlapping_pair_spec ret idi idj :
  covers circles ret → idi ∈ obj_keys circles → idj ∈ obj_keys circles →
  ∃ ret', overlapping_pair circles idi ret idj = Ok ret' ∧ covers circles ret' ∧
    (∀ id x, listed ret id x → listed ret' id x) ∧
    (∀ id x, listed ret' id x →
       listed ret id x ∨ (encloses circles x id ∧
                          ((id = idj ∧ x = idi) ∨ (id = idi ∧ x = idj)))) ∧
    (encloses circles idi idj → listed ret' idj idi) ∧
    (encloses circles idj idi → listed ret' idi idj ∨ listed ret' idj idi).
Proof.
  intros Hc Hi Hj. unfold overlapping_pair.
  destruct (proj2 (obj_get_keys circles idi) Hi) as [a Ha].
  destruct (proj2 (obj_get_keys circles idj) Hj) as [b Hb].
  rewrite Ha, Hb. cbv zeta.
  destruct (decide (distance (center a) (center b) + Circle.radius b
                    <= Circle.radius a + 1e-10)) as [Hab|Hab].
  - destruct (push_strict_spec ret idj idi Hc Hj) as (ret' & -> & Hc' & Hl).
    exists ret'. split_and!; [done|done|..].
    + intros id x Hx. apply Hl. by left.
    + intros id x [Hx|[-> ->]]%Hl; [by left|]. right. split; [|by left].
      by exists a, b.
    + intros _. apply Hl. by right.
    + intros _. right. apply Hl. by right.
  - destruct (decide (distance (center a) (center b) + Circle.radius a
                      <= Circle.radius b + 1e-10)) as [Hba|Hba].
    + destruct (push_strict_spec ret idi idj Hc Hi) as (ret' & -> & Hc' & Hl).
      exists ret'. split_and!; [done|done|..].
      * intros id x Hx. apply Hl. by left.
      * intros id x [Hx|[-> ->]]%Hl; [by left|]. right. split; [|by right].
        exists b, a. rewrite distance_sym. done.
      * intros (a' & b' & Ha' & Hb' & Hd). exfalso. apply Hab. congruence.
      * intros _. left. apply Hl. by right.
    + exists ret. split_and!; [done|done|auto|auto|..].
      * intros (a' & b' & Ha' & Hb' & Hd). exfalso. apply Hab. congruence.
      * intros (b' & a' & Hb' & Ha' & Hd). exfalso. apply Hba.
        rewrite distance_sym. congruence.
Qed.

Lemma overlapping_inner_spec idi later : ∀ ret,
  covers circles ret → idi ∈ obj_keys circles → (∀ id, id ∈ later → id ∈ obj_keys circles) →
  ∃ ret', foldl_result (overlapping_pair circles idi) ret later = Ok ret' ∧ covers circles ret' ∧
    (∀ id x, listed ret id x → listed ret' id x) ∧
    (∀ id x, listed ret' id x →
       listed ret id x ∨ (encloses circles x id ∧
                          ((id ∈ later ∧ x = idi) ∨ (id = idi ∧ x ∈ later)))) ∧
    (∀ idj, idj ∈ later →
       (encloses circles idi idj → listed ret' idj idi) ∧
       (encloses circles idj idi → listed ret' idi idj ∨ listed ret' idj idi)).
Proof.
  induction later as [|idj later IH]; intros ret Hc Hi Hl.
  - exists ret. simpl. split_and!; [done|done|auto|auto|].
    intros idj Hj. by apply elem_of_nil in Hj.
  - destruct (overlapping_pair_spec ret idi idj Hc Hi (Hl idj (list_elem_of_here _ _)))
      as (ret1 & Hrun & Hc1 & Hmono1 & Hnew1 & Hfwd1 & Hbwd1).
    destruct (IH ret1 Hc1 Hi (fun id Hid => Hl id (list_elem_of_further _ _ _ Hid)))
      as (ret2 & Hrun2 & Hc2 & Hmono2 & Hnew2 & Hall2).
    exists ret2. simpl. rewrite Hrun. split_and!; [done|done|auto|..].
    + intros id x [Hx|(He & Hcase)]%Hnew2.
      * apply Hnew1 in Hx as [Hx|(He & [[-> ->]|[-> ->]])]; [by left|..].
        -- right. split; [done|]. left. split; [by left|done].
        -- right. split; [done|]. right. split; [done|by left].
      * right. split; [done|].
        destruct Hcase as [[Hin ->]|[-> Hin]]; [left|right]; split; try done; by right.
    + intros idk [->|Hk]%elem_of_cons.
      * split; [intros He; apply Hmono2; auto|].
        intros He. destruct (Hbwd1 He); [left|right]; by apply Hmono2.
      * by apply Hall2.
Qed.

Lemma overlapping_from_spec ids : ∀ ret,
  covers circles ret → NoDup ids → (∀ id, id ∈ ids → id ∈ obj_keys circles) →
  ∃ ret', overlapping_from circles ids ret = Ok ret' ∧ covers circles ret' ∧
    (∀ id x, listed ret id x → listed ret' id x) ∧
    (∀ id x, listed ret' id x →
       listed ret id x ∨ (encloses circles x id ∧ x ≠ id ∧ id ∈ ids ∧ x ∈ ids)) ∧
    (∀ k id, k ∈ ids → id ∈ ids → k ≠ id → encloses circles k id →
       listed ret' id k ∨ listed ret' k id).
Proof.
  induction ids as [|idi later IH]; intros ret Hc Hnd Hl.
  - exists ret. simpl. split_and!; [done|done|auto|auto|].
    intros k id Hk. by apply elem_of_nil in Hk.
  - apply NoDup_cons in Hnd as [Hfresh Hnd].
    destruct (overlapping_inner_spec idi later ret Hc
                (Hl idi (list_elem_of_here _ _))
                (fun id Hid => Hl id (list_elem_of_further _ _ _ Hid)))
      as (ret1 & Hrun1 & Hc1 & Hmono1 & Hnew1 & Hall1).
    destruct (IH ret1 Hc1 Hnd (fun id Hid => Hl id (list_elem_of_further _ _ _ Hid)))
      as (ret2 & Hrun2 & Hc2 & Hmono2 & Hnew2 & Hall2).
    exists ret2. simpl. rewrite Hrun1. simpl. split_and!; [done|done|auto|..].
    + intros id x [Hx|(He & Hne & Hid & Hx)]%Hnew2.
      * apply Hnew1 in Hx as [Hx|(He & [[Hin ->]|[-> Hin]])]; [by left|..].
        -- right. split_and!; [done| |by right|by left]. intros ->. done.
        -- right. split_and!; [done| |by left|by right]. intros ->. done.
      * right. split_and!; [done|done|by right|by right].
    + intros k id [->|Hk]%elem_of_cons [->|Hid]%elem_of_cons Hne He.
      * done.
      * left. apply Hmono2. by apply (Hall1 id Hid).
      * destruct (proj2 (Hall1 k Hk) He); [left|right]; by apply Hmono2.
      * by apply Hall2.
Qed.

Lemma initial_entries ids : ∀ ret0 : obj (list string),
  (∀ id x, ¬ listed ret0 id x) →
  let ret := foldl (fun ret id => obj_set id [] ret) ret0 ids in
  (∀ id, is_Some (obj_get ret id) ↔ is_Some (obj_get ret0 id) ∨ id ∈ ids) ∧
  (∀ id x, ¬ listed ret id x).
Proof.
  induction ids as [|k ids IH]; intros ret0 H0; simpl.
  - split; [|done]. intros id. split; [auto|]. intros [?|?%elem_of_nil]; done.
  - destruct (IH (obj_set k [] ret0)) as [H1 H2].
    { intros id x (l & Hget & Hx). rewrite obj_get_set in Hget.
      destruct (decide (k = id)).
      - injection Hget as <-. by apply elem_of_nil in Hx.
      - apply (H0 id x). by exists l. }
    split; [|done]. intros id. rewrite H1, obj_get_set, elem_of_cons.
    destruct (decide (k = id)) as [->|?]; [naive_solver|naive_solver].
Qed.
End Overlapping.

(** What [getOverlappingCircles] returns. *)
Lemma getOverlappingCircles_spec (circles : CircleRecord) :
  NoDup (obj_keys circles) →
  ∃ ret, getOverlappingCircles circles = Ok ret ∧
    (∀ id, is_Some (obj_get ret id) ↔ id ∈ obj_keys circles) ∧
    (∀ id k, listed ret id k → k ≠ id ∧ encloses circles k id) ∧
    (∀ k id, k ≠ id → encloses circles k id → listed ret id k ∨ listed ret k id).
Proof.
  intros Hnd. unfold getOverlappingCircles. cbv zeta.
  destruct (initial_entries (obj_keys circles) []) as [Hinit Hempty].
  { intros id x (l & Hget & _). done. }
  cbv zeta in Hinit, Hempty.
  set (ret0 := foldl _ _ _) in *.
  assert (covers circles ret0) as Hc.
  { intros id. rewrite Hinit. simpl. split; [intros [[? ?]|?]; done|auto]. }
  destruct (overlapping_from_spec circles (obj_keys circles) ret0 Hc Hnd (fun _ H => H))
    as (ret & Hrun & Hc' & _ & Hnew & Hall).
  exists ret. split_and!; [done|done|..].
  - intros id k [Hl|(He & Hne & _)]%Hnew; [by apply Hempty in Hl|done].
  - intros k id Hne He. apply Hall; [| |done|done].
    + destruct He as (a & _ & Ha & _). apply obj_get_keys. eauto.
    + destruct He as (_ & b & _ & Hb & _). apply obj_get_keys. eauto.
Qed.



(** There the outer circle is listed under the inner one. *)
Example getOverlappingCircles_nested :
  getOverlappingCircles nested_circles = Ok [("A", []); ("B", ["A"])] ∧
  encloses nested_circles "A" "B".
Proof.
  assert (distance (0, 0) (0, 0) = 0) as Hd.
  { unfold distance. simpl. replace ((0 - 0) * (0 - 0) + (0 - 0) * (0 - 0)) with 0 by lra.
    apply sqrt_0. }
  split.
  - unfold getOverlappingCircles, nested_circles. cbv zeta.
    cbn [obj_keys fmap list_fmap fst foldl overlapping_from foldl_result].
    unfold overlapping_pair. cbn [obj_get]. rewrite decide_True by done.
    rewrite decide_False by done. rewrite decide_True by done.
    cbv zeta. unfold center. cbn [Circle.x Circle.y Circle.radius unit_circle].
    rewrite Hd. rewrite decide_True by lra. reflexivity.
  - eexists _, _. split_and!; [reflexivity|reflexivity|].
    unfold center. cbn [Circle.x Circle.y Circle.radius unit_circle].
    rewrite Hd. lra.
Qed.

(** ** What a stage may change of a circle *)

#[global] Instance same_but_parent_refl : Reflexive same_but_parent.
Proof. intros []. done. Qed.
#[global] Instance same_but_parent_trans : Transitive same_but_parent.
Proof. intros [] [] [] H1 H2. unfold same_but_parent, Circle.set_parent in *. simpl in *.
  injection H1; injection H2; intros; by subst. Qed.
(* *)
#[global] Instance same_but_position_refl : Reflexive same_but_position.
Proof. intros []. done. Qed.
#[global] Instance same_but_position_trans : Transitive same_but_position.
Proof. intros [] [] [] H1 H2. unfold same_but_position, Circle.set_xy in *. simpl in *.
  injection H1; injection H2; intros; by subst. Qed.
(* *)
#[global] Instance same_set_refl : Reflexive same_set.
Proof. intros c. by repeat split. Qed.
#[global] Instance same_set_trans : Transitive same_set.
Proof.
  intros c1 c2 c3 (?&?&?&?) (?&?&?&?). unfold same_set. split_and!; congruence.
Qed.

Section Pres.
Context (rel : Circle -> Circle -> Prop) `{!Reflexive rel, !Transitive rel}.

Lemma evolves_refl h : evolves rel h h.
Proof. split; [done|]. intros l c Hl. exists c. by split. Qed.

Lemma evolves_trans h1 h2 h3 : evolves rel h1 h2 → evolves rel h2 h3 → evolves rel h1 h3.
Proof.
  intros [Hl1 H1] [Hl2 H2]. split; [congruence|].
  intros l c Hc. destruct (H1 l c Hc) as (c' & Hc' & Hr).
  destruct (H2 l c' Hc') as (c'' & Hc'' & Hr'). exists c''. split; [done|].
  by etrans.
Qed.

Lemma pres_ret {A} (a : A) : pres rel (mret a).
Proof. intros h. apply evolves_refl. Qed.

Lemma pres_throw {A} e : pres rel (throw (A := A) e).
Proof. intros h. apply evolves_refl. Qed.

Lemma pres_bind {A B} (m : St A) (f : A -> St B) :
  pres rel m → (∀ a, pres rel (f a)) → pres rel (m ≫= f).
Proof.
  intros Hm Hf h. unfold mbind, St_bind. specialize (Hm h).
  destruct (m h) as [[a|e] h1]; simpl in *; [|done].
  eapply evolves_trans; [done|apply Hf].
Qed.

Lemma pres_load l : pres rel (load l).
Proof. intros h. unfold load. destruct (h !! l); apply evolves_refl. Qed.

Lemma pres_update l f : (∀ c, rel c (f c)) → pres rel (update l f).
Proof.
  intros Hf h. unfold update. destruct (h !! l) as [c|] eqn:Hl; [|apply evolves_refl].
  simpl. split; [apply length_insert|]. intros k d Hk.
  destruct (decide (k = l)) as [->|Hne].
  - exists (f c). rewrite list_lookup_insert_eq by (by eapply lookup_lt_Some).
    split; [done|]. replace d with c by congruence. apply Hf.
  - exists d. rewrite list_lookup_insert_ne by done. by split.
Qed.

Lemma pres_for_each {A} (body : A -> St unit) (l : list A) :
  (∀ a, pres rel (body a)) → pres rel (for_each body l).
Proof.
  intros Hb. induction l as [|a l IH]; simpl; [apply pres_ret|].
  apply pres_bind; [apply Hb|done].
Qed.

Lemma pres_fold_St {A B} (body : B -> A -> St B) (l : list A) (b : B) :
  (∀ b a, pres rel (body b a)) → pres rel (fold_St body b l).
Proof.
  intros Hb. revert b. induction l as [|a l IH]; intros b; simpl; [apply pres_ret|].
  apply pres_bind; [apply Hb|done].
Qed.



Lemma pres_sort_circles after circles : pres rel (sort_circles after circles).
Proof.
  intros h. unfold sort_circles. destruct (mapM _ circles); apply evolves_refl.
Qed.
End Pres.

Lemma pres_weaken (rel rel' : Circle -> Circle -> Prop) {A} (m : St A) :
  (∀ c c', rel c c' → rel' c c') → pres rel m → pres rel' m.
Proof.
  intros Hw Hm h. destruct (Hm h) as [Hl Hr]. split; [done|].
  intros l c Hc. destruct (Hr l c Hc) as (c' & ? & ?). eauto.
Qed.

(** The union-find only writes parent pointers. *)
Section PresParent.
Context (rel : Circle -> Circle -> Prop) `{!Reflexive rel, !Transitive rel}.
Hypothesis Hparent : ∀ c p, rel c (Circle.set_parent c p).

Lemma pres_find fuel : ∀ circle, pres rel (find fuel circle).
Proof using All.
  induction fuel as [|fuel IH]; intros [l|]; simpl.
  - apply (pres_bind rel); [apply (pres_load rel)|]. intros c.
    case_decide; [apply (pres_ret rel)|apply (pres_throw rel)].
  - apply (pres_ret rel).
  - apply (pres_bind rel); [apply (pres_load rel)|]. intros c.
    case_decide; [apply (pres_ret rel)|].
    apply (pres_bind rel); [apply IH|]. intros root.
    apply (pres_bind rel); [by apply (pres_update rel)|]. intros _. apply (pres_ret rel).
  - apply (pres_ret rel).
Qed.

Lemma pres_union fuel x y : pres rel (union fuel x y).
Proof using All.
  unfold union. apply (pres_bind rel); [apply pres_find|]. intros xRoot.
  apply (pres_bind rel); [apply pres_find|]. intros yRoot.
  destruct xRoot; [by apply (pres_update rel)|by apply (pres_ret rel)].
Qed.

Lemma pres_union_overlapping fuel circles : pres rel (union_overlapping fuel circles).
Proof using All.
  induction circles as [|l1 later IH]; simpl; [by apply (pres_ret rel)|].
  apply (pres_bind rel); [|done].
  apply (pres_for_each rel). intros l2.
  apply (pres_bind rel); [by apply (pres_load rel)|]. intros c1.
  apply (pres_bind rel); [by apply (pres_load rel)|]. intros c2.
  case_decide; [apply pres_union|by apply (pres_ret rel)].
Qed.

Lemma pres_group_step fuel groups l : pres rel (group_step fuel groups l).
Proof using All.
  unfold group_step. apply (pres_bind rel); [apply pres_find|]. intros [pl|]; [|by apply (pres_ret rel)].
  apply (pres_bind rel); [by apply (pres_load rel)|]. intros pc.
  destruct (Circle.parent pc); [|by apply (pres_ret rel)].
  apply (pres_bind rel); [by apply (pres_load rel)|]. intros ppc.
  case_decide; by apply (pres_ret rel).
Qed.

Lemma pres_disjointCluster circles : pres rel (disjointCluster circles).
Proof using All.
  unfold disjointCluster. cbv zeta.
  apply (pres_bind rel); [apply (pres_for_each rel); intros l; by apply (pres_update rel)|].
  intros _. apply (pres_bind rel); [apply pres_union_overlapping|].
  intros _. apply (pres_bind rel); [apply (pres_fold_St rel); intros; apply pres_group_step|].
  intros groups.
  apply (pres_bind rel); [apply (pres_for_each rel); intros l; by apply (pres_update rel)|].
  intros _. by apply (pres_ret rel).
Qed.
End PresParent.

Lemma keeps_any {A} (m : St A) (pre : store -> Prop) :
  keeps 0 m pre (fun _ _ => True).
Proof. intros h _ _. split; [|done]. split; [lia|]. intros l Hl. lia. Qed.

Lemma cleared_after (circles : list loc) :
  keeps 0 (for_each (fun l => update l (fun c => Circle.set_parent c None)) circles)
    (fun _ => True)
    (fun _ h => ∀ l, l ∈ circles → ∃ c, h !! l = Some c ∧ Circle.parent c = None).
Proof.
  apply (keeps_conseq 0 _ _ (fun h => ∀ l, l ∈ @nil loc →
                                ∃ c, h !! l = Some c ∧ Circle.parent c = None)
           _ (fun _ h => ∀ l, l ∈ circles →
                                ∃ c, h !! l = Some c ∧ Circle.parent c = None)).
  - apply (keeps_for_each_prefix 0 _ circles
             (fun done h => ∀ l, l ∈ done →
                                 ∃ c, h !! l = Some c ∧ Circle.parent c = None)).
    intros done a rest _. apply keeps_update; [lia|].
    intros h c Hinv Ha l [Hl|Hl]%elem_of_app;
      [|apply list_elem_of_singleton in Hl as ->].
    + destruct (decide (l = a)) as [->|Hne].
      * exists (Circle.set_parent c None).
        rewrite list_lookup_insert_eq by (by eapply lookup_lt_Some). done.
      * rewrite list_lookup_insert_ne by done. by apply Hinv.
    + exists (Circle.set_parent c None).
      rewrite list_lookup_insert_eq by (by eapply lookup_lt_Some). done.
  - intros h _ l Hl. by apply elem_of_nil in Hl.
  - done.
Qed.

(** X8.  [disjointCluster] never moves or resizes a circle and never
    adds or removes one: whether it returns or throws, the objects of
    the store differ from before at most in their union-find pointer.
    When it returns, the pointer of every circle it was given has been
    removed again. *)
Theorem disjointCluster_only_parents (circles : list loc) (h : store) :
  evolves same_but_parent h (disjointCluster circles h).2 ∧
  ∀ clusters, (disjointCluster circles h).1 = Ok clusters →
    ∀ l, l ∈ circles →
         ∃ c, (disjointCluster circles h).2 !! l = Some c ∧ Circle.parent c = None.
Proof.
  split.
  - apply (pres_disjointCluster same_but_parent). intros c p. by destruct c.
  - intros clusters Hok.
    assert (keeps 0 (disjointCluster circles) (fun _ => True)
              (fun _ h => ∀ l, l ∈ circles →
                               ∃ c, h !! l = Some c ∧ Circle.parent c = None)) as Hk.
    { unfold disjointCluster. cbv zeta.
      eapply keeps_bind; [apply keeps_any|]. intros u1.
      eapply keeps_bind; [apply keeps_any|]. intros u2.
      eapply keeps_bind; [apply keeps_any|]. intros groups.
      eapply keeps_bind; [apply cleared_after|]. intros u3.
      by apply keeps_ret. }
    destruct (Hk h) as [_ Hpost]; [lia|done|]. by eapply Hpost.
Qed.

(** ** Computations that return *)

Lemma runs_ret {A} (a : A) (pre : store -> Prop) post :
  (∀ h, pre h → post a h) → runs (mret a) pre post.
Proof. intros Hp h Hh. exists a. split; [done|]. by apply Hp. Qed.

Lemma runs_bind {A B} (m : St A) (f : A -> St B) pre mid post :
  runs m pre mid → (∀ a, runs (f a) (mid a) post) → runs (m ≫= f) pre post.
Proof.
  intros Hm Hf h Hh. destruct (Hm h Hh) as (a & Ha & Hmid).
  unfold mbind, St_bind. destruct (m h) as [[a'|e] h1]; simpl in *; [|done].
  injection Ha as ->. by apply Hf.
Qed.

Lemma runs_conseq {A} (m : St A) (pre pre' : store -> Prop)
    (post post' : A -> store -> Prop) :
  runs m pre' post' → (∀ h, pre h → pre' h) → (∀ a h, post' a h → post a h) →
  runs m pre post.
Proof.
  intros Hm Hpre Hpost h Hh. destruct (Hm h (Hpre h Hh)) as (a & Ha & Hp). eauto.
Qed.

Lemma runs_pure {A} (m : St A) (pre : store -> Prop) post (P : Prop) :
  (∀ h, pre h → P) → (P → runs m pre post) → runs m pre post.
Proof. intros HP Hm h Hh. apply Hm; eauto. Qed.

Lemma runs_load l (pre : store -> Prop) :
  (∀ h, pre h → is_Some (h !! l)) →
  runs (load l) pre (fun c h => pre h ∧ h !! l = Some c).
Proof.
  intros Hv h Hh. destruct (Hv h Hh) as [c Hc]. exists c.
  unfold load. rewrite Hc. done.
Qed.

Lemma runs_update l f (pre : store -> Prop) (post : unit -> store -> Prop) :
  (∀ h, pre h → is_Some (h !! l)) →
  (∀ h c, pre h → h !! l = Some c → post () (<[l := f c]> h)) →
  runs (update l f) pre post.
Proof.
  intros Hv Hp h Hh. destruct (Hv h Hh) as [c Hc]. exists ().
  unfold update. rewrite Hc. split; [done|]. by apply Hp.
Qed.

Lemma runs_for_each_prefix {A} (body : A -> St unit) (l : list A)
    (inv : list A -> store -> Prop) :
  (∀ done a rest, l = (done ++ a :: rest)%list →
                  runs (body a) (inv done) (fun _ => inv (done ++ [a])%list)) →
  runs (for_each body l) (inv []) (fun _ => inv l).
Proof.
  intros Hb.
  assert (∀ rest done, l = (done ++ rest)%list →
            runs (for_each body rest) (inv done) (fun _ => inv l)) as Hgen.
  { induction rest as [|a rest IH]; intros done Hl.
    - rewrite app_nil_r in Hl. subst. simpl. by apply runs_ret.
    - simpl. eapply runs_bind; [by apply (Hb done a rest)|].
      intros u. apply IH. by rewrite <- app_assoc. }
  by apply (Hgen l []).
Qed.

Lemma runs_for_each {A} (body : A -> St unit) (l : list A) (inv : store -> Prop) :
  (∀ a, a ∈ l → runs (body a) inv (fun _ => inv)) →
  runs (for_each body l) inv (fun _ => inv).
Proof.
  intros Hb. apply (runs_for_each_prefix body l (fun _ => inv)).
  intros done a rest ->. apply Hb. apply elem_of_app. right. by left.
Qed.

Lemma valid_lookup n ls l (h : store) :
  valid n ls → l ∈ ls → length h = n → is_Some (h !! l).
Proof.
  intros Hv Hl Hn. apply lookup_lt_is_Some. rewrite Hn.
  by eapply Forall_forall in Hv.
Qed.

(** A loop of updates on existing objects returns; an invariant that
    every update keeps is kept. *)
Lemma runs_updates n (ls : list loc) (F : Circle -> Circle) (inv : store -> Prop) :
  valid n ls →
  (∀ l h c, l ∈ ls → inv h → h !! l = Some c → inv (<[l := F c]> h)) →
  runs (for_each (fun l => update l F) ls)
    (fun h => length h = n ∧ inv h) (fun _ h => length h = n ∧ inv h).
Proof.
  intros Hv HF. apply runs_for_each. intros l Hl. apply runs_update.
  - intros h [Hn _]. by eapply valid_lookup.
  - intros h c [Hn Hi] Hc. split; [by rewrite length_insert|]. by eapply HF.
Qed.

(** ** Angles *)

Lemma sqrt_one_plus_sqr x y :
  0 < x → sqrt (1 + (y / x)²) = sqrt (x * x + y * y) / x.
Proof.
  intros Hx. set (rho := sqrt (x * x + y * y)).
  assert (0 <= x * x + y * y) as Hnn by nra.
  assert (rho * rho = x * x + y * y) as Hrho by (by apply sqrt_sqrt).
  assert (0 <= rho) as Hpos by apply sqrt_pos.
  replace (1 + (y / x)²) with ((rho / x) * (rho / x)).
  - apply sqrt_square. apply Rmult_le_pos; [done|]. apply Rlt_le, Rinv_0_lt_compat. done.
  - unfold Rsqr. clearbody rho.
    replace (rho / x * (rho / x)) with ((rho * rho) / (x * x)) by (field; lra).
    rewrite Hrho. field. lra.
Qed.

Lemma rho_pos x y : x ≠ 0 → 0 < sqrt (x * x + y * y).
Proof. intros Hx. apply sqrt_lt_R0. nra. Qed.

(** The angle of [Math.atan2(y, x)] is the polar angle of the point. *)
Lemma atan2_polar y x :
  sqrt (x * x + y * y) * cos (atan2 y x) = x ∧
  sqrt (x * x + y * y) * sin (atan2 y x) = y.
Proof.
  unfold atan2. destruct (decide (0 < x)) as [Hx|Hx].
  { rewrite cos_atan, sin_atan, sqrt_one_plus_sqr by done.
    pose proof (rho_pos x y ltac:(lra)). split; field; lra. }
  destruct (decide (x < 0)) as [Hx'|Hx'].
  { assert (y / x = (- y) / (- x)) as Ht by (field; lra).
    assert (sqrt (x * x + y * y) = sqrt (- x * - x + - y * - y)) as Hr
      by (f_equal; ring).
    pose proof (rho_pos x y ltac:(lra)) as Hpos.
    assert (sqrt (1 + (y / x)²) = sqrt (x * x + y * y) / - x) as Hs.
    { rewrite Ht, Hr. apply sqrt_one_plus_sqr. lra. }
    destruct (decide (0 <= y)).
    - rewrite neg_cos, neg_sin, cos_atan, sin_atan, Hs. split; field; lra.
    - unfold Rminus. rewrite cos_plus, sin_plus, cos_neg, sin_neg, cos_PI, sin_PI.
      rewrite cos_atan, sin_atan, Hs. split; field; lra. }
  assert (x = 0) as -> by lra.
  replace (0 * 0 + y * y) with (y * y) by ring.
  destruct (decide (0 < y)) as [Hy|Hy].
  { rewrite cos_PI2, sin_PI2, sqrt_square by lra. lra. }
  destruct (decide (y < 0)) as [Hy'|Hy'].
  { replace (- PI / 2) with (- (PI / 2)) by lra.
    rewrite cos_neg, sin_neg, cos_PI2, sin_PI2.
    replace (y * y) with (- y * - y) by ring. rewrite sqrt_square by lra. lra. }
  assert (y = 0) as -> by lra.
  rewrite Rmult_0_r, sqrt_0. lra.
Qed.

(** Turning a point by its angle from the y axis less [theta] leaves it
    at the angle [theta] from the y axis. *)
Lemma rotate_to_angle x y theta :
  let rotation := atan2 x y - theta in
  let rho := sqrt (x * x + y * y) in
  0 <= rho ∧
  cos rotation * x - sin rotation * y = rho * sin theta ∧
  sin rotation * x + cos rotation * y = rho * cos theta.
Proof.
  cbv zeta. destruct (atan2_polar x y) as [Hc Hs].
  replace (x * x + y * y) with (y * y + x * x) by ring.
  set (rho := sqrt (y * y + x * x)) in *. set (alpha := atan2 x y) in *.
  split; [apply sqrt_pos|].
  rewrite sin_minus, cos_minus. clearbody rho alpha. rewrite <- Hc, <- Hs.
  assert (sin alpha * sin alpha + cos alpha * cos alpha = 1) as H1.
  { pose proof (sin2_cos2 alpha) as H. unfold Rsqr in H. lra. }
  split.
  - transitivity (rho * sin theta * (sin alpha * sin alpha + cos alpha * cos alpha));
      [ring|rewrite H1; ring].
  - transitivity (rho * cos theta * (sin alpha * sin alpha + cos alpha * cos alpha));
      [ring|rewrite H1; ring].
Qed.

(** ** Sorting by a key *)

Lemma js_insert_elem {A} (after : A -> A -> bool) a s x :
  x ∈ js_insert after a s ↔ x = a ∨ x ∈ s.
Proof. rewrite (js_insert_perm after a s). apply elem_of_cons. Qed.

Lemma js_sort_ext_in {A} (f g : A -> A -> bool) (l : list A) :
  (∀ a b, a ∈ l → b ∈ l → f a b = g a b) → js_sort f l = js_sort g l.
Proof.
  induction l as [|a l IH]; intros Hfg; simpl; [done|].
  rewrite IH by (intros x y Hx Hy; apply Hfg; by right).
  assert (∀ b, b ∈ js_sort g l → f a b = g a b) as Ha.
  { intros b Hb. apply Hfg; [by left|]. right. by rewrite <- (js_sort_perm g l). }
  revert Ha. generalize (js_sort g l). intros s. induction s as [|b s IHs]; intros Ha.
  - done.
  - simpl. rewrite (Ha b) by (by left). rewrite IHs; [done|].
    intros c Hc. apply Ha. by right.
Qed.

Section SortedByKey.
Context {A : Type} (key : A -> R).

Lemma js_insert_desc a s :
  Sorted (desc key) s → Sorted (desc key) (js_insert (after_desc key) a s).
Proof.
  induction s as [|b s IH]; intros Hs; simpl.
  - by repeat constructor.
  - apply Sorted_inv in Hs as [Hs Hb]. unfold after_desc at 1. case_bool_decide as Hab.
    + constructor; [by apply IH|].
      destruct s as [|c s]; simpl.
      * constructor. unfold desc. lra.
      * apply HdRel_inv in Hb. destruct (after_desc key a c); constructor; [done|].
        unfold desc. lra.
    + constructor; [by constructor|]. constructor. unfold desc. lra.
Qed.

Lemma js_sort_desc l : Sorted (desc key) (js_sort (after_desc key) l).
Proof.
  induction l as [|a l IH]; simpl; [constructor|]. by apply js_insert_desc.
Qed.
End SortedByKey.

(** ** Orientation: what [orientateCircles] achieves *)

Lemma sort_circles_run after circles (h : store) :
  valid (length h) circles →
  sort_circles after circles h
  = (Ok (js_sort (fun a b => match h !! a, h !! b with
                             | Some ca, Some cb => after ca cb
                             | _, _ => false
                             end) circles), h).
Proof.
  intros Hv. unfold sort_circles.
  destruct (mapM (fun l => h !! l) circles) eqn:Hm; [done|].
  exfalso. apply eq_None_not_Some in Hm. apply Hm, mapM_is_Some.
  eapply Forall_impl; [exact Hv|]. intros l Hl. by apply lookup_lt_is_Some.
Qed.

Section Orientate.
Context (n : nat) (rho : loc -> R).

Lemma shaped_insert h l c c' :
  shaped n rho h → h !! l = Some c → Circle.radius c' = Circle.radius c →
  shaped n rho (<[l := c']> h).
Proof.
  intros [Hn Hr] Hl Hc. split; [by rewrite length_insert|].
  intros k. rewrite <- Hr. unfold radius_of.
  destruct (decide (k = l)) as [->|Hne].
  - rewrite list_lookup_insert_eq by (by eapply lookup_lt_Some).
    rewrite Hl. simpl. done.
  - by rewrite list_lookup_insert_ne.
Qed.

Lemma origin_at_insert h first l c c' :
  origin_at first h → h !! l = Some c →
  (Circle.x c = 0 → Circle.y c = 0 → Circle.x c' = 0 ∧ Circle.y c' = 0) →
  origin_at first (<[l := c']> h).
Proof.
  intros (c0 & H0 & Hx & Hy) Hl Hc. unfold origin_at.
  destruct (decide (first = l)) as [->|Hne].
  - exists c'. rewrite list_lookup_insert_eq by (by eapply lookup_lt_Some).
    split; [done|]. apply Hc; congruence.
  - exists c0. by rewrite list_lookup_insert_ne.
Qed.

Lemma sort_circles_runs order circles :
  valid n circles →
  runs (sort_circles (orientation_after order) circles) (shaped n rho)
    (fun r h => shaped n rho h ∧ r ≡ₚ circles ∧
                (order = Null → Sorted (fun a b => rho b <= rho a) r)).
Proof.
  intros Hv h [Hn Hr]. rewrite sort_circles_run by (by rewrite Hn).
  eexists. split; [done|]. simpl. split_and!; [done|apply js_sort_perm|].
  intros ->. simpl.
  rewrite (js_sort_ext_in _ (after_desc rho)); [apply js_sort_desc|].
  intros a b Ha Hb.
  destruct (valid_lookup n circles a h Hv Ha Hn) as [ca Hca].
  destruct (valid_lookup n circles b h Hv Hb Hn) as [cb Hcb].
  rewrite Hca, Hcb. unfold num_after, after_desc. rewrite <- !Hr.
  unfold radius_of. by rewrite Hca, Hcb.
Qed.
End Orientate.

Section OrientatePhases.
Context (n : nat) (rho : loc -> R).

Lemma shaped_lookup r h l : valid n r → shaped n rho h → l ∈ r → is_Some (h !! l).
Proof. intros Hv [Hn _] Hl. by eapply valid_lookup. Qed.

Lemma shaped_updates r (F : Circle -> Circle) (inv : store -> Prop) :
  valid n r → (∀ c, Circle.radius (F c) = Circle.radius c) →
  (∀ l h c, l ∈ r → inv h → h !! l = Some c → inv (<[l := F c]> h)) →
  runs (for_each (fun l => update l F) r)
    (fun h => shaped n rho h ∧ inv h) (fun _ h => shaped n rho h ∧ inv h).
Proof.
  intros Hv HF Hinv. apply runs_for_each. intros l Hl. apply runs_update.
  - intros h [Hh _]. by eapply shaped_lookup.
  - intros h c [Hh Hi] Hc. split; [by eapply shaped_insert|by eapply Hinv].
Qed.

Lemma translate_runs r :
  valid n r → NoDup r →
  runs (match r with
        | [] => mret ()
        | first :: _ =>
            largest ← load first;
            for_each (fun l => update l (fun c =>
                        Circle.set_xy c (Circle.x c - Circle.x largest)
                          (Circle.y c - Circle.y largest))) r
        end)
    (shaped n rho) (fun _ h => shaped n rho h ∧ first_at_origin r h).
Proof.
  intros Hvalid Hnodup.
  unfold first_at_origin. destruct r as [|first rest].
  { apply runs_ret. intros h Hh. split; [done|]. intros first [=]. }
  assert (∃ r, r = first :: rest) as [r Hr] by eauto. rewrite <- Hr in *.
  assert (first ∈ r) as Hfirst by (rewrite Hr; by left).
  eapply runs_bind.
  { apply runs_load. intros h Hh. by eapply shaped_lookup. }
  intros largest.
  set (F := fun c => Circle.set_xy c (Circle.x c - Circle.x largest)
                       (Circle.y c - Circle.y largest)).
  eapply runs_conseq.
  - apply (runs_for_each_prefix _ r
             (fun done h => shaped n rho h ∧
                            (first ∈ done → origin_at first h) ∧
                            (first ∉ done → h !! first = Some largest))).
    intros done a rest' Heq. apply runs_update.
    + intros h [Hh _]. eapply shaped_lookup; [done|done|].
      rewrite Heq. apply elem_of_app. right. by left.
    + intros h c (Hh & Hin & Hout) Hc.
      rewrite Heq in Hnodup. apply NoDup_app in Hnodup as (_ & Hdisj & _).
      split_and!.
      * eapply shaped_insert; [done|done|done].
      * intros Hmem. destruct (decide (first = a)) as [->|Hne].
        -- assert (a ∉ done) as Hnot.
           { intros Ha. apply (Hdisj a Ha). by left. }
           rewrite (Hout Hnot) in Hc. injection Hc as <-.
           exists (F largest).
           rewrite list_lookup_insert_eq
             by (apply lookup_lt_is_Some; rewrite Hout; eauto).
           split; [done|]. simpl. lra.
        -- apply elem_of_app in Hmem as [Hmem|Hmem%list_elem_of_singleton]; [|done].
           destruct (Hin Hmem) as (c0 & Hc0 & Hxy). exists c0.
           by rewrite list_lookup_insert_ne.
      * intros Hnot. rewrite list_lookup_insert_ne.
        -- apply Hout. intros Hd. apply Hnot, elem_of_app. by left.
        -- intros ->. apply Hnot, elem_of_app. right. by apply list_elem_of_singleton.
  - intros h [Hh Hl]. split_and!; [done| |done]. by intros ?%elem_of_nil.
  - intros u h (Hh & Hin & _). split; [done|]. rewrite Hr. intros ? [= <-].
    apply Hin. done.
Qed.

Lemma subset_hack_runs r :
  valid n r → NoDup r →
  runs (match r with
        | [l1; l2] =>
            c1 ← load l1; c2 ← load l2;
            if decide (distance (center c1) (center c2)
                       < Rabs (Circle.radius c2 - Circle.radius c1))
            then update l2 (fun c =>
                   Circle.set_xy c
                     (Circle.x c1 + Circle.radius c1 - Circle.radius c2 - 1e-10)
                     (Circle.y c))
            else mret ()
        | _ => mret ()
        end)
    (fun h => shaped n rho h ∧ first_at_origin r h)
    (fun _ h => shaped n rho h ∧ first_at_origin r h).
Proof.
  intros Hvalid Hnodup.
  destruct r as [|l1 [|l2 [|l3 r']]]; try (by apply runs_ret).
  assert (l1 ∈ [l1; l2] ∧ l2 ∈ [l1; l2]) as [H1 H2].
  { split; [by left|]. right. by left. }
  assert (l1 ≠ l2) as Hne.
  { apply NoDup_cons in Hnodup as [Hn _]. intros ->. apply Hn. by left. }
  eapply runs_bind.
  { apply runs_load. intros h [Hh _]. by eapply shaped_lookup. }
  intros c1. eapply runs_bind.
  { apply runs_load. intros h [[Hh _] _]. by eapply shaped_lookup. }
  intros c2. case_decide.
  - apply runs_update.
    + intros h [[[Hh _] _] _]. by eapply shaped_lookup.
    + intros h c [[[Hh Ho] _] _] Hc. split; [by eapply shaped_insert|].
      intros first [= <-]. destruct (Ho l1 eq_refl) as (c0 & Hc0 & Hxy).
      exists c0. by rewrite list_lookup_insert_ne.
  - apply runs_ret. by intros h [[Hh _] _].
Qed.

Lemma rotate_runs r theta :
  valid n r → NoDup r →
  runs (match r with
        | _ :: second :: _ =>
            c1 ← load second;
            let rotation := atan2 (Circle.x c1) (Circle.y c1) - theta in
            for_each (fun l => update l (rotate (cos rotation) (sin rotation))) r
        | _ => mret ()
        end)
    (fun h => shaped n rho h ∧ first_at_origin r h)
    (fun _ h => shaped n rho h ∧ first_at_origin r h ∧ second_at_angle theta r h).
Proof.
  intros Hvalid Hnodup. unfold second_at_angle.
  destruct r as [|first [|second rest]].
  { apply runs_ret. intros h [Hh Ho]. split_and!; [done|done|]. intros ? [=]. }
  { apply runs_ret. intros h [Hh Ho]. split_and!; [done|done|]. intros ? [=]. }
  assert (∃ r, r = first :: second :: rest) as [r Hr] by eauto. rewrite <- Hr in *.
  assert (second ∈ r) as Hsecond by (rewrite Hr; right; by left).
  eapply runs_bind.
  { apply runs_load. intros h [Hh _]. by eapply shaped_lookup. }
  intros c1. cbv zeta.
  set (rotation := atan2 (Circle.x c1) (Circle.y c1) - theta).
  eapply runs_conseq.
  - apply (runs_for_each_prefix _ r
             (fun done h => shaped n rho h ∧ first_at_origin r h ∧
                            (second ∈ done → polar_at theta second h) ∧
                            (second ∉ done → h !! second = Some c1))).
    intros done a rest' Heq. apply runs_update.
    + intros h [Hh _]. eapply shaped_lookup; [done|done|].
      rewrite Heq. apply elem_of_app. right. by left.
    + intros h c (Hh & Ho & Hin & Hout) Hc.
      rewrite Heq in Hnodup. apply NoDup_app in Hnodup as (_ & Hdisj & _).
      split_and!.
      * eapply shaped_insert; [done|done|done].
      * intros f Hf. eapply origin_at_insert; [by apply Ho|done|].
        intros Hx Hy. simpl. rewrite Hx, Hy. lra.
      * intros Hmem. destruct (decide (second = a)) as [->|Hne].
        -- assert (a ∉ done) as Hnot.
           { intros Ha. apply (Hdisj a Ha). by left. }
           rewrite (Hout Hnot) in Hc. injection Hc as <-.
           destruct (rotate_to_angle (Circle.x c1) (Circle.y c1) theta)
             as (Hpos & Hx & Hy).
           exists (rotate (cos rotation) (sin rotation) c1),
             (sqrt (Circle.x c1 * Circle.x c1 + Circle.y c1 * Circle.y c1)).
           rewrite list_lookup_insert_eq
             by (apply lookup_lt_is_Some; rewrite Hout; eauto).
           split_and!; [done|exact Hpos|exact Hx|exact Hy].
        -- apply elem_of_app in Hmem as [Hmem|Hmem%list_elem_of_singleton]; [|done].
           destruct (Hin Hmem) as (c0 & rh & Hc0 & Hxy). exists c0, rh.
           by rewrite list_lookup_insert_ne.
      * intros Hnot. rewrite list_lookup_insert_ne.
        -- apply Hout. intros Hd. apply Hnot, elem_of_app. by left.
        -- intros ->. apply Hnot, elem_of_app. right. by apply list_elem_of_singleton.
  - intros h [[Hh Ho] Hl]. split_and!; [done|done| |done]. by intros ?%elem_of_nil.
  - intros u h (Hh & Ho & Hin & _). split_and!; [done|done|].
    rewrite Hr. intros ? [= <-]. by apply Hin.
Qed.

Lemma mirror_runs r theta :
  valid n r → NoDup r →
  runs (match r with
        | _ :: second :: third :: _ =>
            c2 ← load third;
            let angle :=
              normalise_angle (atan2 (Circle.x c2) (Circle.y c2) - theta) in
            if decide (angle > PI) then
              c1 ← load second;
              let slope := Circle.y c1 / (1e-10 + Circle.x c1) in
              for_each (fun l => update l (mirror slope)) r
            else mret ()
        | _ => mret ()
        end)
    (fun h => shaped n rho h ∧ first_at_origin r h ∧ second_at_angle theta r h)
    (fun _ h => shaped n rho h ∧ first_at_origin r h ∧
                ∀ l1 l2, r = [l1; l2] → polar_at theta l2 h).
Proof.
  intros Hvalid Hnodup.
  destruct r as [|first [|second [|third rest]]].
  { apply runs_ret. intros h (Hh & Ho & Hs). split_and!; [done|done|]. intros ?? [=]. }
  { apply runs_ret. intros h (Hh & Ho & Hs). split_and!; [done|done|]. intros ?? [=]. }
  { apply runs_ret. intros h (Hh & Ho & Hs). split_and!; [done|done|].
    intros ?? [= <- <-]. by apply Hs. }
  assert (∃ r, r = first :: second :: third :: rest) as [r Hr] by eauto.
  rewrite <- Hr in *.
  assert (second ∈ r ∧ third ∈ r) as [H2 H3].
  { rewrite Hr. split; right; [by left|right; by left]. }
  apply (runs_conseq _ _ (fun h => shaped n rho h ∧ first_at_origin r h)
           _ (fun _ h => shaped n rho h ∧ first_at_origin r h)).
  2: { intros h (Hh & Ho & _). exact (conj Hh Ho). }
  2: { intros u h [Hh Ho]. split_and!; [done|done|]. rewrite Hr. intros ?? [=]. }
  eapply runs_bind.
  { apply runs_load. intros h [Hh _]. by eapply shaped_lookup. }
  intros c2. cbv zeta. case_decide.
  - eapply runs_bind.
    { apply runs_load. intros h [[Hh _] _]. by eapply shaped_lookup. }
    intros c1.
    eapply runs_conseq.
    + apply (shaped_updates r _ (first_at_origin r)); [done|done|].
      intros l h c Hl Ho Hc f Hf. eapply origin_at_insert; [by apply Ho|done|].
      intros Hx Hy. simpl. rewrite Hx, Hy. unfold Rdiv. split; ring.
    + by intros h [[Hh _] _].
    + done.
  - apply runs_ret. by intros h [Hh _].
Qed.

End OrientatePhases.

(** Orientation and packing only write positions. *)
Section PresPosition.
Context (rel : Circle -> Circle -> Prop) `{!Reflexive rel, !Transitive rel}.
Hypothesis Hxy : ∀ c x y, rel c (Circle.set_xy c x y).

Lemma pres_orientateCircles circles orientation order :
  pres rel (orientateCircles circles orientation order).
Proof using All.
  unfold orientateCircles.
  apply (pres_bind rel); [apply (pres_sort_circles rel)|]. intros r.
  apply (pres_bind rel).
  { destruct r as [|first rest]; [apply (pres_ret rel)|].
    apply (pres_bind rel); [apply (pres_load rel)|]. intros largest.
    apply (pres_for_each rel). intros l. apply (pres_update rel). intros c. apply Hxy. }
  intros u1. apply (pres_bind rel).
  { destruct r as [|l1 [|l2 [|l3 r']]]; try apply (pres_ret rel).
    apply (pres_bind rel); [apply (pres_load rel)|]. intros c1.
    apply (pres_bind rel); [apply (pres_load rel)|]. intros c2.
    case_decide; [|apply (pres_ret rel)].
    apply (pres_update rel). intros c. apply Hxy. }
  intros u2. apply (pres_bind rel).
  { destruct r as [|l1 [|l2 r']]; try apply (pres_ret rel).
    apply (pres_bind rel); [apply (pres_load rel)|]. intros c1.
    apply (pres_for_each rel). intros l. apply (pres_update rel). intros c. apply Hxy. }
  intros u3. apply (pres_bind rel).
  { destruct r as [|l1 [|l2 [|l3 r']]]; try apply (pres_ret rel).
    apply (pres_bind rel); [apply (pres_load rel)|]. intros c2.
    cbv zeta. case_decide; [|apply (pres_ret rel)].
    apply (pres_bind rel); [apply (pres_load rel)|]. intros c1.
    apply (pres_for_each rel). intros l. apply (pres_update rel). intros c. apply Hxy. }
  intros u4. apply (pres_ret rel).
Qed.


End PresPosition.

Section OrientateAll.
Context (n : nat) (rho : loc -> R).

Lemma orientateCircles_runs circles orientation order :
  valid n circles → NoDup circles →
  runs (orientateCircles circles orientation order) (shaped n rho)
    (fun r h => shaped n rho h ∧ r ≡ₚ circles ∧
                (order = Null → Sorted (fun a b => rho b <= rho a) r) ∧
                first_at_origin r h ∧
                ∀ l1 l2, r = [l1; l2] → polar_at (nullish orientation 0) l2 h).
Proof.
  intros Hvalid Hnodup. unfold orientateCircles.
  eapply runs_bind; [by apply sort_circles_runs|]. intros r.
  apply (runs_pure _ _ _ (r ≡ₚ circles ∧
                          (order = Null → Sorted (fun a b => rho b <= rho a) r))).
  { by intros h (_ & ? & ?). }
  intros [Hperm Hsorted].
  assert (valid n r) as Hv by (unfold valid; by rewrite Hperm).
  assert (NoDup r) as Hnd by (by rewrite Hperm).
  apply (runs_conseq _ _ (shaped n rho) _
           (fun r' h => r' = r ∧ shaped n rho h ∧ first_at_origin r h ∧
                        ∀ l1 l2, r = [l1; l2] → polar_at (nullish orientation 0) l2 h)).
  2: { by intros h [Hh _]. }
  2: { intros r' h (-> & Hh & Ho & Hp). done. }
  eapply runs_bind; [by apply translate_runs|]. intros u1.
  eapply runs_bind; [by apply subset_hack_runs|]. intros u2.
  eapply runs_bind; [by apply (rotate_runs n rho r (nullish orientation 0))|]. intros u3.
  eapply runs_bind; [by apply (mirror_runs n rho r (nullish orientation 0))|]. intros u4.
  apply runs_ret. intros h (Hh & Ho & Hp). done.
Qed.
End OrientateAll.

Lemma Sorted_weaken {A} (R1 R2 : A -> A -> Prop) (l : list A) :
  (∀ a b, R1 a b → R2 a b) → Sorted R1 l → Sorted R2 l.
Proof.
  intros Hw Hs. induction Hs as [|a l Hs IH Hd]; constructor; [done|].
  destruct Hd; constructor. by apply Hw.
Qed.

Lemma shaped_initial (h : store) : shaped (length h) (radius_of h) h.
Proof. by split. Qed.

Lemma same_but_position_xy c x y : same_but_position c (Circle.set_xy c x y).
Proof. by destruct c. Qed.

(** X9.  Called with [null] for the order and an orientation of
    moderate size on an array of distinct circles, [orientateCircles]
    returns, and the array it leaves behind is the given array sorted
    by descending radius.  No circle changes but in its position. *)
Theorem orientateCircles_null_sorts (circles : list loc) (orientation : jsopt R)
    (h : store) :
  valid (length h) circles → NoDup circles → moderate_angle orientation →
  ∃ r h', orientateCircles circles orientation Null h = (Ok r, h') ∧
          r ≡ₚ circles ∧
          evolves same_but_position h h' ∧
          StronglySorted (fun a b => radius_of h' b <= radius_of h' a) r.
Proof.
  intros Hv Hnd _.
  destruct (orientateCircles_runs (length h) (radius_of h) circles orientation Null
              Hv Hnd h (shaped_initial h)) as (r & Hr & Hh & Hperm & Hsorted & _).
  pose proof (pres_orientateCircles same_but_position same_but_position_xy
                circles orientation Null h) as Hev.
  destruct (orientateCircles circles orientation Null h) as [res h'].
  simpl in *. subst res. exists r, h'. split_and!; [done|done|done|].
  apply Sorted_StronglySorted.
  { intros a b c. lra. }
  destruct Hh as [_ Hrad].
  eapply Sorted_weaken; [|by apply Hsorted].
  intros a b. simpl. by rewrite !Hrad.
Qed.

Lemma small_large_valid : valid (length small_large) [0%nat; 1%nat] ∧ NoDup [0%nat; 1%nat].
Proof.
  split.
  - repeat constructor.
  - apply NoDup_cons. split; [|apply NoDup_singleton].
    intros Hin%list_elem_of_singleton. discriminate.
Qed.

Lemma moderate_right_angle : moderate_angle (Val (PI / 2)).
Proof.
  unfold moderate_angle. simpl nullish.
  pose proof PI_RGT_0. pose proof PI_4.
  rewrite Rabs_right by lra.
  assert (4 <= 2 ^ 32) by (simpl; lra). lra.
Qed.

Lemma orientateCircles_null_sorts_witness :
  ∃ r h', orientateCircles [0%nat; 1%nat] (Val (PI / 2)) Null small_large = (Ok r, h') ∧
          r ≡ₚ [0%nat; 1%nat] ∧
          evolves same_but_position small_large h' ∧
          StronglySorted (fun a b => radius_of h' b <= radius_of h' a) r.
Proof.
  apply orientateCircles_null_sorts;
    [apply small_large_valid|apply small_large_valid|apply moderate_right_angle].
Defined.

(** X10.  On an array of one or two distinct circles, sorted by one of
    the two built-in orders ([null] or none), [orientateCircles]
    returns with the first circle of the array it leaves behind centred
    at the origin, whatever the orientation. *)
Theorem orientateCircles_places (circles : list loc) (orientation : jsopt R)
    (order : jsopt (Circle -> Circle -> R)) (h : store) :
  valid (length h) circles → NoDup circles → (length circles <= 2)%nat →
  (∀ caller, order ≠ Val caller) →
  ∃ r h', orientateCircles circles orientation order h = (Ok r, h') ∧
          r ≡ₚ circles ∧
          (∀ first, head r = Some first → origin_at first h').
Proof.
  intros Hv Hnd _ _.
  destruct (orientateCircles_runs (length h) (radius_of h) circles orientation order
              Hv Hnd h (shaped_initial h)) as (r & Hr & _ & Hperm & _ & Ho & _).
  destruct (orientateCircles circles orientation order h) as [res h'].
  simpl in *. subst res. by exists r, h'.
Qed.

Lemma orientateCircles_places_witness :
  ∃ r h', orientateCircles [0%nat; 1%nat] (Val (PI / 2)) Undefined small_large
          = (Ok r, h') ∧
          r ≡ₚ [0%nat; 1%nat] ∧
          (∀ first, head r = Some first → origin_at first h').
Proof.
  apply orientateCircles_places; [apply small_large_valid|apply small_large_valid| |].
  - simpl. lia.
  - intros caller. discriminate.
Defined.

(** ** Layouts are area proportional *)

Lemma moved_refl o : moved o o.
Proof. intros k. destruct (obj_get o k); constructor. reflexivity. Qed.

Lemma moved_trans o1 o2 o3 : moved o1 o2 → moved o2 o3 → moved o1 o3.
Proof.
  intros H1 H2 k. specialize (H1 k). specialize (H2 k).
  destruct H1 as [c1 c2 H12|]; inversion H2 as [? c3 H23|]; subst; constructor.
  by transitivity c2.
Qed.

Lemma moved_set o k c x y :
  obj_get o k = Some c → moved o (obj_set k (Circle.set_xy c x y) o).
Proof.
  intros Hk k'. rewrite obj_get_set. destruct (decide (k = k')) as [<-|?].
  - rewrite Hk. constructor. apply same_but_position_xy.
  - destruct (obj_get o k'); constructor. reflexivity.
Qed.

Lemma proportional_moved areas o o' : proportional areas o → moved o o' → proportional areas o'.
Proof.
  intros [Hkeys Hc] Hm. split.
  - intros k. rewrite <- Hkeys. specialize (Hm k).
    destruct Hm; split; intros [? ?]; done.
  - intros k c' Hk. specialize (Hm k). rewrite Hk in Hm.
    inversion Hm as [c ? Hcc Heq|]; subst. symmetry in Heq.
    destruct (Hc k c Heq) as (area & Hin & Hs & Hr & Hsz & Hid).
    exists area. unfold same_but_position in Hcc. rewrite Hcc. by destruct c.
Qed.

Lemma single_ids_snoc areas area :
  single_ids (areas ++ [area])
  = (single_ids areas ++ match sets area with [a] => [a] | _ => [] end)%list.
Proof. unfold single_ids. rewrite bind_app. simpl. by rewrite app_nil_r. Qed.

Lemma greedy_init_spec areas :
  proportional areas (foldl greedy_init_step ([], []) areas).1 ∧
  ∀ k, is_Some (obj_get (foldl greedy_init_step ([], []) areas).2 k)
       ↔ k ∈ single_ids areas.
Proof.
  induction areas as [|area areas IH] using rev_ind.
  { simpl. split; [split|].
    - intros k. split; [by intros [? ?]|by intros ?%elem_of_nil].
    - by intros k c.
    - intros k. split; [by intros [? ?]|by intros ?%elem_of_nil]. }
  rewrite foldl_app. simpl.
  destruct (foldl greedy_init_step ([], []) areas) as [circles overlaps].
  destruct IH as [[Hkeys Hc] Ho]. simpl in *.
  unfold proportional. rewrite !single_ids_snoc. unfold greedy_init_step.
  destruct (sets area) as [|a [|b l]] eqn:Hs; simpl.
  - rewrite app_nil_r. split; [split|]; [done| |done].
    intros k c Hk. destruct (Hc k c Hk) as (ar & Hin & ?). exists ar.
    split; [|done]. apply elem_of_app. by left.
  - split; [split|].
    + intros k. rewrite obj_get_set, elem_of_app, list_elem_of_singleton, <- Hkeys.
      destruct (decide (a = k)) as [->|?]; [naive_solver|naive_solver].
    + intros k c. rewrite obj_get_set. destruct (decide (a = k)) as [->|?].
      * intros [= <-]. exists area. split; [|done].
        apply elem_of_app. right. by left.
      * intros Hk. destruct (Hc k c Hk) as (ar & Hin & ?). exists ar.
        split; [|done]. apply elem_of_app. by left.
    + intros k. rewrite obj_get_set, elem_of_app, list_elem_of_singleton, <- Ho.
      destruct (decide (a = k)) as [->|?]; [naive_solver|naive_solver].
  - rewrite app_nil_r. split; [split|]; [done| |done].
    intros k c Hk. destruct (Hc k c Hk) as (ar & Hin & ?). exists ar.
    split; [|done]. apply elem_of_app. by left.
Qed.

(** *** A pair that names an unknown set *)

Lemma greedy_overlap_step_error circles so a e :
  greedy_overlap_step circles so a = Throw e → e = TypeError.
Proof.
  unfold greedy_overlap_step.
  destruct (sets a) as [|l [|r [|? ?]]]; try done.
  destruct (obj_get circles l) as [lc|]; [|by intros [= <-]].
  destruct (falsy (Circle.size lc)); [done|].
  destruct (obj_get circles r) as [rc|]; [|by intros [= <-]].
  by destruct (falsy (Circle.size rc)).
Qed.

Lemma greedy_overlap_step_dangling circles so a :
  dangling circles a → greedy_overlap_step circles so a = Throw TypeError.
Proof.
  intros (l & r & Hs & [Hl|(lc & Hl & Hf & Hr)]); unfold greedy_overlap_step;
    rewrite Hs, Hl; [done|]. by rewrite Hf, Hr.
Qed.

Lemma greedy_overlaps_dangling circles areas2 a : ∀ so,
  a ∈ areas2 → dangling circles a →
  foldl_result (greedy_overlap_step circles) so areas2 = Throw TypeError.
Proof.
  induction areas2 as [|b areas2 IH]; intros so Hin Hd; [by apply elem_of_nil in Hin|].
  simpl. destruct (greedy_overlap_step circles so b) as [so'|e] eqn:Hb.
  - apply elem_of_cons in Hin as [->|Hin]; [|by apply IH].
    by rewrite greedy_overlap_step_dangling in Hb.
  - by apply greedy_overlap_step_error in Hb as ->.
Qed.

Lemma greedyLayout_unknown `{CircleIntersection} areas :
  unknown_set areas → greedyLayout areas = Throw TypeError.
Proof.
  intros (ar & l & r & Hin & Hs & Hcase). unfold greedyLayout.
  pose proof (greedy_init_spec areas) as [[Hkeys Hc] _].
  destruct (foldl greedy_init_step ([], []) areas) as [circles overlaps].
  simpl in *.
  rewrite (greedy_overlaps_dangling circles _ ar); [done| |].
  - apply list_elem_of_filter. by rewrite Hs.
  - exists l, r. split; [done|].
    destruct (obj_get circles l) as [lc|] eqn:Hl; [|by left].
    right. exists lc. split; [done|].
    destruct Hcase as [Hno|[Hno Hsz]].
    { exfalso. apply Hno, Hkeys. eauto. }
    split.
    + destruct (Hc l lc Hl) as (a & Ha & Hsa & _ & Hsize & _).
      rewrite Hsize. simpl. apply bool_decide_eq_false. apply Hsz; [done|].
      by rewrite Hsa.
    + apply eq_None_not_Some. intros Hsome. by apply Hno, Hkeys.
Qed.

(** *** Placement only moves circles *)

Lemma positionSet_moved point index st : moved st.1 (positionSet point index st).1.
Proof.
  unfold positionSet. simpl. destruct (obj_get st.1 index) eqn:Hi.
  - by apply moved_set.
  - apply moved_refl.
Qed.

Section GreedyMoves.
Context `{CircleIntersection}.

Lemma greedy_try_moved areas setIndex st point :
  moved st.1.1 (greedy_try areas setIndex st point).1.1.
Proof.
  unfold greedy_try. destruct st as [[circles bestLoss] bestPoint]. simpl.
  assert (moved circles
            match obj_get circles setIndex with
            | Some c => obj_set setIndex (Circle.set_xy c point.1 point.2) circles
            | None => circles
            end) as Hm.
  { destruct (obj_get circles setIndex) eqn:Hi; [by apply moved_set|apply moved_refl]. }
  by case_decide.
Qed.

Lemma greedy_tries_moved areas setIndex points : ∀ st,
  moved st.1.1 (foldl (greedy_try areas setIndex) st points).1.1.
Proof.
  induction points as [|p points IH]; intros st; simpl; [apply moved_refl|].
  eapply moved_trans; [apply greedy_try_moved|apply IH].
Qed.

Lemma greedy_place_moved areas setOverlaps st entry st' :
  greedy_place areas setOverlaps st entry = Ok st' → moved st.1 st'.1.
Proof.
  unfold greedy_place. cbv zeta. case_decide; [done|].
  destruct (obj_get setOverlaps entry.1) as [all|]; [|done].
  case_decide; [done|].
  destruct (greedy_candidates _ _ _) as [points|]; [|done]. simpl.
  pose proof (greedy_tries_moved areas entry.1 points (st.1, 1e50, head points)) as Hm.
  destruct (foldl _ _ points) as [[circles bestLoss] bestPoint]. simpl in Hm.
  destruct bestPoint as [point|].
  - intros [= <-]. eapply moved_trans; [done|].
    apply (positionSet_moved point entry.1 (circles, st.2)).
  - destruct (obj_get circles entry.1); [done|]. by intros [= <-].
Qed.

Lemma greedy_places_moved areas setOverlaps entries : ∀ st st',
  foldl_result (greedy_place areas setOverlaps) st entries = Ok st' → moved st.1 st'.1.
Proof.
  induction entries as [|e entries IH]; intros st st'; simpl.
  - intros [= <-]. apply moved_refl.
  - destruct (greedy_place areas setOverlaps st e) as [st1|] eqn:He; [|done].
    intros Hrest. eapply moved_trans; [by eapply greedy_place_moved|by apply IH].
Qed.

Lemma greedyLayout_proportional areas circles :
  greedyLayout areas = Ok circles → proportional areas circles.
Proof.
  unfold greedyLayout.
  pose proof (greedy_init_spec areas) as [Hprop _].
  destruct (foldl greedy_init_step ([], []) areas) as [circles0 overlaps]. simpl in *.
  destruct (foldl_result (greedy_overlap_step circles0) overlaps _) as [so|]; [|done].
  simpl.
  destruct (foldl_result (greedy_place _ so) _ _) as [st|] eqn:Hst; [|done].
  simpl. intros [= <-].
  apply greedy_places_moved in Hst.
  eapply proportional_moved; [done|].
  eapply moved_trans; [|done]. apply (positionSet_moved _ _ (circles0, ∅)).
Qed.
End GreedyMoves.

Lemma single_ids_elem areas k :
  k ∈ single_ids areas ↔ ∃ a, a ∈ areas ∧ sets a = [k].
Proof.
  unfold single_ids. rewrite list_elem_of_bind. split.
  - intros (a & Hk & Ha). exists a. split; [done|].
    destruct (sets a) as [|x [|y l]]; try by apply elem_of_nil in Hk.
    by apply list_elem_of_singleton in Hk as ->.
  - intros (a & Ha & Hs). exists a. rewrite Hs. split; [by left|done].
Qed.

Section MDSProportional.
Context `{Fmin}.

Lemma mds_sets_spec areas : ∀ st : list Area * obj nat,
  (foldl (fun (st : list Area * obj nat) area =>
            match sets area with
            | [a] => (st.1 ++ [area],
                      if decide (a = "") then st.2
                      else obj_set a (length st.1) st.2)
            | _ => st
            end) st areas).1
  = (st.1 ++ filter (fun a => length (sets a) = 1%nat) areas)%list.
Proof.
  induction areas as [|area areas IH]; intros st; simpl; [by rewrite app_nil_r|].
  rewrite IH, filter_cons. destruct (sets area) as [|a [|b l]]; simpl; try done.
  by rewrite <- app_assoc.
Qed.

Lemma mds_circles_spec (best : option (list R * R)) norm (L : list (nat * Area)) :
  ∀ acc circles,
  foldl_result
    (fun (circles : CircleRecord) (iset : nat * Area) =>
       match sets iset.2 with
       | setName :: _ =>
           match best with
           | None => Throw TypeError
           | Some b =>
               Ok (obj_set setName
                     (Circle.mk (b.1 !!! (2 * iset.1)%nat * norm)
                        (b.1 !!! (2 * iset.1 + 1)%nat * norm)
                        (Some (length (obj_keys circles)))
                        (Some (size iset.2))
                        (sqrt (size iset.2 / PI)) None setName)
                     circles)
           end
       | [] => Ok circles
       end) acc L = Ok circles →
  (∀ k, is_Some (obj_get circles k) ↔
        is_Some (obj_get acc k) ∨ ∃ ia, ia ∈ L ∧ head (sets ia.2) = Some k) ∧
  (∀ k c, obj_get circles k = Some c →
          obj_get acc k = Some c ∨
          ∃ ia, ia ∈ L ∧ head (sets ia.2) = Some k ∧
                Circle.radius c = sqrt (size ia.2 / PI) ∧
                Circle.size c = Some (size ia.2) ∧ Circle.setid c = k).
Proof.
  induction L as [|[i a] L IH]; intros acc circles; simpl.
  - intros [= <-]. split.
    + intros k. split; [auto|]. intros [?|(? & ?%elem_of_nil & _)]; done.
    + auto.
  - destruct (sets a) as [|setName rest] eqn:Hs.
    + intros Hrest. destruct (IH _ _ Hrest) as [Hk Hc]. split.
      * intros k. rewrite Hk. split; [intros [?|(ia & Hin & Hh)]; [auto|]|].
        -- right. exists ia. split; [by right|done].
        -- intros [?|(ia & [->|Hin]%elem_of_cons & Hh)]; [auto| |].
           ++ simpl in Hh. by rewrite Hs in Hh.
           ++ right. eauto.
      * intros k c Hget. destruct (Hc k c Hget) as [?|(ia & Hin & ?)]; [auto|].
        right. exists ia. split; [by right|done].
    + destruct best as [b|]; [|done]. intros Hrest.
      destruct (IH _ _ Hrest) as [Hk Hc]. split.
      * intros k. rewrite Hk, obj_get_set.
        destruct (decide (setName = k)) as [->|Hne].
        -- split; [|eauto]. intros _. right. exists (i, a). split; [by left|].
           simpl. by rewrite Hs.
        -- split; [intros [?|(ia & Hin & Hh)]; [auto|]|].
           ++ right. exists ia. split; [by right|done].
           ++ intros [?|(ia & [->|Hin]%elem_of_cons & Hh)]; [auto| |].
              ** simpl in Hh. rewrite Hs in Hh. simpl in Hh. congruence.
              ** right. eauto.
      * intros k c Hget. destruct (Hc k c Hget) as [Hacc|(ia & Hin & ?)].
        -- rewrite obj_get_set in Hacc. destruct (decide (setName = k)) as [->|Hne].
           ++ injection Hacc as <-. right. exists (i, a). split; [by left|].
              simpl. by rewrite Hs.
           ++ by left.
        -- right. exists ia. split; [by right|done].
Qed.

Lemma constrainedMDSLayout_proportional mathRandom areas params circles :
  constrainedMDSLayout mathRandom areas params = Ok circles →
  proportional areas circles.
Proof.
  unfold constrainedMDSLayout. cbv zeta.
  pose proof (mds_sets_spec areas ([], [])) as Hsets.
  destruct (foldl _ ([], []) areas) as [sets_ setids]. simpl in Hsets. subst sets_.
  destruct (getDistanceMatrices _ _ _) as [[distances constraints]|]; [|done].
  simpl. intros Hrun. apply mds_circles_spec in Hrun as [Hk Hc].
  assert (∀ (ia : nat * Area) k,
            ia ∈ imap (fun i a => (i, a)) (filter (fun a => length (sets a) = 1%nat) areas) →
            head (sets ia.2) = Some k → ia.2 ∈ areas ∧ sets ia.2 = [k]) as Hsingle.
  { intros [i a] k Hin Hh. apply list_elem_of_lookup in Hin as [j Hj].
    apply list_lookup_imap_Some in Hj as (a' & Ha' & [= -> ->]).
    apply list_elem_of_lookup_2, list_elem_of_filter in Ha' as [Hlen Hin].
    split; [done|]. simpl in *.
    destruct (sets a') as [|x [|y l]]; try done. simpl in Hh. congruence. }
  split.
  - intros k. rewrite Hk, single_ids_elem. split.
    + intros [[? ?]|(ia & Hin & Hh)]; [done|].
      exists ia.2. by apply Hsingle.
    + intros (a & Ha & Hs). right.
      assert (a ∈ filter (fun a => length (sets a) = 1%nat) areas) as Hf.
      { apply list_elem_of_filter. by rewrite Hs. }
      apply list_elem_of_lookup in Hf as [i Hi].
      exists (i, a). split; [|simpl; by rewrite Hs].
      apply list_elem_of_lookup. exists i. by rewrite list_lookup_imap, Hi.
  - intros k c Hget. destruct (Hc k c Hget) as [?|(ia & Hin & Hh & ?)]; [done|].
    exists ia.2. destruct (Hsingle ia k Hin Hh). done.
Qed.
End MDSProportional.

Lemma moved_imap (X Y : nat -> R) (o : CircleRecord) :
  moved o (imap (fun i (kc : string * Circle) =>
                   (kc.1, Circle.set_xy kc.2 (X i) (Y i))) o).
Proof.
  revert X Y. induction o as [|[k c] o IH]; intros X Y k'; simpl; [constructor|].
  case_decide.
  - constructor. apply same_but_position_xy.
  - apply (IH (X ∘ S) (Y ∘ S)).
Qed.

Lemma proportional_completed localeCompare areas circles :
  proportional (addMissingAreas localeCompare areas) circles → proportional areas circles.
Proof.
  intros [Hk Hc]. split.
  - intros k. rewrite Hk, !single_ids_elem. unfold addMissingAreas. split.
    + intros (a & [Ha|Ha]%elem_of_app & Hs); [eauto|].
      apply missing_pairs_elem in Ha as (x & y & -> & _). done.
    + intros (a & Ha & Hs). exists a. split; [|done]. apply elem_of_app. by left.
  - intros k c Hget. destruct (Hc k c Hget) as (a & Ha & Hs & Hrest).
    exists a. split; [|done]. unfold addMissingAreas in Ha.
    apply elem_of_app in Ha as [Ha|Ha]; [done|].
    apply missing_pairs_elem in Ha as (x & y & -> & _). done.
Qed.

Section VennProportional.
Context `{CircleIntersection} `{Fmin}.

Lemma layoutFunctionMap_proportional mathRandom l areas params circles :
  layoutFunctionMap mathRandom l areas params = Ok circles → proportional areas circles.
Proof.
  destruct l; simpl.
  - apply greedyLayout_proportional.
  - apply constrainedMDSLayout_proportional.
  - unfold bestInitialLayout, bestInitialLayout_of.
    destruct (greedyLayout areas) as [initial|] eqn:Hg; [|done]. simpl.
    apply greedyLayout_proportional in Hg.
    case_decide; [|by intros [= <-]].
    destruct (constrainedMDSLayout mathRandom areas params) as [constrained|] eqn:Hm;
      [|done]. simpl.
    apply constrainedMDSLayout_proportional in Hm.
    case_decide; by intros [= <-].
Qed.

(** X11.  Let no set of the Areas have a name inherited from
    [Object.prototype].  Whatever layout is chosen, when [venn]
    returns, its record has exactly one circle for every single-set
    identifier of the input, and each circle has the radius
    [sqrt (size / PI)], the size and the name of a single-set Area of
    that identifier: the circles are area proportional. *)
Theorem venn_area_proportional (localeCompare : string -> string -> Z)
    (mathRandom : R) (areas : list Area) (parameters : option Params)
    (circles : CircleRecord) :
  own_names areas →
  venn localeCompare mathRandom areas parameters = Ok circles →
  proportional areas circles.
Proof.
  intros _. unfold venn. cbv zeta.
  destruct (layoutFunctionMap _ _ _ _) as [initial|] eqn:Hl; [|done]. simpl.
  intros [= <-]. apply layoutFunctionMap_proportional in Hl.
  apply (proportional_completed localeCompare).
  eapply proportional_moved; [done|].
  apply (moved_imap (fun i => _ !!! (2 * i)%nat) (fun i => _ !!! (2 * i + 1)%nat)).
Qed.

(** X12.  Let no set of the Areas have a name inherited from
    [Object.prototype].  When a two-set Area names a set that has no
    single-set Area (its first set, or its second set when no
    single-set Area has size 0), [greedyLayout] throws a TypeError, and
    so does [venn] with the greedy or the default layout: completing
    the missing pairs does not help. *)
Theorem greedyLayout_unknown_set (localeCompare : string -> string -> Z)
    (mathRandom : R) (areas : list Area) (parameters : option Params) :
  own_names areas →
  unknown_set areas →
  greedyLayout areas = Throw TypeError ∧
  ((∀ p, parameters = Some p → layout p ≠ Some MDS) →
   venn localeCompare mathRandom areas parameters = Throw TypeError).
Proof.
  intros _ Hu. split; [by apply greedyLayout_unknown|].
  intros Hlayout. unfold venn. cbv zeta.
  assert (unknown_set (addMissingAreas localeCompare areas)) as Hu'.
  { destruct Hu as (ar & l & r & Hin & Hs & Hcase).
    pose proof (addMissingAreas_single_ids localeCompare areas) as Hids.
    exists ar, l, r. split; [unfold addMissingAreas; apply elem_of_app; by left|].
    split; [done|]. rewrite Hids.
    destruct Hcase as [?|[? Hsz]]; [by left|right]. split; [done|].
    intros a Ha Hlen. apply Hsz; [|done]. unfold addMissingAreas in Ha.
    apply elem_of_app in Ha as [Ha|Ha]; [done|].
    apply missing_pairs_elem in Ha as (x & y & -> & _). done. }
  apply greedyLayout_unknown in Hu'.
  destruct parameters as [p|]; simpl.
  - specialize (Hlayout p eq_refl). destruct (layout p) as [[]|]; simpl.
    + by rewrite Hu'.
    + done.
    + unfold bestInitialLayout, bestInitialLayout_of. by rewrite Hu'.
    + unfold bestInitialLayout, bestInitialLayout_of. by rewrite Hu'.
  - unfold bestInitialLayout, bestInitialLayout_of. by rewrite Hu'.
Qed.
End VennProportional.

Lemma venn_area_proportional_witness :
  proportional [mkArea ["A"] 12 None None]
    [("A", Circle.mk 0 0 (Some 0%nat) (Some 12) (sqrt (12 / PI)) None "A")].
Proof.
  apply (@venn_area_proportional no_intersection no_fmin codeUnitCompare 0
           [mkArea ["A"] 12 None None]
           (Some (mkParams (Some greedy) None None None))).
  - apply (bool_decide_unpack _). vm_compute. exact I.
  - reflexivity.
Defined.

Lemma greedyLayout_unknown_set_witness :
  greedyLayout (H := no_intersection) [mkArea ["A"; "B"] 1 None None] = Throw TypeError ∧
  venn (H := no_intersection) (H0 := no_fmin) codeUnitCompare 0
    [mkArea ["A"; "B"] 1 None None] None = Throw TypeError.
Proof.
  destruct (@greedyLayout_unknown_set no_intersection no_fmin codeUnitCompare 0
              [mkArea ["A"; "B"] 1 None None] None) as [H1 H2].
  - apply (bool_decide_unpack _). vm_compute. exact I.
  - exists (mkArea ["A"; "B"] 1 None None), "A", "B".
    split; [by left|]. split; [done|]. left. by intros ?%elem_of_nil.
  - split; [exact H1|]. apply H2. intros p [=].
Defined.

(** ** The distance and constraint matrices *)

Lemma square_row n m i : square n m → (i < n)%nat → length (m !!! i) = n.
Proof.
  intros [Hn Hrows] Hi. rewrite Forall_lookup in Hrows.
  destruct (lookup_lt_is_Some_2 m i) as [row Hrow]; [lia|].
  rewrite (list_lookup_total_correct _ _ _ Hrow). by eapply Hrows.
Qed.

Lemma mset_square n m i j v : square n m → square n (mset m i j v).
Proof.
  intros [Hn Hrows]. unfold mset. split; [by rewrite length_insert|].
  destruct (decide (i < n)%nat) as [Hi|Hi].
  - apply Forall_insert; [done|]. rewrite length_insert.
    by apply (square_row n m i).
  - rewrite list_insert_ge by lia. done.
Qed.

Lemma mget_mset n m i j v i' j' :
  square n m → (i < n)%nat → (j < n)%nat →
  mget (mset m i j v) i' j' = if decide (i = i' ∧ j = j') then v else mget m i' j'.
Proof.
  intros Hsq Hi Hj. pose proof Hsq as [Hn Hrows]. unfold mget, mset.
  destruct (decide (i = i')) as [<-|Hne].
  - rewrite list_lookup_total_insert_eq by lia.
    destruct (decide (j = j')) as [<-|Hnej].
    + rewrite decide_True by done.
      rewrite list_lookup_total_insert_eq; [done|]. by rewrite (square_row n m i).
    + rewrite decide_False by tauto. by rewrite list_lookup_total_insert_ne.
  - rewrite decide_False by tauto. by rewrite list_lookup_total_insert_ne.
Qed.

Lemma mset_pair_symmetric n m l r v :
  square n m → (l < n)%nat → (r < n)%nat → symmetric m →
  symmetric (mset (mset m r l v) l r v).
Proof.
  intros Hsq Hl Hr Hsym i j.
  rewrite !(mget_mset n) by (try apply mset_square; done).
  repeat case_decide; try done; try (exfalso; intuition congruence).
Qed.

Lemma mget_zerosM n i j : mget (zerosM n n) i j = 0.
Proof.
  unfold mget, zerosM, zeros.
  destruct (decide (i < n)%nat).
  - rewrite lookup_total_replicate_2 by done.
    destruct (decide (j < n)%nat).
    + by rewrite lookup_total_replicate_2.
    + rewrite list_lookup_total_alt, lookup_ge_None_2; [done|].
      rewrite length_replicate. lia.
  - rewrite (list_lookup_total_alt _ i), lookup_ge_None_2; [done|].
    rewrite length_replicate. lia.
Qed.

Lemma zerosM_square n : square n (zerosM n n).
Proof.
  unfold zerosM, zeros. split; [apply length_replicate|].
  apply Forall_replicate. apply length_replicate.
Qed.

Lemma gdm_step_ok sets_ setids st current st' :
  (∀ k i, obj_get setids k = Some i → (i < length sets_)%nat) →
  matrices_ok (length sets_) st →
  gdm_step sets_ setids st current = Ok st' →
  matrices_ok (length sets_) st'.
Proof.
  intros Hids (HD & HC & HsD & HsC & Hc). unfold gdm_step.
  destruct (sets current) as [|a [|b [|? ?]]]; try (by intros [= <-]).
  destruct (obj_get setids a) as [l|] eqn:Hl; [|by intros [= <-]].
  destruct (obj_get setids b) as [r|] eqn:Hr; [|by intros [= <-]].
  cbv zeta. destruct (distanceFromIntersectArea _ _ _) as [d|]; [|done].
  cbn [mbind result_bind]. intros [= <-]. unfold matrices_ok. cbn [fst snd].
  pose proof (Hids a l Hl). pose proof (Hids b r Hr).
  split_and!.
  - by do 2 apply mset_square.
  - by do 2 apply mset_square.
  - by apply (mset_pair_symmetric (length sets_)).
  - by apply (mset_pair_symmetric (length sets_)).
  - intros i j. rewrite !(mget_mset (length sets_)) by (try apply mset_square; done).
    repeat case_decide; auto.
Qed.

(** X13.  When the row numbers given for the sets are rows of the
    matrix, the two matrices that [getDistanceMatrices] returns are
    square, of the size of the set list, and symmetric, and every
    constraint is -1, 0 or 1. *)
Theorem getDistanceMatrices_symmetric (areas sets_ : list Area) (setids : obj nat)
    (distances constraints : list (list R)) :
  (∀ k i, obj_get setids k = Some i → (i < length sets_)%nat) →
  getDistanceMatrices areas sets_ setids = Ok (distances, constraints) →
  square (length sets_) distances ∧ square (length sets_) constraints ∧
  symmetric distances ∧ symmetric constraints ∧
  ∀ i j, mget constraints i j = -1 ∨ mget constraints i j = 0
         ∨ mget constraints i j = 1.
Proof.
  intros Hids. unfold getDistanceMatrices.
  assert (matrices_ok (length sets_)
            (zerosM (length sets_) (length sets_), zerosM (length sets_) (length sets_)))
    as Hinit.
  { split_and!; simpl; try apply zerosM_square.
    - intros i j. by rewrite !mget_zerosM.
    - intros i j. by rewrite !mget_zerosM.
    - intros i j. rewrite mget_zerosM. auto. }
  revert Hinit. generalize (zerosM (length sets_) (length sets_),
                            zerosM (length sets_) (length sets_)).
  induction areas as [|current areas IH]; intros st Hst; simpl.
  - by intros [= ->].
  - destruct (gdm_step sets_ setids st current) as [st1|] eqn:Hstep; [|done].
    apply IH. by eapply gdm_step_ok.
Qed.

Lemma nested_areas_matrices :
  getDistanceMatrices nested_areas
    [mkArea ["A"] 1 None None; mkArea ["B"] 1 None None]
    [("A", 0%nat); ("B", 1%nat)]
  = Ok ([[0; Rabs (sqrt (1 / PI) - sqrt (1 / PI))];
         [Rabs (sqrt (1 / PI) - sqrt (1 / PI)); 0]],
        [[0; 1]; [1; 0]]).
Proof.
  unfold getDistanceMatrices, nested_areas. cbn [foldl_result].
  change (gdm_step _ _ _ (mkArea ["A"] 1 None None)) with
    (Ok (zerosM 2 2, zerosM 2 2)). cbv beta iota.
  change (gdm_step _ _ _ (mkArea ["B"] 1 None None)) with
    (Ok (zerosM 2 2, zerosM 2 2)). cbv beta iota.
  unfold gdm_step. cbn [sets obj_get]. rewrite !decide_True by done.
  rewrite decide_False by done. rewrite decide_True by done.
  cbn [lookup list_lookup fmap option_fmap option_map default size]. cbv zeta.
  unfold distanceFromIntersectArea, Datatypes.id.
  assert (0 < PI) as Hpi by apply PI_RGT_0.
  assert (sqrt (1 / PI) * sqrt (1 / PI) = 1 / PI) as Hs.
  { apply sqrt_sqrt. apply Rlt_le, Rdiv_lt_0_compat; lra. }
  rewrite (decide_True (P := _ >= _)) by (rewrite Rmin_left; lra).
  rewrite decide_True.
  2: { rewrite Rmin_left by lra. rewrite Hs. unfold SMALL.
       replace (1 / PI * PI) with 1 by (field; lra). lra. }
  reflexivity.
Qed.

Lemma getDistanceMatrices_symmetric_witness :
  let d := Rabs (sqrt (1 / PI) - sqrt (1 / PI)) in
  square 2 [[0; d]; [d; 0]] ∧ square 2 [[0; 1]; [1; 0]] ∧
  symmetric [[0; d]; [d; 0]] ∧ symmetric [[0; 1]; [1; 0]] ∧
  ∀ i j, mget [[0; 1]; [1; 0]] i j = -1 ∨ mget [[0; 1]; [1; 0]] i j = 0
         ∨ mget [[0; 1]; [1; 0]] i j = 1.
Proof.
  apply (getDistanceMatrices_symmetric nested_areas
           [mkArea ["A"] 1 None None; mkArea ["B"] 1 None None]
           [("A", 0%nat); ("B", 1%nat)]).
  - intros k i. simpl. repeat case_decide; intros [= <-]; lia.
  - apply nested_areas_matrices.
Defined.

(** ** The loss of a shifted layout *)

Lemma obj_get_shift dx dy layout k :
  obj_get (shift_layout dx dy layout) k
  = (fun c => Circle.set_xy c (Circle.x c + dx) (Circle.y c + dy)) <$> obj_get layout k.
Proof.
  unfold shift_layout. induction layout as [|[k' c] layout IH]; simpl; [done|].
  by case_decide.
Qed.

Lemma weight_or_default_nonneg w :
  (∀ v, w = Some v → 0 <= v) → 0 <= weight_or_default w.
Proof.
  intros Hw. unfold weight_or_default. destruct w as [v|]; [|lra].
  case_decide; [lra|]. by apply Hw.
Qed.

Section LossShift.
Context `{CircleIntersection}.

Lemma achieved_shift dx dy layout area :
  (length (sets area) = 1 ∨ length (sets area) = 2)%nat →
  achieved (shift_layout dx dy layout) area = achieved layout area.
Proof.
  intros Hlen. unfold achieved.
  destruct (sets area) as [|a [|b [|c l]]]; simpl in Hlen; try lia; [done|].
  rewrite !obj_get_shift.
  destruct (obj_get layout a) as [ca|], (obj_get layout b) as [cb|]; simpl; try done.
  do 2 f_equal. unfold distance, center. simpl. f_equal. ring.
Qed.

(** X14.  [lossFunction] is never negative when no Area has a negative
    weight; and for an Area list whose Areas have one or two sets it
    depends on the relative positions of the circles only: shifting the
    whole layout by a vector does not change the loss. *)
Theorem lossFunction_shift (layout : CircleRecord) (overlaps : list Area) :
  ((∀ area w, area ∈ overlaps → weight area = Some w → 0 <= w) →
   0 <= lossFunction layout overlaps) ∧
  ((∀ area, area ∈ overlaps →
            (length (sets area) = 1 ∨ length (sets area) = 2)%nat) →
   ∀ dx dy, lossFunction (shift_layout dx dy layout) overlaps
            = lossFunction layout overlaps).
Proof.
  unfold lossFunction. split.
  - intros Hw. assert (0 <= 0) as Hacc by lra. revert Hacc. generalize 0 at 2 4.
    induction overlaps as [|area overlaps IH]; intros acc Hacc; [done|].
    simpl. apply IH.
    + intros a w Ha. apply Hw. by right.
    + unfold loss_step. destruct (achieved layout area) as [overlap|]; [|done].
      pose proof (weight_or_default_nonneg (weight area)
                    (fun v Hv => Hw area v (list_elem_of_here _ _) Hv)).
      pose proof (Rle_0_sqr (overlap - size area)) as Hsq. unfold Rsqr in Hsq.
      rewrite Rmult_assoc. nra.
  - intros Hlen dx dy. generalize 0.
    induction overlaps as [|area overlaps IH]; intros acc; [done|].
    simpl. rewrite IH by (intros a Ha; apply Hlen; by right).
    f_equal. unfold loss_step. rewrite achieved_shift; [done|].
    apply Hlen. by left.
Qed.
End LossShift.

Lemma lossFunction_shift_witness :
  0 <= lossFunction (H := no_intersection) layout_far [mkArea ["A"; "B"] 1 None None] ∧
  lossFunction (H := no_intersection) (shift_layout 2 3 layout_far)
    [mkArea ["A"; "B"] 1 None None]
  = lossFunction (H := no_intersection) layout_far [mkArea ["A"; "B"] 1 None None].
Proof.
  destruct (@lossFunction_shift no_intersection layout_far
              [mkArea ["A"; "B"] 1 None None]) as [H1 H2].
  split.
  - apply H1. intros area w ->%list_elem_of_singleton. discriminate.
  - apply H2. intros area ->%list_elem_of_singleton. by right.
Defined.

(** ** Normalising keeps the sets *)

Lemma copies_run (solution : obj loc) (h0 : store) : ∀ (acc : list loc) (pre : store),
  valid (length h0) (obj_values solution) →
  ∃ cs,
    fold_St (fun circles (kl : string * loc) =>
               previous ← load kl.2;
               l ← alloc (Circle.mk (Circle.x previous) (Circle.y previous)
                            (Circle.rowid previous) (Circle.size previous)
                            (Circle.radius previous) (Circle.parent previous)
                            kl.1);
               mret (circles ++ [l])) acc solution (h0 ++ pre)
    = (Ok (acc ++ seq (length (h0 ++ pre)) (length solution)), (h0 ++ pre) ++ cs) ∧
    Forall2 (fun (kl : string * loc) c =>
               ∃ c0, h0 !! kl.2 = Some c0 ∧ c = copy_of kl.1 c0) solution cs.
Proof.
  induction solution as [|[k l] solution IH]; intros acc pre Hv.
  - exists []. simpl. by rewrite !app_nil_r.
  - unfold obj_values in Hv. simpl in Hv. apply Forall_cons in Hv as [Hl Hv].
    destruct (lookup_lt_is_Some_2 h0 l) as [c0 Hc0]; [lia|].
    rewrite fold_St_cons. unfold mbind at 1, St_bind at 1, load at 1.
    cbn [snd fst]. rewrite (lookup_app_l_Some _ _ _ _ Hc0).
    unfold mbind at 1, St_bind at 1, alloc at 1. unfold mret at 1, St_ret at 1.
    cbv beta iota.
    destruct (IH (acc ++ [length (h0 ++ pre)]) (pre ++ [copy_of k c0]) Hv)
      as (cs & Hrun & Hcs).
    exists (copy_of k c0 :: cs). unfold copy_of in *.
    rewrite <- app_assoc. rewrite Hrun. split.
    + f_equal; [|by rewrite <- !app_assoc]. f_equal. rewrite <- app_assoc.
      f_equal. simpl. f_equal. rewrite !length_app. simpl.
      f_equal. lia.
    + constructor; [eauto|done].
Qed.










(** ** Union-find: chains of parent pointers *)

Lemma chain_det h l r P r' P' :
  chain h l r P → chain h l r' P' → r = r' ∧ P = P'.
Proof.
  intros Hc. revert r' P'. induction Hc as [l Hl|l p r P Hl Hne Hc IH]; intros r' P' Hc'.
  - inversion Hc' as [? Hl'|? p' ? ? Hl' Hne' ?]; subst; [done|]. congruence.
  - inversion Hc' as [? Hl'|? p' ? P'' Hl' Hne' Hc'']; subst; [congruence|].
    assert (p' = p) as -> by congruence.
    destruct (IH _ _ Hc'') as [-> ->]. done.
Qed.

Lemma chain_head h l r P : chain h l r P → ∃ P', P = l :: P'.
Proof. destruct 1; eauto. Qed.

Lemma chain_root_parent h l r P : chain h l r P → parent_of h r = Some r.
Proof. induction 1; done. Qed.

Lemma chain_root_elem h l r P : chain h l r P → r ∈ P.
Proof. induction 1; [by left|by right]. Qed.

Lemma chain_suffix h l r P m :
  chain h l r P → m ∈ P → ∃ P', chain h m r P' ∧ (length P' <= length P)%nat.
Proof.
  induction 1 as [l Hl|l p r P Hl Hne Hc IH].
  - intros ->%list_elem_of_singleton. exists [l]. split; [by constructor|done].
  - intros [->|Hm]%elem_of_cons.
    + exists (l :: P). split; [by econstructor|done].
    + destruct (IH Hm) as (P' & HP' & Hlen). exists P'. split; [done|]. simpl. lia.
Qed.

Lemma chain_NoDup h l r P : chain h l r P → NoDup P.
Proof.
  induction 1 as [l Hl|l p r P Hl Hne Hc IH].
  - apply NoDup_singleton.
  - apply NoDup_cons. split; [|done]. intros Hin.
    destruct (chain_suffix _ _ _ _ _ Hc Hin) as (P' & HP' & Hlen).
    assert (chain h l r (l :: P)) as Hfull by (by econstructor).
    destruct (chain_det _ _ _ _ _ _ Hfull HP') as [_ <-]. simpl in Hlen. lia.
Qed.

Lemma chain_closed S h l r P :
  closed S h → l ∈ S → chain h l r P → ∀ m, m ∈ P → m ∈ S.
Proof.
  intros Hcl Hl Hc. induction Hc as [l Hp|l p r P Hp Hne Hc IH].
  - by intros m ->%list_elem_of_singleton.
  - intros m [->|Hm]%elem_of_cons; [done|]. apply IH; [|done].
    unfold parent_of in Hp. destruct (h !! l) as [c|] eqn:Hlc; [|done].
    simpl in Hp. by eapply Hcl.
Qed.

(** A chain within [S] is no longer than [S]. *)
Lemma chain_length S h l r P :
  closed S h → l ∈ S → chain h l r P → (length P <= length S)%nat.
Proof.
  intros Hcl Hl Hc. apply submseteq_length, NoDup_submseteq.
  - by eapply chain_NoDup.
  - by eapply chain_closed.
Qed.

Lemma parent_of_insert (h : store) l c p m :
  h !! l = Some c →
  parent_of (<[l := Circle.set_parent c p]> h) m
  = if decide (m = l) then p else parent_of h m.
Proof.
  intros Hl. unfold parent_of. case_decide as Hm.
  - subst. rewrite list_lookup_insert_eq by (by eapply lookup_lt_Some). done.
  - by rewrite list_lookup_insert_ne.
Qed.

Lemma compresses_refl h : compresses h h.
Proof. intros m r P Hc. eauto. Qed.

Lemma compresses_trans h1 h2 h3 :
  compresses h1 h2 → compresses h2 h3 → compresses h1 h3.
Proof.
  intros H12 H23 m r P Hc. destruct (H12 m r P Hc) as (P' & Hc' & Hl).
  destruct (H23 m r P' Hc') as (P'' & Hc'' & Hl'). exists P''. split; [done|lia].
Qed.

(** Path compression: pointing a circle at its root. *)
Lemma shortcut (h : store) l r P c :
  chain h l r P → h !! l = Some c →
  compresses h (<[l := Circle.set_parent c (Some r)]> h).
Proof.
  intros Hl Hc m r' P' Hm.
  induction Hm as [m Hp|m p r' P' Hp Hne Hm IH].
  - exists [m]. split; [|done]. constructor. rewrite (parent_of_insert _ _ _ _ _ Hc).
    case_decide as Heq; [|done]. subst.
    assert (chain h l l [l]) as Hroot by (by constructor).
    by destruct (chain_det _ _ _ _ _ _ Hl Hroot) as [-> _].
  - destruct IH as (P'' & Hc'' & Hlen).
    destruct (decide (m = l)) as [->|Hml].
    + assert (chain h l r' (l :: P')) as Hfull by (by econstructor).
      destruct (chain_det _ _ _ _ _ _ Hl Hfull) as [-> ->].
      assert (r' ≠ l) as Hrl.
      { intros ->. apply chain_root_parent in Hm. congruence. }
      exists [l; r']. split.
      * econstructor; [|exact Hrl|].
        -- rewrite (parent_of_insert _ _ _ _ _ Hc). by rewrite decide_True.
        -- constructor. rewrite (parent_of_insert _ _ _ _ _ Hc).
           rewrite decide_False by done. by eapply chain_root_parent.
      * destruct (chain_head _ _ _ _ Hm) as [? ->]. simpl. lia.
    + exists (m :: P''). split; [|simpl; lia].
      econstructor; [|exact Hne|exact Hc''].
      rewrite (parent_of_insert _ _ _ _ _ Hc). by rewrite decide_False.
Qed.

(** Linking a root to a root. *)
Lemma link (h : store) rx ry c :
  parent_of h rx = Some rx → parent_of h ry = Some ry → h !! rx = Some c →
  ∀ m r P, chain h m r P →
    ∃ P', chain (<[rx := Circle.set_parent c (Some ry)]> h) m
            (if decide (r = rx) then ry else r) P'.
Proof.
  intros Hrx Hry Hc m r P Hm.
  induction Hm as [m Hp|m p r P Hp Hne Hm IH].
  - destruct (decide (m = rx)) as [->|Hmx].
    + destruct (decide (rx = ry)) as [<-|Hxy].
      * exists [rx]. constructor. rewrite (parent_of_insert _ _ _ _ _ Hc).
        by rewrite decide_True.
      * exists [rx; ry]. econstructor.
        -- rewrite (parent_of_insert _ _ _ _ _ Hc). by rewrite decide_True.
        -- done.
        -- constructor. rewrite (parent_of_insert _ _ _ _ _ Hc).
           by rewrite decide_False.
    + exists [m]. constructor. rewrite (parent_of_insert _ _ _ _ _ Hc).
      by rewrite decide_False.
  - destruct IH as (P' & HP'). exists (m :: P').
    econstructor; [|exact Hne|exact HP'].
    rewrite (parent_of_insert _ _ _ _ _ Hc). rewrite decide_False; [done|].
    intros ->. congruence.
Qed.

Lemma closed_insert S (h : store) l c r :
  closed S h → h !! l = Some c → (∀ p, r = Some p → p ∈ S) →
  closed S (<[l := Circle.set_parent c r]> h).
Proof. apply closed_set_parent. Qed.

Lemma parent_of_Some (h : store) l p :
  parent_of h l = Some p → ∃ c, h !! l = Some c ∧ Circle.parent c = Some p.
Proof.
  unfold parent_of. destruct (h !! l) as [c|]; [|done]. simpl. eauto.
Qed.

Lemma evolves_parent_insert (h : store) l c p :
  h !! l = Some c → evolves same_but_parent h (<[l := Circle.set_parent c p]> h).
Proof.
  intros Hl. split; [apply length_insert|]. intros k d Hk.
  destruct (decide (k = l)) as [->|Hne].
  - exists (Circle.set_parent c p).
    rewrite list_lookup_insert_eq by (by eapply lookup_lt_Some).
    split; [done|]. replace d with c by congruence. by destruct c.
  - exists d. rewrite list_lookup_insert_ne by done. split; [done|]. reflexivity.
Qed.

Lemma uf_step_refl S h : uf_step S h h.
Proof. split_and!; [apply compresses_refl|done|apply (evolves_refl same_but_parent)]. Qed.

Lemma uf_step_trans S h1 h2 h3 : uf_step S h1 h2 → uf_step S h2 h3 → uf_step S h1 h3.
Proof.
  intros (Hc1 & Hcl1 & He1) (Hc2 & Hcl2 & He2). split_and!.
  - by eapply compresses_trans.
  - auto.
  - by eapply (evolves_trans same_but_parent).
Qed.

(** [find] returns the root of the chain, given fuel for its length. *)
Lemma find_spec S fuel : ∀ (h : store) l r P,
  closed S h → l ∈ S → chain h l r P → (length P <= Datatypes.S fuel)%nat →
  ∃ h', find fuel (Some l) h = (Ok (Some r), h') ∧ uf_step S h h'.
Proof.
  induction fuel as [|fuel IH]; intros h l r P Hcl Hl Hc Hlen.
  - inversion Hc as [? Hp|? p ? P' Hp Hne Hc']; subst.
    + apply parent_of_Some in Hp as (c & Hlc & Hpc).
      exists h. split; [|apply uf_step_refl]. simpl.
      unfold mbind, St_bind, load. rewrite Hlc. rewrite decide_True by done.
      by rewrite Hpc.
    + destruct (chain_head _ _ _ _ Hc') as [? ->]. simpl in Hlen. lia.
  - inversion Hc as [? Hp|? p ? P' Hp Hne Hc']; subst.
    + apply parent_of_Some in Hp as (c & Hlc & Hpc).
      exists h. split; [|apply uf_step_refl]. simpl.
      unfold mbind, St_bind, load. rewrite Hlc. rewrite decide_True by done.
      by rewrite Hpc.
    + apply parent_of_Some in Hp as (c & Hlc & Hpc).
      assert (p ∈ S) as Hp by (by eapply Hcl).
      destruct (IH h p r P' Hcl Hp Hc') as (h1 & Hrun & Hstep); [simpl in Hlen; lia|].
      destruct Hstep as (Hcomp & Hcl1 & Hev).
      destruct (proj2 Hev l c Hlc) as (c1 & Hl1 & _).
      destruct (Hcomp l r (l :: P') Hc) as (P1 & Hc1 & _).
      exists (<[l := Circle.set_parent c1 (Some r)]> h1). split.
      * cbn [find]. unfold mbind at 1, St_bind at 1, load at 1. rewrite Hlc.
        rewrite decide_False by congruence.
        unfold mbind at 1, St_bind at 1. rewrite Hpc, Hrun.
        unfold mbind at 1, St_bind at 1, update at 1. rewrite Hl1. done.
      * eapply uf_step_trans; [split_and!; [exact Hcomp|exact Hcl1|exact Hev]|].
        split_and!.
        -- by eapply shortcut.
        -- intros Hcl'. apply closed_set_parent; [done|done|].
           intros ? [= <-]. eapply (chain_closed S h l r (l :: P')); [done..|].
           by eapply chain_root_elem.
        -- by apply evolves_parent_insert.
Qed.

Lemma root_in_det h l r r' : root_in h l r → root_in h l r' → r = r'.
Proof. intros [P HP] [P' HP']. by destruct (chain_det _ _ _ _ _ _ HP HP'). Qed.

Lemma root_in_compresses h h' l r : compresses h h' → root_in h l r → root_in h' l r.
Proof. intros Hc [P HP]. destruct (Hc _ _ _ HP) as (P' & HP' & _). by exists P'. Qed.

Lemma root_in_elem S h l r : closed S h → l ∈ S → root_in h l r → r ∈ S.
Proof.
  intros Hcl Hl [P HP]. eapply chain_closed; [done..|]. by eapply chain_root_elem.
Qed.

Lemma root_in_root h l r : root_in h l r → root_in h r r.
Proof.
  intros [P HP]. exists [r]. constructor. by eapply chain_root_parent.
Qed.

Lemma forest_compresses S h h' : compresses h h' → forest S h → forest S h'.
Proof.
  intros Hc Hf l Hl. destruct (Hf l Hl) as [r Hr]. exists r.
  by eapply root_in_compresses.
Qed.

Lemma same_roots h a b ra rb :
  root_in h a ra → root_in h b rb → same h a b ↔ ra = rb.
Proof.
  intros Ha Hb. split.
  - intros (r & Ha' & Hb').
    rewrite (root_in_det _ _ _ _ Ha Ha'). by rewrite (root_in_det _ _ _ _ Hb Hb').
  - intros ->. by exists rb.
Qed.

Lemma same_compresses S h h' a b :
  compresses h h' → forest S h → a ∈ S → b ∈ S → same h' a b ↔ same h a b.
Proof.
  intros Hc Hf Ha Hb.
  destruct (Hf a Ha) as [ra Hra]. destruct (Hf b Hb) as [rb Hrb].
  rewrite (same_roots h a b ra rb) by done.
  apply same_roots; by eapply root_in_compresses.
Qed.

(** [find] of a circle of the forest. *)
Lemma find_root S fuel (h : store) l r :
  closed S h → l ∈ S → root_in h l r → (length S <= Datatypes.S fuel)%nat →
  ∃ h', find fuel (Some l) h = (Ok (Some r), h') ∧ uf_step S h h'.
Proof.
  intros Hcl Hl [P HP] Hlen. eapply find_spec; [done..|].
  pose proof (chain_length S h l r P Hcl Hl HP). lia.
Qed.

(** [union x y] joins the class of [x] and the class of [y], and no
    other. *)
Lemma union_spec S fuel (h : store) x y :
  forest S h → closed S h → x ∈ S → y ∈ S → (length S <= Datatypes.S fuel)%nat →
  ∃ h', union fuel x y h = (Ok (), h') ∧
    forest S h' ∧ closed S h' ∧ evolves same_but_parent h h' ∧
    ∀ a b, a ∈ S → b ∈ S →
      (same h' a b ↔
       same h a b ∨ (same h a x ∧ same h b y) ∨ (same h a y ∧ same h b x)).
Proof.
  intros Hf Hcl Hx Hy Hlen.
  destruct (Hf x Hx) as [rx Hrx]. destruct (Hf y Hy) as [ry Hry].
  destruct (find_root S fuel h x rx Hcl Hx Hrx Hlen) as (h1 & Hrun1 & Hc1 & Hcl1 & Hev1).
  specialize (Hcl1 Hcl).
  assert (root_in h1 y ry) as Hry1 by (by eapply root_in_compresses).
  destruct (find_root S fuel h1 y ry Hcl1 Hy Hry1 Hlen) as (h2 & Hrun2 & Hc2 & Hcl2 & Hev2).
  specialize (Hcl2 Hcl1).
  assert (compresses h h2) as Hc by (by eapply compresses_trans).
  assert (parent_of h2 rx = Some rx) as Hpx.
  { destruct (root_in_compresses _ _ _ _ Hc Hrx) as [P HP]. by eapply chain_root_parent. }
  assert (parent_of h2 ry = Some ry) as Hpy.
  { destruct (root_in_compresses _ _ _ _ Hc Hry) as [P HP]. by eapply chain_root_parent. }
  destruct (parent_of_Some _ _ _ Hpx) as (c & Hlc & Hpc).
  set (h3 := <[rx := Circle.set_parent c (Some ry)]> h2).
  assert (∀ m r, root_in h m r → root_in h3 m (if decide (r = rx) then ry else r)) as Hroot.
  { intros m r Hm. destruct (root_in_compresses _ _ _ _ Hc Hm) as [P HP].
    destruct (link h2 rx ry c Hpx Hpy Hlc m r P HP) as [P' HP']. by exists P'. }
  exists h3. split_and!.
  - unfold union. unfold mbind at 1, St_bind at 1. rewrite Hrun1.
    unfold mbind at 1, St_bind at 1. rewrite Hrun2.
    unfold update. by rewrite Hlc.
  - intros l Hl. destruct (Hf l Hl) as [r Hr]. eexists. by apply Hroot.
  - apply closed_set_parent; [done..|]. intros ? [= <-].
    by eapply (root_in_elem S h y ry).
  - eapply (evolves_trans same_but_parent); [exact Hev1|].
    eapply (evolves_trans same_but_parent); [exact Hev2|].
    by apply evolves_parent_insert.
  - intros a b Ha Hb.
    destruct (Hf a Ha) as [ra Hra]. destruct (Hf b Hb) as [rb Hrb].
    rewrite (same_roots h3 a b _ _ (Hroot _ _ Hra) (Hroot _ _ Hrb)).
    rewrite (same_roots h a b ra rb), (same_roots h a x ra rx),
      (same_roots h b y rb ry), (same_roots h a y ra ry),
      (same_roots h b x rb rx) by done.
    repeat case_decide; naive_solver.
Qed.

(** ** Union-find: the classes are the components *)

Lemma St_bind_run {A B} (m : St A) (k : A -> St B) h a h1 :
  m h = (Ok a, h1) → (m ≫= k) h = k a h1.
Proof. intros Hm. unfold mbind, St_bind. by rewrite Hm. Qed.

Lemma overlapping_sym h a b : overlapping h a b → overlapping h b a.
Proof.
  intros (ca & cb & Ha & Hb & Hd). exists cb, ca. split_and!; [done..|].
  rewrite distance_sym. lra.
Qed.

Lemma rtsc_add_edge {A} (E : relation A) x y a b :
  rtsc (fun a b => E a b ∨ (a = x ∧ b = y)) a b ↔
  rtsc E a b ∨ (rtsc E a x ∧ rtsc E b y) ∨ (rtsc E a y ∧ rtsc E b x).
Proof.
  split.
  - intros H. induction H as [a|a a' b Hstep Hrest IH].
    + left. reflexivity.
    + assert (rtsc E a a' ∨ (a = x ∧ a' = y) ∨ (a = y ∧ a' = x)) as Hs.
      { destruct Hstep as [[?|[-> ->]]|[?|[-> ->]]]; auto.
        - left. by apply rtsc_lr.
        - left. by apply rtsc_rl. }
      destruct Hs as [Hs|[[-> ->]|[-> ->]]].
      * destruct IH as [IH|[[IH1 IH2]|[IH1 IH2]]].
        -- left. by etrans.
        -- right; left. split; [by etrans|done].
        -- right; right. split; [by etrans|done].
      * destruct IH as [IH|[[IH1 IH2]|[IH1 IH2]]].
        -- right; left. split; [reflexivity|by symmetry].
        -- right; left. split; [reflexivity|done].
        -- left. by symmetry.
      * destruct IH as [IH|[[IH1 IH2]|[IH1 IH2]]].
        -- right; right. split; [reflexivity|by symmetry].
        -- left. by symmetry.
        -- right; right. split; [reflexivity|done].
  - assert (∀ a b, rtsc E a b → rtsc (fun a b => E a b ∨ (a = x ∧ b = y)) a b) as Hsub.
    { intros a0 b0 H. eapply (rtc_subrel (sc E)); [|exact H].
      intros ?? [?|?]; [left|right]; by left. }
    assert (rtsc (fun a b => E a b ∨ (a = x ∧ b = y)) x y) as Hxy.
    { apply rtsc_lr. by right. }
    intros [H|[[H1 H2]|[H1 H2]]].
    + by apply Hsub.
    + etrans; [by apply Hsub|]. etrans; [exact Hxy|]. symmetry. by apply Hsub.
    + etrans; [by apply Hsub|]. etrans; [symmetry; exact Hxy|]. symmetry. by apply Hsub.
Qed.

Lemma rtsc_iff {A} (E E' : relation A) a b :
  (∀ a b, E a b ↔ E' a b) → rtsc E a b ↔ rtsc E' a b.
Proof.
  intros H. split; apply rtc_subrel; intros ?? [?|?]; [left|right|left|right]; by apply H.
Qed.

Lemma edges_snoc h D x y a b :
  edges h (D ++ [(x, y)]) a b ↔
  edges h D a b ∨ (overlapping h x y ∧ a = x ∧ b = y).
Proof.
  unfold edges. rewrite elem_of_app, list_elem_of_singleton. split.
  - intros [[?|[= -> ->]] ?]; auto.
  - intros [[? ?]|(? & -> & ->)]; auto.
Qed.

Lemma forest_lookup S (h : store) l : forest S h → l ∈ S → is_Some (h !! l).
Proof.
  intros Hf Hl. destruct (Hf l Hl) as (r & P & HP).
  inversion HP as [? Hp|? p ? P' Hp _ _]; subst;
    apply parent_of_Some in Hp as (c & Hc & _); eauto.
Qed.

Lemma overlapping_evolves h0 h a b ca cb :
  evolves same_but_parent h0 h → is_Some (h0 !! a) → is_Some (h0 !! b) →
  h !! a = Some ca → h !! b = Some cb →
  overlapping h0 a b ↔
  distance (center ca) (center cb) + 1e-10 < Circle.radius ca + Circle.radius cb.
Proof.
  intros [_ Hev] [ca0 Ha0] [cb0 Hb0] Ha Hb.
  destruct (Hev a ca0 Ha0) as (ca' & Ha' & Hra).
  destruct (Hev b cb0 Hb0) as (cb' & Hb' & Hrb).
  assert (ca' = ca) as -> by congruence. assert (cb' = cb) as -> by congruence.
  unfold same_but_parent in Hra, Hrb.
  assert (center ca = center ca0 ∧ Circle.radius ca = Circle.radius ca0) as [Eca Era].
  { rewrite Hra. by destruct ca0. }
  assert (center cb = center cb0 ∧ Circle.radius cb = Circle.radius cb0) as [Ecb Erb].
  { rewrite Hrb. by destruct cb0. }
  rewrite Eca, Ecb, Era, Erb. split.
  - intros (xa & xb & Hxa & Hxb & Hd). by simplify_eq.
  - intros Hd. by exists ca0, cb0.
Qed.

Lemma uf_inv_skip S h0 D h x y :
  ¬ overlapping h0 x y → uf_inv S h0 D h → uf_inv S h0 (D ++ [(x, y)]) h.
Proof.
  intros Hno (Hf & Hcl & Hev & Hsame). split_and!; [done..|].
  intros a b Ha Hb. rewrite (Hsame a b Ha Hb). apply rtsc_iff.
  intros a' b'. rewrite edges_snoc. tauto.
Qed.

(** One pair of the double loop. *)
Lemma overlap_step S fuel h0 D h l1 l2 :
  uf_inv S h0 D h → (∀ l, l ∈ S → is_Some (h0 !! l)) →
  l1 ∈ S → l2 ∈ S → (length S <= Datatypes.S fuel)%nat →
  ∃ h', (c1 ← load l1; c2 ← load l2;
         let maxDistance := Circle.radius c1 + Circle.radius c2 in
         if decide (distance (center c1) (center c2) + 1e-10 < maxDistance)
         then union fuel l2 l1 else mret ()) h = (Ok (), h') ∧
        uf_inv S h0 (D ++ [(l2, l1)]) h'.
Proof.
  intros Hinv Hval H1 H2 Hlen.
  destruct Hinv as (Hf & Hcl & Hev & Hsame).
  destruct (forest_lookup S h l1 Hf H1) as [c1 Hc1].
  destruct (forest_lookup S h l2 Hf H2) as [c2 Hc2].
  pose proof (overlapping_evolves h0 h l1 l2 c1 c2 Hev (Hval _ H1) (Hval _ H2) Hc1 Hc2) as Hov.
  unfold mbind at 1, St_bind at 1, load at 1. rewrite Hc1.
  unfold mbind at 1, St_bind at 1, load at 1. rewrite Hc2. cbv zeta.
  case_decide as Hd.
  - destruct (union_spec S fuel h l2 l1 Hf Hcl H2 H1 Hlen)
      as (h' & Hrun & Hf' & Hcl' & Hev' & Hsame').
    exists h'. split; [done|]. split_and!; [done..| |].
    + by eapply (evolves_trans same_but_parent).
    + intros a b Ha Hb. rewrite (Hsame' a b Ha Hb).
      rewrite !Hsame by done.
      rewrite (rtsc_iff (edges h0 (D ++ [(l2, l1)]))
                 (fun a b => edges h0 D a b ∨ (a = l2 ∧ b = l1))).
      * by rewrite rtsc_add_edge.
      * intros a' b'. rewrite edges_snoc.
        assert (overlapping h0 l2 l1) by (by apply overlapping_sym, Hov). tauto.
  - exists h. split; [done|]. apply uf_inv_skip; [|done].
    intros Ho. apply Hd, Hov. by apply overlapping_sym.
Qed.

Lemma overlap_inner S fuel h0 l1 : ∀ later D h,
  uf_inv S h0 D h → (∀ l, l ∈ S → is_Some (h0 !! l)) →
  l1 ∈ S → later ⊆ S → (length S <= Datatypes.S fuel)%nat →
  ∃ h', for_each (fun l2 =>
                  c1 ← load l1; c2 ← load l2;
                  let maxDistance := Circle.radius c1 + Circle.radius c2 in
                  if decide (distance (center c1) (center c2) + 1e-10 < maxDistance)
                  then union fuel l2 l1 else mret ()) later h = (Ok (), h') ∧
        uf_inv S h0 (D ++ ((fun l2 => (l2, l1)) <$> later)) h'.
Proof.
  induction later as [|l2 later IH]; intros D h Hinv Hval H1 Hsub Hlen.
  - exists h. split; [done|]. simpl. by rewrite app_nil_r.
  - destruct (overlap_step S fuel h0 D h l1 l2 Hinv Hval H1) as (h1 & Hrun & Hinv1);
      [apply Hsub; left|done|].
    destruct (IH (D ++ [(l2, l1)]) h1 Hinv1 Hval H1) as (h2 & Hrun2 & Hinv2);
      [intros ? ?; apply Hsub; by right|done|].
    exists h2. split.
    + cbn [for_each]. unfold mbind at 1, St_bind at 1.
      cbv beta zeta. cbv beta zeta in Hrun. rewrite Hrun. exact Hrun2.
    + rewrite fmap_cons. rewrite <- (assoc_L (++)) in Hinv2. exact Hinv2.
Qed.

Lemma union_overlapping_spec S fuel h0 : ∀ circles D h,
  uf_inv S h0 D h → (∀ l, l ∈ S → is_Some (h0 !! l)) →
  circles ⊆ S → (length S <= Datatypes.S fuel)%nat →
  ∃ h', union_overlapping fuel circles h = (Ok (), h') ∧
        uf_inv S h0 (D ++ pairs_of circles) h'.
Proof.
  induction circles as [|l1 later IH]; intros D h Hinv Hval Hsub Hlen.
  - exists h. split; [done|]. simpl. by rewrite app_nil_r.
  - destruct (overlap_inner S fuel h0 l1 later D h Hinv Hval) as (h1 & Hrun & Hinv1);
      [apply Hsub; left|intros ? ?; apply Hsub; by right|done|].
    destruct (IH _ h1 Hinv1 Hval) as (h2 & Hrun2 & Hinv2);
      [intros ? ?; apply Hsub; by right|done|].
    exists h2. split.
    + cbn [union_overlapping]. exact (eq_trans (St_bind_run _ _ _ _ _ Hrun) Hrun2).
    + cbn [pairs_of]. by rewrite (assoc_L (++)).
Qed.

Lemma pairs_of_elem circles a b :
  (a, b) ∈ pairs_of circles → a ∈ circles ∧ b ∈ circles.
Proof.
  induction circles as [|l1 later IH]; simpl; [by intros ?%elem_of_nil|].
  rewrite elem_of_app, list_elem_of_fmap. intros [(l2 & [= -> ->] & Hl2)|H].
  - split; [by right|left].
  - destruct (IH H). split; by right.
Qed.

Lemma pairs_of_total circles a b :
  a ∈ circles → b ∈ circles →
  a = b ∨ (a, b) ∈ pairs_of circles ∨ (b, a) ∈ pairs_of circles.
Proof.
  induction circles as [|l1 later IH]; [by intros ?%elem_of_nil|].
  rewrite !elem_of_cons. cbn [pairs_of]. setoid_rewrite elem_of_app.
  setoid_rewrite list_elem_of_fmap.
  intros [->|Ha] [->|Hb]; [by left| | |].
  - right; right. left. by exists b.
  - right; left. left. by exists a.
  - destruct (IH Ha Hb) as [?|[?|?]]; auto.
Qed.

(** The components of the visited pairs are those of the overlaps within
    the array. *)
Lemma edges_connected h circles a b :
  rtsc (edges h (pairs_of circles)) a b ↔ connected h circles a b.
Proof.
  unfold connected. split.
  - apply rtc_subrel. intros x y [[Hp Ho]|[Hp Ho]];
      destruct (pairs_of_elem _ _ _ Hp); [left|right]; done.
  - assert (∀ x y, x ∈ circles ∧ y ∈ circles ∧ overlapping h x y →
                   rtsc (edges h (pairs_of circles)) x y) as Hstep.
    { intros x y (Hx & Hy & Ho).
      destruct (pairs_of_total circles x y Hx Hy) as [->|[Hp|Hp]].
      - reflexivity.
      - by apply rtsc_lr.
      - apply rtsc_rl. split; [done|]. by apply overlapping_sym. }
    intros H. induction H as [a|a a' b Hs _ IH]; [reflexivity|].
    etrans; [|exact IH]. destruct Hs as [Hs|Hs]; [by apply Hstep|].
    symmetry. by apply Hstep.
Qed.

(** ** Clusters: grouping by the root *)

Lemma obj_add_perm {V} (o : obj V) k v : obj_add k v o ≡ₚ (k, v) :: o.
Proof.
  induction o as [|[k0 v0] o IH]; simpl; [done|].
  assert ((k0, v0) :: obj_add k v o ≡ₚ (k, v) :: (k0, v0) :: o) as Hback
    by (rewrite IH; apply Permutation_swap).
  destruct (array_index k), (array_index k0); try done.
  by case_decide.
Qed.

Lemma obj_update_split {V} (o : obj V) k v0 v :
  obj_get o k = Some v0 →
  ∃ o1 o2, o = o1 ++ (k, v0) :: o2 ∧ obj_update k v o = o1 ++ (k, v) :: o2.
Proof.
  induction o as [|[k0 w] o IH]; simpl; [done|].
  case_decide as Hk.
  - intros [= ->]. subst. by exists [], o.
  - intros Hg. destruct (IH Hg) as (o1 & o2 & -> & ->).
    by exists ((k0, w) :: o1), o2.
Qed.

Lemma grouped_add h seen g k :
  grouped h seen g → obj_get g k = None → grouped h seen (obj_add k [] g).
Proof.
  intros (Hnd & Hperm & Hkey) Hnone. split_and!.
  - rewrite obj_keys_add. apply NoDup_cons. split; [|done].
    rewrite <- obj_get_keys, Hnone. by intros [? ?].
  - unfold obj_values. rewrite (obj_add_perm g k []). done.
  - intros k' ls l Hin Hl. rewrite (obj_add_perm g k []) in Hin.
    apply elem_of_cons in Hin as [[= -> ->]|Hin]; [by apply elem_of_nil in Hl|].
    by eapply Hkey.
Qed.

Lemma grouped_update h seen g k ls0 l :
  grouped h seen g → obj_get g k = Some ls0 → keyed h l k →
  grouped h (seen ++ [l]) (obj_update k (ls0 ++ [l]) g).
Proof.
  intros (Hnd & Hperm & Hkey) Hget Hl. split_and!.
  - by rewrite obj_keys_update.
  - destruct (obj_update_split g k ls0 (ls0 ++ [l]) Hget) as (o1 & o2 & Hg & ->).
    rewrite <- Hperm, Hg. unfold obj_values.
    rewrite !fmap_app, !fmap_cons, !concat_app, !concat_cons. simpl.
    rewrite <- !(assoc_L (++)). apply Permutation_app_head.
    apply Permutation_app_head. apply Permutation_app_comm.
  - destruct (obj_update_split g k ls0 (ls0 ++ [l]) Hget) as (o1 & o2 & Hg & ->).
    intros k' ls l' Hin Hl'.
    rewrite elem_of_app, elem_of_cons in Hin.
    destruct Hin as [Hin|[[= -> ->]|Hin]].
    + eapply Hkey; [|done]. rewrite Hg, elem_of_app. by left.
    + apply elem_of_app in Hl' as [Hl'|Hl'%list_elem_of_singleton]; [|by subst].
      eapply Hkey; [|done]. rewrite Hg, elem_of_app. right. left.
    + eapply Hkey; [|done]. rewrite Hg, elem_of_app. right. by right.
Qed.

(** What one round of the grouping loop does to the groups. *)
Lemma grouped_push h seen g k l :
  grouped h seen g → keyed h l k →
  grouped h (seen ++ [l])
    (obj_push k l (if obj_has g k then g else obj_set k [] g)).
Proof.
  intros Hg Hl. destruct (obj_has g k) eqn:Hh.
  - apply obj_has_get in Hh as [ls0 Hget]. unfold obj_push. rewrite Hget.
    unfold obj_set. rewrite (proj2 (obj_has_get g k)) by eauto.
    by apply grouped_update.
  - pose proof (proj1 (obj_has_false g k) Hh) as Hnone.
    unfold obj_push. rewrite obj_get_set, decide_True by done.
    unfold obj_set at 2. rewrite Hh.
    unfold obj_set. rewrite (proj2 (obj_has_get _ k)).
    + apply (grouped_update h seen _ k [] l); [by apply grouped_add| |done].
      rewrite obj_get_add by done. by rewrite decide_True.
    + rewrite obj_get_add by done. rewrite decide_True by done. eauto.
Qed.

Lemma inhabited_update g k ls0 l :
  (∀ k' ls, (k', ls) ∈ g → ls ≠ [] ∨ (k', ls) = (k, ls0)) →
  NoDup (obj_keys g) → obj_get g k = Some ls0 →
  inhabited (obj_update k (ls0 ++ [l]) g).
Proof.
  intros Hg Hnd Hget k' ls Hin.
  destruct (obj_update_split g k ls0 (ls0 ++ [l]) Hget) as (o1 & o2 & Hsplit & Hupd).
  rewrite Hupd in Hin. rewrite Hsplit in Hg, Hnd.
  unfold obj_keys in Hnd. rewrite fmap_app, fmap_cons in Hnd. simpl in Hnd.
  apply NoDup_app in Hnd as (_ & Hdisj & Hnd2). apply NoDup_cons in Hnd2 as [Hk2 _].
  rewrite elem_of_app, elem_of_cons in Hin.
  destruct Hin as [Hin|[[= -> ->]|Hin]].
  - destruct (Hg k' ls) as [?|[= -> ->]]; [rewrite elem_of_app; by left|done|].
    exfalso. apply (Hdisj k); [|left]. apply list_elem_of_fmap. by exists (k, ls0).
  - by destruct ls0.
  - destruct (Hg k' ls) as [?|[= -> ->]]; [rewrite elem_of_app; right; by right|done|].
    exfalso. apply Hk2. apply list_elem_of_fmap. by exists (k, ls0).
Qed.

Lemma inhabited_push g k l :
  inhabited g → NoDup (obj_keys g) →
  inhabited (obj_push k l (if obj_has g k then g else obj_set k [] g)).
Proof.
  intros Hg Hnd. destruct (obj_has g k) eqn:Hh.
  - apply obj_has_get in Hh as [ls0 Hget]. unfold obj_push. rewrite Hget.
    unfold obj_set. rewrite (proj2 (obj_has_get g k)) by eauto.
    apply inhabited_update; [|done|done]. intros k' ls Hin. left. by eapply Hg.
  - pose proof (proj1 (obj_has_false g k) Hh) as Hnone.
    unfold obj_push. rewrite obj_get_set, decide_True by done.
    unfold obj_set at 2. rewrite Hh.
    unfold obj_set. rewrite (proj2 (obj_has_get _ k)).
    + apply inhabited_update.
      * intros k' ls Hin. rewrite (obj_add_perm g k []) in Hin.
        apply elem_of_cons in Hin as [->|Hin]; [by right|]. left. by eapply Hg.
      * rewrite obj_keys_add. apply NoDup_cons. split; [|done].
        rewrite <- obj_get_keys, Hnone. by intros [? ?].
      * rewrite obj_get_add by done. by rewrite decide_True.
    + rewrite obj_get_add by done. rewrite decide_True by done. eauto.
Qed.

Lemma elem_of_concat {A} (x : A) (ls : list (list A)) :
  x ∈ concat ls ↔ ∃ l, x ∈ l ∧ l ∈ ls.
Proof.
  induction ls as [|l0 ls IH]; simpl.
  - split; [by intros ?%elem_of_nil|by intros (? & _ & ?%elem_of_nil)].
  - rewrite elem_of_app, IH. setoid_rewrite elem_of_cons. naive_solver.
Qed.

Lemma keyed_det h l k k' : keyed h l k → keyed h l k' → k = k'.
Proof.
  intros (r & c & Hr & Hc & <-) (r' & c' & Hr' & Hc' & <-).
  rewrite (root_in_det _ _ _ _ Hr Hr') in Hc. congruence.
Qed.

(** The groups at the end sort the circles by their root. *)
Lemma grouped_classes S h g a b :
  grouped h S g → forest S h → closed S h →
  (∀ l, l ∈ S → is_Some (h !! l)) →
  (∀ x y cx cy, x ∈ S → y ∈ S → h !! x = Some cx → h !! y = Some cy →
                Circle.setid cx = Circle.setid cy → x = y) →
  a ∈ S → b ∈ S →
  (∃ cl, cl ∈ obj_values g ∧ a ∈ cl ∧ b ∈ cl) ↔ same h a b.
Proof.
  intros (Hnd & Hperm & Hkey) Hf Hcl Hval Hinj Ha Hb. split.
  - intros (cl & Hcl' & Hacl & Hbcl).
    apply list_elem_of_fmap in Hcl' as ([k cl'] & -> & Hin). simpl in *.
    destruct (Hkey k cl' a Hin Hacl) as (ra & ca & Hra & Hca & Hka).
    destruct (Hkey k cl' b Hin Hbcl) as (rb & cb & Hrb & Hcb & Hkb).
    exists ra. split; [done|].
    replace ra with rb; [done|].
    eapply Hinj; [| |exact Hcb|exact Hca|congruence].
    + by apply (root_in_elem S h b rb).
    + by apply (root_in_elem S h a ra).
  - intros (r & Hra & Hrb).
    assert (∀ l, l ∈ S → ∃ k cl, (k, cl) ∈ g ∧ l ∈ cl) as Hsome.
    { intros l Hl. rewrite <- Hperm in Hl.
      apply elem_of_concat in Hl as (cl & Hl & Hcl').
      apply list_elem_of_fmap in Hcl' as ([k cl'] & -> & Hin). eauto. }
    destruct (Hsome a Ha) as (ka & cla & Hina & Hacl).
    destruct (Hsome b Hb) as (kb & clb & Hinb & Hbcl).
    assert (r ∈ S) as Hr by (by eapply root_in_elem).
    destruct (Hval r Hr) as [c Hc].
    assert (keyed h a (Circle.setid c)) as Hka by (by exists r, c).
    assert (keyed h b (Circle.setid c)) as Hkb by (by exists r, c).
    pose proof (keyed_det _ _ _ _ (Hkey _ _ _ Hina Hacl) Hka) as ->.
    pose proof (keyed_det _ _ _ _ (Hkey _ _ _ Hinb Hbcl) Hkb) as ->.
    assert (cla = clb) as ->.
    { apply list_elem_of_lookup in Hina as [i Hi]. apply list_elem_of_lookup in Hinb as [j Hj].
      pose proof (obj_get_first g i _ _ Hnd Hi). pose proof (obj_get_first g j _ _ Hnd Hj).
      congruence. }
    exists clb. split; [|done]. apply list_elem_of_fmap. by exists (Circle.setid c, clb).
Qed.

(** The first loop makes every circle its own root. *)
Lemma make_sets_run : ∀ circles (seen : list loc) (h : store),
  (∀ l, l ∈ circles → is_Some (h !! l)) →
  (∀ l, l ∈ seen → parent_of h l = Some l) →
  ∃ h', for_each (fun l => update l (fun c => Circle.set_parent c (Some l))) circles h
        = (Ok (), h') ∧
        evolves same_but_parent h h' ∧
        ∀ l, l ∈ seen ++ circles → parent_of h' l = Some l.
Proof.
  induction circles as [|l1 later IH]; intros seen h Hval Hseen.
  - exists h. split_and!; [done|apply (evolves_refl same_but_parent)|].
    intros l. rewrite app_nil_r. auto.
  - destruct (Hval l1) as [c Hc]; [left|].
    destruct (IH (seen ++ [l1]) (<[l1 := Circle.set_parent c (Some l1)]> h))
      as (h' & Hrun & Hev & Hself).
    + intros l Hl. apply lookup_lt_is_Some. rewrite length_insert.
      apply lookup_lt_is_Some, Hval. by right.
    + intros l Hl. rewrite (parent_of_insert _ _ _ _ _ Hc). case_decide; [by subst|].
      apply elem_of_app in Hl as [Hl|Hl%list_elem_of_singleton]; [auto|done].
    + exists h'. split_and!.
      * cbn [for_each]. refine (eq_trans (St_bind_run _ _ _ () _ _) Hrun).
        unfold update. by rewrite Hc.
      * eapply (evolves_trans same_but_parent); [|exact Hev].
        by apply evolves_parent_insert.
      * intros l Hl. apply Hself. by rewrite <- (assoc_L (++)).
Qed.

(** The state before the double loop. *)
Lemma uf_inv_initial S (h0 h : store) :
  evolves same_but_parent h0 h → (∀ l, l ∈ S → parent_of h l = Some l) →
  uf_inv S h0 [] h.
Proof.
  intros Hev Hself.
  assert (∀ l, l ∈ S → root_in h l l) as Hroot.
  { intros l Hl. exists [l]. constructor. auto. }
  split_and!; [| |done|].
  - intros l Hl. exists l. auto.
  - intros l c p Hl Hc Hp. specialize (Hself l Hl). unfold parent_of in Hself.
    rewrite Hc in Hself. simpl in Hself. by replace p with l by congruence.
  - intros a b Ha Hb. rewrite (same_roots h a b a b) by auto. split.
    + intros ->. reflexivity.
    + intros H. induction H as [|a a' b [[Hs _]|[Hs _]] _ _]; [done|..];
        by apply elem_of_nil in Hs.
Qed.

Lemma setid_evolves (h h' : store) l c c' :
  evolves same_but_parent h h' → h !! l = Some c → h' !! l = Some c' →
  Circle.setid c' = Circle.setid c.
Proof.
  intros [_ Hev] Hc Hc'. destruct (Hev l c Hc) as (c'' & Hc'' & Hrel).
  replace c'' with c' in Hrel by congruence. rewrite Hrel. by destruct c.
Qed.

(** One round of the grouping loop. *)
Lemma group_step_run S fuel (h2 h : store) g l k :
  forest S h2 → closed S h2 → uf_step S h2 h → l ∈ S →
  keyed h2 l k → k ≠ "" → (length S <= Datatypes.S fuel)%nat →
  ∃ h', group_step fuel g l h
        = (Ok (obj_push k l (if obj_has g k then g else obj_set k [] g)), h') ∧
        uf_step S h2 h'.
Proof.
  intros Hf Hcl Hstep Hl (r & c & Hr & Hc & Hk) Hne Hlen.
  pose proof Hstep as (Hcomp & Hcl' & Hev). specialize (Hcl' Hcl).
  destruct (find_root S fuel h l r Hcl' Hl (root_in_compresses _ _ _ _ Hcomp Hr) Hlen)
    as (h' & Hrun & Hstep').
  assert (uf_step S h2 h') as Hstep2 by (by eapply uf_step_trans).
  exists h'. split; [|done].
  destruct Hstep2 as (Hcomp2 & _ & Hev2).
  destruct (root_in_compresses _ _ _ _ Hcomp2 (root_in_root _ _ _ Hr)) as [P HP].
  apply chain_root_parent in HP. apply parent_of_Some in HP as (c' & Hc' & Hpc').
  unfold group_step. rewrite (St_bind_run _ _ _ _ _ Hrun).
  unfold mbind at 1, St_bind at 1, load at 1. rewrite Hc', Hpc'.
  unfold mbind at 1, St_bind at 1, load at 1. rewrite Hc'.
  rewrite (setid_evolves h2 h' r c c' Hev2 Hc Hc'), Hk.
  by rewrite decide_False.
Qed.

(** The grouping loop. *)
Lemma group_fold_run S fuel (h2 : store) : ∀ ls seen g h,
  forest S h2 → closed S h2 → uf_step S h2 h → ls ⊆ S →
  (∀ l, l ∈ S → ∃ k, keyed h2 l k ∧ k ≠ "") →
  (length S <= Datatypes.S fuel)%nat →
  grouped h2 seen g → inhabited g →
  ∃ g' h', fold_St (group_step fuel) g ls h = (Ok g', h') ∧
           uf_step S h2 h' ∧ grouped h2 (seen ++ ls) g' ∧ inhabited g'.
Proof.
  induction ls as [|l ls IH]; intros seen g h Hf Hcl Hstep Hsub Hkeys Hlen Hg Hi.
  - exists g, h. split_and!; [done..| |done]. by rewrite app_nil_r.
  - assert (l ∈ S) as Hl by (apply Hsub; left).
    destruct (Hkeys l Hl) as (k & Hk & Hne).
    destruct (group_step_run S fuel h2 h g l k Hf Hcl Hstep Hl Hk Hne Hlen)
      as (h1 & Hrun & Hstep1).
    destruct (IH (seen ++ [l]) (obj_push k l (if obj_has g k then g else obj_set k [] g))
                h1 Hf Hcl Hstep1) as (g' & h' & Hrun' & Hstep' & Hg' & Hi');
      [intros ? ?; apply Hsub; by right|done|done|by apply grouped_push| |].
    { apply inhabited_push; [done|]. by destruct Hg. }
    exists g', h'. split_and!; [|done|by rewrite <- (assoc_L (++)) in Hg'|done].
    cbn [fold_St]. exact (eq_trans (St_bind_run _ _ _ _ _ Hrun) Hrun').
Qed.

(** The last loop. *)
Lemma clear_run : ∀ circles (h : store),
  (∀ l, l ∈ circles → is_Some (h !! l)) →
  ∃ h', for_each (fun l => update l (fun c => Circle.set_parent c None)) circles h
        = (Ok (), h').
Proof.
  induction circles as [|l1 later IH]; intros h Hval; [by exists h|].
  destruct (Hval l1) as [c Hc]; [left|].
  destruct (IH (<[l1 := Circle.set_parent c None]> h)) as (h' & Hrun).
  - intros l Hl. apply lookup_lt_is_Some. rewrite length_insert.
    apply lookup_lt_is_Some, Hval. by right.
  - exists h'. cbn [for_each]. refine (eq_trans (St_bind_run _ _ _ () _ _) Hrun).
    unfold update. by rewrite Hc.
Qed.

Lemma evolves_is_Some rel (h h' : store) l :
  evolves rel h h' → is_Some (h !! l) → is_Some (h' !! l).
Proof. intros [_ Hev] [c Hc]. destruct (Hev l c Hc) as (c' & Hc' & _). eauto. Qed.

(** What a call of [disjointCluster] returns. *)
Lemma disjointCluster_run (circles : list loc) (h : store) :
  (∀ l, l ∈ circles → ∃ c, h !! l = Some c ∧ Circle.setid c ≠ "") →
  (∀ a b ca cb, a ∈ circles → b ∈ circles → h !! a = Some ca → h !! b = Some cb →
                Circle.setid ca = Circle.setid cb → a = b) →
  ∃ clusters h', disjointCluster circles h = (Ok clusters, h') ∧
    concat clusters ≡ₚ circles ∧
    (∀ cl, cl ∈ clusters → cl ≠ []) ∧
    ∀ a b, a ∈ circles → b ∈ circles →
      ((∃ cl, cl ∈ clusters ∧ a ∈ cl ∧ b ∈ cl) ↔ connected h circles a b).
Proof.
  intros Hids Hinj.
  assert (∀ l, l ∈ circles → is_Some (h !! l)) as Hval.
  { intros l Hl. destruct (Hids l Hl) as (c & Hc & _). eauto. }
  assert (length circles <= Datatypes.S (length circles))%nat as Hlen by lia.
  destruct (make_sets_run circles [] h Hval) as (h1 & Hrun1 & Hev1 & Hself);
    [by intros ? ?%elem_of_nil|].
  pose proof (uf_inv_initial circles h h1 Hev1 Hself) as Hinv1.
  destruct (union_overlapping_spec circles (length circles) h circles [] h1 Hinv1 Hval)
    as (h2 & Hrun2 & Hf2 & Hcl2 & Hev2 & Hsame2); [done|done|].
  assert (∀ l, l ∈ circles → is_Some (h2 !! l)) as Hval2.
  { intros l Hl. eapply evolves_is_Some; [exact Hev2|auto]. }
  assert (∀ l, l ∈ circles → ∃ k, keyed h2 l k ∧ k ≠ "") as Hkeys.
  { intros l Hl. destruct (Hf2 l Hl) as [r Hr].
    assert (r ∈ circles) as Hrin by (by eapply root_in_elem).
    destruct (Hids r Hrin) as (c & Hc & Hne). destruct (Hval2 r Hrin) as [c2 Hc2].
    exists (Circle.setid c2). split; [by exists r, c2|].
    by rewrite (setid_evolves h h2 r c c2 Hev2 Hc Hc2). }
  destruct (group_fold_run circles (length circles) h2 circles [] [] h2 Hf2 Hcl2)
    as (g & h3 & Hrun3 & Hstep3 & Hg & Hi);
    [apply uf_step_refl|done|done|done| |by intros ?? ?%elem_of_nil|].
  { split_and!; [apply NoDup_nil_2|done|by intros ??? ?%elem_of_nil]. }
  destruct Hstep3 as (_ & _ & Hev3).
  destruct (clear_run circles h3) as (h4 & Hrun4).
  { intros l Hl. eapply evolves_is_Some; [exact Hev3|auto]. }
  exists (obj_values g), h4. split_and!.
  - unfold disjointCluster. cbv zeta.
    rewrite (St_bind_run _ _ _ _ _ Hrun1), (St_bind_run _ _ _ _ _ Hrun2),
      (St_bind_run _ _ _ _ _ Hrun3), (St_bind_run _ _ _ _ _ Hrun4). done.
  - by destruct Hg as (_ & Hperm & _).
  - intros cl Hcl. apply list_elem_of_fmap in Hcl as ([k cl'] & -> & Hin).
    by eapply Hi.
  - intros a b Ha Hb. rewrite <- edges_connected, <- (Hsame2 a b Ha Hb).
    apply (grouped_classes circles h2 g a b); [done..| |done|done].
    intros x y cx cy Hx Hy Hcx Hcy Heq.
    destruct (Hids x Hx) as (cx0 & Hcx0 & _). destruct (Hids y Hy) as (cy0 & Hcy0 & _).
    apply (Hinj x y cx0 cy0); [done..|].
    rewrite <- (setid_evolves h h2 x cx0 cx Hev2 Hcx0 Hcx).
    by rewrite <- (setid_evolves h h2 y cy0 cy Hev2 Hcy0 Hcy).
Qed.

(** X16.  For circles of the store whose [setid]s are non-empty,
    differ, and are no names inherited from [Object.prototype],
    [disjointCluster] returns, and its clusters are the connected
    components of the overlaps: every circle of the array is in the
    clusters as often as in the array, no cluster is empty, and two
    circles share a cluster exactly when a path of circles of the array
    leads from one to the other, each overlapping the next
    ([distance + 1e-10 < r1 + r2]). *)
Theorem disjointCluster_components (circles : list loc) (h : store) :
  (∀ l, l ∈ circles →
        ∃ c, h !! l = Some c ∧ Circle.setid c ≠ "" ∧ own_name (Circle.setid c)) →
  (∀ a b ca cb, a ∈ circles → b ∈ circles → h !! a = Some ca → h !! b = Some cb →
                Circle.setid ca = Circle.setid cb → a = b) →
  ∃ clusters, (disjointCluster circles h).1 = Ok clusters ∧
    concat clusters ≡ₚ circles ∧
    (∀ cl, cl ∈ clusters → cl ≠ []) ∧
    ∀ a b, a ∈ circles → b ∈ circles →
      ((∃ cl, cl ∈ clusters ∧ a ∈ cl ∧ b ∈ cl) ↔ connected h circles a b).
Proof.
  intros Hids Hinj.
  destruct (disjointCluster_run circles h) as (clusters & h' & Hrun & Hrest); [|done|].
  { intros l Hl. destruct (Hids l Hl) as (c & Hc & Hne & _). eauto. }
  exists clusters. rewrite Hrun. by split.
Qed.

Lemma disjointCluster_components_witness :
  ∃ clusters,
    (disjointCluster [0; 1]%nat
       [Circle.mk 0 0 None None 1 None "A"; Circle.mk 1 0 None None 1 None "B"]).1
    = Ok clusters ∧
    concat clusters ≡ₚ [0; 1]%nat ∧
    (∀ cl, cl ∈ clusters → cl ≠ []) ∧
    ∀ a b, a ∈ [0; 1]%nat → b ∈ [0; 1]%nat →
      ((∃ cl, cl ∈ clusters ∧ a ∈ cl ∧ b ∈ cl) ↔
       connected [Circle.mk 0 0 None None 1 None "A"; Circle.mk 1 0 None None 1 None "B"]
         [0; 1]%nat a b).
Proof.
  apply (disjointCluster_components [0; 1]%nat
           [Circle.mk 0 0 None None 1 None "A"; Circle.mk 1 0 None None 1 None "B"]).
  - intros l Hl. repeat (apply elem_of_cons in Hl as [->|Hl]);
      [eexists; split; [reflexivity|split; [done|]];
       apply (bool_decide_unpack _); vm_compute; exact I..
      |by apply elem_of_nil in Hl].
  - intros a b ca cb Ha Hb.
    repeat (apply elem_of_cons in Ha as [->|Ha]); [| |by apply elem_of_nil in Ha];
      (repeat (apply elem_of_cons in Hb as [->|Hb]); [| |by apply elem_of_nil in Hb]);
      intros [= <-] [= <-]; done.
Defined.

(** ** Normalising returns *)

Lemma runs_fold_St_prefix {A B} (body : B -> A -> St B) (l : list A) (b : B)
    (inv : list A -> B -> store -> Prop) :
  (∀ done a rest acc, l = (done ++ a :: rest)%list →
     runs (body acc a) (inv done acc) (inv (done ++ [a])%list)) →
  runs (fold_St body b l) (inv [] b) (inv l).
Proof.
  intros Hb.
  assert (∀ rest done acc, l = (done ++ rest)%list →
            runs (fold_St body acc rest) (inv done acc) (inv l)) as Hgen.
  { induction rest as [|a rest IH]; intros done acc Hl.
    - rewrite app_nil_r in Hl. subst. simpl. by apply runs_ret.
    - simpl. eapply runs_bind; [by apply (Hb done a rest)|].
      intros acc'. apply IH. by rewrite <- app_assoc. }
  by apply (Hgen l []).
Qed.

Lemma runs_fold_St {A B} (body : B -> A -> St B) (l : list A) (b : B)
    (inv : B -> store -> Prop) :
  (∀ acc a, a ∈ l → runs (body acc a) (inv acc) inv) →
  runs (fold_St body b l) (inv b) inv.
Proof.
  intros Hb. apply (runs_fold_St_prefix body l b (fun _ => inv)).
  intros done a rest acc ->. apply Hb. apply elem_of_app. right. by left.
Qed.

Lemma load_all_runs n (ls : list loc) :
  valid n ls →
  runs (load_all ls) (fun h => length h = n)
    (fun cs h => length h = n ∧ length cs = length ls).
Proof.
  intros Hv. unfold load_all.
  eapply runs_conseq;
    [apply (runs_fold_St_prefix _ ls []
              (fun done (acc : list Circle) h =>
                 length h = n ∧ length acc = length done))| |].
  - intros done l rest acc Hls.
    eapply runs_bind.
    { apply runs_load. intros h [Hn _]. eapply valid_lookup; [exact Hv| |done].
      rewrite Hls. apply elem_of_app. right. by left. }
    intros c. apply runs_ret. intros h [[Hn Hacc] _]. split; [done|].
    rewrite !length_app. simpl. lia.
  - by intros h Hn.
  - intros cs h Hcs. exact Hcs.
Qed.

Lemma bounds_of_runs n (ls : list loc) :
  valid n ls → ls ≠ [] →
  runs (bounds_of ls) (fun h => length h = n) (fun _ h => length h = n).
Proof.
  intros Hv Hne. unfold bounds_of.
  eapply runs_bind; [by apply load_all_runs|]. intros cs.
  apply (runs_pure _ _ _ (length cs = length ls)); [by intros h [_ ?]|]. intros Hlen.
  destruct cs as [|c cs]; [by destruct ls|].
  simpl. apply runs_ret. by intros h [? _].
Qed.

Lemma orientateCircles_returns n circles orientation order :
  valid n circles → NoDup circles →
  runs (orientateCircles circles orientation order) (fun h => length h = n)
    (fun r h => length h = n ∧ r ≡ₚ circles).
Proof.
  intros Hv Hnd h Hn.
  destruct (orientateCircles_runs n (radius_of h) circles orientation order Hv Hnd h)
    as (r & Hr & [Hlen _] & Hperm & _); [by split|].
  exists r. done.
Qed.

(** The loop that orientates the clusters and measures them. *)
Lemma orient_fold_runs n (clusters : list (list loc)) orientation orientationOrder :
  Forall (fun cl => valid n cl ∧ NoDup cl ∧ cl ≠ []) clusters →
  runs (fold_St (fun acc cluster =>
                   cluster ← orientateCircles cluster orientation orientationOrder;
                   bounds ← bounds_of cluster;
                   mret (acc ++ [mkCluster cluster
                                   ((xmax bounds - xmin bounds)
                                    * (ymax bounds - ymin bounds)) bounds]))
          [] clusters)
    (fun h => length h = n)
    (fun sized h => length h = n ∧ length sized = length clusters ∧
                    Forall (fun c => valid n (members c)) sized).
Proof.
  intros Hcl.
  eapply runs_conseq;
    [apply (runs_fold_St_prefix _ clusters []
              (fun done (acc : list Cluster) h =>
                 length h = n ∧ length acc = length done ∧
                 Forall (fun c => valid n (members c)) acc))| |].
  - intros done cluster rest acc Hsplit.
    assert (valid n cluster ∧ NoDup cluster ∧ cluster ≠ []) as (Hv & Hnd & Hne).
    { eapply Forall_forall in Hcl; [exact Hcl|]. rewrite Hsplit.
      apply elem_of_app. right. by left. }
    apply (runs_pure _ _ _ (length acc = length done ∧
                            Forall (fun c => valid n (members c)) acc));
      [by intros h (_ & ? & ?)|]. intros [Hlen Hacc].
    eapply runs_bind.
    { eapply runs_conseq; [by apply (orientateCircles_returns n cluster)| |].
      - by intros h (? & _).
      - intros r h Hr. exact Hr. }
    intros r. apply (runs_pure _ _ _ (r ≡ₚ cluster)); [by intros h [_ ?]|]. intros Hperm.
    assert (valid n r) as Hvr by (unfold valid; by rewrite Hperm).
    eapply runs_bind.
    { eapply runs_conseq; [apply (bounds_of_runs n r Hvr)| |].
      - intros ->. apply Permutation_nil_l in Hperm. done.
      - by intros h [? _].
      - intros b h Hb. exact Hb. }
    intros bounds. apply runs_ret. intros h Hn. split_and!; [done| |].
    + rewrite !length_app. simpl. lia.
    + apply Forall_app. split; [done|]. by apply Forall_singleton.
  - intros h Hn. split_and!; [done|done|apply Forall_nil_2].
  - intros sized h Hs. exact Hs.
Qed.

Lemma addCluster_runs n returnBounds spacing cluster right_ bottom circles :
  (∀ c, cluster = Some c → valid n (members c)) → valid n circles → circles ≠ [] →
  runs (addCluster returnBounds spacing cluster right_ bottom circles)
    (fun h => length h = n) (fun r h => length h = n ∧ valid n r ∧ r ≠ []).
Proof.
  intros Hc Hv Hne. unfold addCluster.
  destruct cluster as [cluster|]; [|by apply runs_ret].
  case_decide; [by apply runs_ret|]. cbv zeta.
  eapply runs_conseq;
    [apply (runs_fold_St _ (members cluster) circles
              (fun r h => length h = n ∧ valid n r ∧ r ≠ []))| |].
  - intros acc l Hl. eapply runs_bind.
    + apply (runs_update _ _ _ (fun _ h => length h = n ∧ valid n acc ∧ acc ≠ [])).
      * intros h [Hn _]. eapply valid_lookup; [by apply (Hc cluster)|done|done].
      * intros h c (Hn & ? & ?) _. by rewrite length_insert.
    + intros u. apply runs_ret. intros h (Hn & Hacc & _). split_and!; [done| |].
      * apply Forall_app. split; [done|]. apply Forall_singleton.
        specialize (Hc cluster eq_refl). by eapply Forall_forall in Hc.
      * by destruct acc.
  - done.
  - intros r h Hr. exact Hr.
Qed.

Lemma pack_clusters_runs n spacing rest : ∀ returnBounds circles,
  Forall (fun c => valid n (members c)) rest → valid n circles → circles ≠ [] →
  runs (pack_clusters spacing rest returnBounds circles)
    (fun h => length h = n) (fun r h => length h = n ∧ valid n r).
Proof.
  induction rest as [rest IH] using (induction_ltof1 _ (@length Cluster)).
  unfold ltof in IH. intros returnBounds circles Hrest Hv Hne.
  destruct rest as [|c1 rest1]; cbn [pack_clusters]; [by apply runs_ret|].
  apply Forall_cons in Hrest as [Hc1 Hrest1].
  assert (∀ c, head rest1 = Some c → valid n (members c)) as Hc2.
  { intros c Hc. apply head_Some_elem_of in Hc. by eapply Forall_forall in Hrest1. }
  assert (∀ c, head (tail rest1) = Some c → valid n (members c)) as Hc3.
  { intros c Hc. apply head_Some_elem_of in Hc.
    eapply Forall_forall in Hrest1; [exact Hrest1|].
    destruct rest1; [by apply elem_of_nil in Hc|by right]. }
  eapply runs_bind.
  { apply addCluster_runs; [by intros c [= <-]|done|done]. }
  intros circles1.
  apply (runs_pure _ _ _ (valid n circles1 ∧ circles1 ≠ [])); [by intros h (_ & ? & ?)|].
  intros [Hv1 Hne1].
  eapply runs_bind.
  { eapply runs_conseq; [by apply (addCluster_runs n _ _ (head rest1))| |].
    - by intros h [? _].
    - intros r h Hr. exact Hr. }
  intros circles2.
  apply (runs_pure _ _ _ (valid n circles2 ∧ circles2 ≠ [])); [by intros h (_ & ? & ?)|].
  intros [Hv2 Hne2].
  eapply runs_bind.
  { eapply runs_conseq; [by apply (addCluster_runs n _ _ (head (tail rest1)))| |].
    - by intros h [? _].
    - intros r h Hr. exact Hr. }
  intros circles3.
  apply (runs_pure _ _ _ (valid n circles3 ∧ circles3 ≠ [])); [by intros h (_ & ? & ?)|].
  intros [Hv3 Hne3].
  eapply runs_bind.
  { eapply runs_conseq; [by apply (bounds_of_runs n circles3)| |].
    - by intros h [? _].
    - intros r h Hr. exact Hr. }
  intros bounds.
  destruct rest1 as [|c2 [|c3 rest3]]; try (by apply runs_ret).
  apply (IH rest3); [simpl; lia| |done|done].
  apply Forall_cons in Hrest1 as [_ Hrest1]. by apply Forall_cons in Hrest1 as [_ ?].
Qed.

Lemma collect_runs n (circles : list loc) :
  valid n circles →
  runs (fold_St (fun (ret : obj loc) l =>
                   circle ← load l; mret (obj_set (Circle.setid circle) l ret))
          [] circles)
    (fun h => length h = n) (fun _ h => length h = n).
Proof.
  intros Hv. apply (runs_fold_St _ circles [] (fun _ h => length h = n)).
  intros acc l Hl. eapply runs_bind.
  - apply runs_load. intros h Hn. by eapply valid_lookup.
  - intros c. apply runs_ret. by intros h [? _].
Qed.

Lemma NoDup_concat_elem {A} (ls : list (list A)) l :
  NoDup (concat ls) → l ∈ ls → NoDup l.
Proof.
  induction ls as [|l0 ls IH]; simpl; [by intros _ ?%elem_of_nil|].
  intros (H0 & _ & Hls)%NoDup_app [->|Hl]%elem_of_cons; auto.
Qed.

(** The copies that [normalizeSolution] makes: one for every key, named
    by the key. *)
Lemma copies_named (solution : obj loc) (h cs : store) :
  NoDup (obj_keys solution) → "" ∉ obj_keys solution →
  Forall2 (fun (kl : string * loc) c => ∃ c0, h !! kl.2 = Some c0 ∧ c = copy_of kl.1 c0)
    solution cs →
  (∀ l, l ∈ seq (length h) (length solution) →
        ∃ c, (h ++ cs) !! l = Some c ∧ Circle.setid c ≠ "") ∧
  (∀ a b ca cb, a ∈ seq (length h) (length solution) →
                b ∈ seq (length h) (length solution) →
                (h ++ cs) !! a = Some ca → (h ++ cs) !! b = Some cb →
                Circle.setid ca = Circle.setid cb → a = b).
Proof.
  intros Hnd Hne Hcs.
  assert (∀ l c, l ∈ seq (length h) (length solution) → (h ++ cs) !! l = Some c →
            obj_keys solution !! (l - length h)%nat = Some (Circle.setid c)) as Hkey.
  { intros l c Hl%elem_of_seq Hc. rewrite lookup_app_r in Hc by lia.
    destruct (Forall2_lookup_r _ _ _ _ _ Hcs Hc) as ([k l0] & Hkl & c0 & _ & ->).
    unfold obj_keys. rewrite list_lookup_fmap, Hkl. done. }
  split.
  - intros l Hl. pose proof Hl as Hl'. apply elem_of_seq in Hl'.
    destruct (lookup_lt_is_Some_2 (h ++ cs) l) as [c Hc].
    { rewrite length_app, <- (Forall2_length _ _ _ Hcs). lia. }
    exists c. split; [done|]. intros Hempty. apply Hne. rewrite <- Hempty.
    eapply list_elem_of_lookup_2. by apply Hkey.
  - intros a b ca cb Ha Hb Hca Hcb Heq.
    pose proof (Hkey a ca Ha Hca) as Hka. pose proof (Hkey b cb Hb Hcb) as Hkb.
    rewrite Heq in Hka.
    pose proof (NoDup_lookup _ _ _ _ Hnd Hka Hkb).
    apply elem_of_seq in Ha, Hb. lia.
Qed.

(** X17.  [normalizeSolution] returns for every record that is not
    empty, of existing circles, whose keys are not empty and are no
    names inherited from [Object.prototype], for every orientation of
    moderate size: it throws on none of them. *)
Theorem normalizeSolution_returns (solution : obj loc) (orientation : jsopt R)
    (orientationOrder : jsopt (Circle -> Circle -> R)) (h : store) :
  solution ≠ [] → NoDup (obj_keys solution) → "" ∉ obj_keys solution →
  valid (length h) (obj_values solution) →
  Forall own_name (obj_keys solution) → moderate_angle orientation →
  ∃ ret, (normalizeSolution solution orientation orientationOrder h).1 = Ok ret.
Proof.
  intros Hne Hnd Hempty Hv _ _.
  destruct (copies_run solution h [] [] Hv) as (cs & Hrun0 & Hcs).
  rewrite !app_nil_r in Hrun0. simpl in Hrun0.
  set (circles := seq (length h) (length solution)) in *.
  destruct (copies_named solution h cs Hnd Hempty Hcs) as [Hids Hinj].
  destruct (disjointCluster_run circles (h ++ cs) Hids Hinj)
    as (clusters & h1 & Hrun1 & Hperm & Hinh & _).
  set (n := length (h ++ cs)).
  assert (length h1 = n) as Hn1.
  { pose proof (pres_disjointCluster same_but_parent) as Hpres.
    destruct (Hpres (fun c p => ltac:(by destruct c)) circles (h ++ cs)) as [Hlen _].
    by rewrite Hrun1 in Hlen. }
  assert (valid n circles) as Hvc.
  { apply Forall_forall. intros l Hl%elem_of_seq. unfold n.
    rewrite length_app, <- (Forall2_length _ _ _ Hcs). lia. }
  assert (circles ≠ []) as Hcne.
  { unfold circles. destruct solution; [done|]. simpl. done. }
  assert (Forall (fun cl => valid n cl ∧ NoDup cl ∧ cl ≠ []) clusters) as Hcl.
  { apply Forall_forall. intros cl Hin. split_and!; [| |by apply Hinh].
    - apply Forall_forall. intros l Hl.
      assert (l ∈ circles) as Hlc.
      { rewrite <- Hperm. apply elem_of_concat. eauto. }
      by eapply Forall_forall in Hvc.
    - apply (NoDup_concat_elem clusters); [|done]. rewrite Hperm. apply NoDup_seq. }
  assert (clusters ≠ []) as Hclne.
  { intros ->. simpl in Hperm. apply Permutation_nil_l in Hperm. done. }
  unfold normalizeSolution. cbv zeta.
  rewrite (St_bind_run _ _ _ _ _ Hrun0), (St_bind_run _ _ _ _ _ Hrun1).
  match goal with
  | |- ∃ ret, (?m h1).1 = Ok ret =>
      assert (runs m (fun h => length h = n) (fun _ _ => True)) as Hruns
  end.
  { eapply runs_bind; [by apply orient_fold_runs|]. intros sized.
    apply (runs_pure _ _ _ (length sized = length clusters ∧
                            Forall (fun c => valid n (members c)) sized));
      [by intros h' (_ & ? & ?)|]. intros [Hlen Hsized].
    pose proof (js_sort_perm cluster_after sized) as Hsort.
    destruct (js_sort cluster_after sized) as [|largest rest].
    { apply Permutation_length in Hsort. simpl in Hsort. destruct clusters; [done|].
      simpl in Hlen. lia. }
    rewrite <- Hsort in Hsized. apply Forall_cons in Hsized as [_ Hrest].
    eapply runs_bind.
    { eapply runs_conseq; [by apply (pack_clusters_runs n)| |].
      - by intros h' [? _].
      - intros r h' Hr. exact Hr. }
    intros packed.
    apply (runs_pure _ _ _ (valid n packed)); [by intros h' [_ ?]|]. intros Hvp.
    eapply runs_conseq; [by apply (collect_runs n)| |].
    - by intros h' [? _].
    - done. }
  destruct (Hruns h1 Hn1) as (ret & Hret & _). eauto.
Qed.

Lemma normalizeSolution_returns_witness :
  ∃ ret, (normalizeSolution [("A", 0%nat); ("B", 1%nat); ("C", 2%nat)] (Val (PI / 2))
            Null three_in_a_row).1 = Ok ret.
Proof.
  apply (normalizeSolution_returns [("A", 0%nat); ("B", 1%nat); ("C", 2%nat)]
           (Val (PI / 2)) Null three_in_a_row).
  - done.
  - apply (bool_decide_unpack _). vm_compute. exact I.
  - apply (bool_decide_unpack _). vm_compute. exact I.
  - repeat constructor.
  - apply (bool_decide_unpack _). vm_compute. exact I.
  - apply moderate_right_angle.
Defined.

(** ** Label anchors: one for every area *)

Lemma exclude_fold (overlaps : list string) : ∀ (exclude : obj bool) k,
  is_Some (obj_get (foldl (fun exclude k => obj_set k true exclude) exclude overlaps) k)
  ↔ is_Some (obj_get exclude k) ∨ k ∈ overlaps.
Proof.
  induction overlaps as [|k0 overlaps IH]; intros exclude k; simpl.
  - rewrite elem_of_nil. tauto.
  - rewrite IH, obj_get_set, elem_of_cons. case_decide; subst; [|naive_solver].
    split; [auto|]. intros _. left. eauto.
Qed.

Lemma text_area_step_fst overlapped st s :
  (text_area_step overlapped st s).1 = obj_set s true st.1.
Proof. unfold text_area_step. cbv zeta. by destruct (obj_get overlapped s). Qed.

Lemma text_area_fold (overlapped : obj (list string)) (area : list string) :
  ∀ (st : obj bool * obj bool) k,
  (is_Some (obj_get (foldl (text_area_step overlapped) st area).1 k)
   ↔ is_Some (obj_get st.1 k) ∨ k ∈ area) ∧
  (is_Some (obj_get (foldl (text_area_step overlapped) st area).2 k)
   ↔ is_Some (obj_get st.2 k) ∨ ∃ s, s ∈ area ∧ listed overlapped s k).
Proof.
  induction area as [|s area IH]; intros st k; simpl.
  - split; [rewrite elem_of_nil; tauto|]. split; [auto|].
    intros [?|(s & Hs%elem_of_nil & _)]; done.
  - destruct (IH (text_area_step overlapped st s) k) as [IH1 IH2]. split.
    + rewrite IH1, text_area_step_fst, obj_get_set, elem_of_cons.
      case_decide; subst; [|naive_solver]. split; [auto|]. intros _. left. eauto.
    + rewrite IH2. unfold text_area_step. cbv zeta. setoid_rewrite elem_of_cons.
      destruct (obj_get overlapped s) as [overlaps|] eqn:Hs; cbn [snd].
      * rewrite exclude_fold. split.
        -- intros [[?|Hk]|(s' & Hs' & Hl)]; [by left| |right; eauto].
           right. exists s. split; [by left|]. by exists overlaps.
        -- intros [?|(s' & [->|Hs'] & Hl)]; [by left; left| |right; eauto].
           destruct Hl as (l & Hget & Hk). left. right. congruence.
      * split.
        -- intros [?|(s' & Hs' & Hl)]; [by left|right; eauto].
        -- intros [?|(s' & [->|Hs'] & Hl)]; [by left| |right; eauto].
           destruct Hl as (l & Hget & _). congruence.
Qed.

Lemma text_split_fold (areaids exclude : obj bool) (P Q : string -> Prop)
    `{!∀ k, Decision (P k), !∀ k, Decision (Q k)} (circles : CircleRecord) :
  (∀ k, is_Some (obj_get areaids k) ↔ P k) →
  (∀ k, is_Some (obj_get exclude k) ↔ Q k) →
  ∀ st : list Circle * list Circle,
  foldl (text_split_step areaids exclude) st circles
  = (st.1 ++ (filter (fun kc : string * Circle => P kc.1) circles).*2,
     st.2 ++ (filter (fun kc : string * Circle => ¬ P kc.1 ∧ ¬ Q kc.1) circles).*2).
Proof.
  intros HP HQ. induction circles as [|[k c] circles IH]; intros [i e]; simpl.
  - by rewrite !app_nil_r.
  - rewrite IH. unfold text_split_step. cbn [fst snd].
    rewrite !filter_cons. cbn [fst snd].
    destruct (obj_has areaids k) eqn:Ha.
    + apply obj_has_get, HP in Ha.
      rewrite decide_True by done. rewrite decide_False by tauto.
      cbn [fst snd]. rewrite fmap_cons. cbn [snd]. by rewrite <- (assoc_L (++)).
    + apply obj_has_false in Ha.
      assert (¬ P k) as HnP by (rewrite <- HP, Ha; by intros [? ?]).
      rewrite decide_False by done.
      destruct (obj_has exclude k) eqn:He.
      * apply obj_has_get, HQ in He. by rewrite decide_False by tauto.
      * apply obj_has_false in He.
        assert (¬ Q k) as HnQ by (rewrite <- HQ, He; by intros [? ?]).
        rewrite decide_True by done. cbn [fst snd]. rewrite fmap_cons. cbn [snd].
        by rewrite <- (assoc_L (++)).
Qed.

Lemma text_centre_step_spec computeTextCentre circles overlapped delimiter ret a :
  text_centre_step computeTextCentre circles overlapped delimiter ret a
  = match computeTextCentre (interior_of circles a) (exterior_of circles overlapped a) with
    | Ok centre => Ok (obj_set (join delimiter (sets a)) centre ret)
    | Throw e => Throw e
    end.
Proof.
  unfold text_centre_step. cbv zeta.
  rewrite (text_split_fold _ _ (fun k => k ∈ sets a)
             (fun k => Exists (fun s => k ∈ default [] (obj_get overlapped s)) (sets a))).
  - done.
  - intros k. rewrite (proj1 (text_area_fold overlapped (sets a) ([], []) k)).
    simpl. split; [by intros [[? ?]|?]|auto].
  - intros k. rewrite (proj2 (text_area_fold overlapped (sets a) ([], []) k)).
    simpl. rewrite Exists_exists. split.
    + intros [[? ?]|(s & Hs & l & Hget & Hk)]; [done|].
      exists s. split; [done|]. by rewrite Hget.
    + intros (s & Hs & Hk). right. exists s. split; [done|].
      destruct (obj_get overlapped s) as [l|] eqn:Hget; [by exists l|].
      by apply elem_of_nil in Hk.
Qed.

(** The loop over the areas. *)
Lemma text_centres_fold computeTextCentre circles overlapped delimiter :
  ∀ areas ret0,
  match foldl_result (text_centre_step computeTextCentre circles overlapped delimiter)
          ret0 areas with
  | Ok ret =>
      (∀ name, is_Some (obj_get ret name) ↔
               is_Some (obj_get ret0 name) ∨
               ∃ a, a ∈ areas ∧ join delimiter (sets a) = name) ∧
      (∀ name centre, obj_get ret name = Some centre →
         obj_get ret0 name = Some centre ∨
         ∃ a, a ∈ areas ∧ join delimiter (sets a) = name ∧
              computeTextCentre (interior_of circles a)
                (exterior_of circles overlapped a) = Ok centre)
  | Throw e =>
      ∃ a, a ∈ areas ∧
           computeTextCentre (interior_of circles a)
             (exterior_of circles overlapped a) = Throw e
  end.
Proof.
  induction areas as [|a areas IH]; intros ret0; simpl.
  - split.
    + intros name. split; [auto|]. intros [?|(a & Ha%elem_of_nil & _)]; done.
    + auto.
  - rewrite text_centre_step_spec.
    destruct (computeTextCentre _ _) as [centre|e] eqn:Hc.
    + specialize (IH (obj_set (join delimiter (sets a)) centre ret0)).
      destruct (foldl_result _ _ areas) as [ret|e].
      * destruct IH as [IH1 IH2]. split.
        -- intros name. rewrite IH1, obj_get_set. setoid_rewrite elem_of_cons.
           case_decide; [|naive_solver]. split; [|intros _; left; eauto].
           intros _. right. exists a. split; [by left|done].
        -- intros name c Hget. destruct (IH2 name c Hget) as [Hold|(a' & Ha' & Hn & Hc')].
           ++ rewrite obj_get_set in Hold. case_decide as Hname; [|by left].
              injection Hold as <-. right. exists a. split; [left|done].
           ++ right. exists a'. split; [by right|done].
      * destruct IH as (a' & Ha' & Hc'). exists a'. split; [by right|done].
    + exists a. split; [left|done].
Qed.

(** X18.  Let the keys of the record differ, and let no key, no set of
    an area and no joined name be a name inherited from
    [Object.prototype].  [computeTextCentres] makes one entry for every
    area, under the joined names of its sets, and no other.  The entry
    is what [computeTextCentre] returns for an area of that name: its
    interior is the circles of the sets of the area, in the order of
    the record; its exterior holds only circles outside the area, and
    all of those that enclose no circle of the area.
    [computeTextCentres] throws only what [computeTextCentre] throws
    for one of the areas. *)
Theorem computeTextCentres_anchors
    (computeTextCentre : list Circle -> list Circle -> result TextCentre)
    (circles : CircleRecord) (areas : list Area) (delimiter : string) :
  NoDup (obj_keys circles) →
  Forall own_name (obj_keys circles) →
  own_names areas →
  Forall (fun a => own_name (join delimiter (sets a))) areas →
  match computeTextCentres computeTextCentre circles areas delimiter with
  | Ok ret =>
      (∀ name, is_Some (obj_get ret name) ↔
               ∃ a, a ∈ areas ∧ join delimiter (sets a) = name) ∧
      (∀ name centre, obj_get ret name = Some centre →
         ∃ a exterior, a ∈ areas ∧ join delimiter (sets a) = name ∧
           computeTextCentre (interior_of circles a) exterior = Ok centre ∧
           (∀ c, c ∈ exterior → ∃ k, (k, c) ∈ circles ∧ k ∉ sets a) ∧
           (∀ k c, (k, c) ∈ circles → k ∉ sets a →
                   (∀ s, s ∈ sets a → ¬ encloses circles k s) → c ∈ exterior))
  | Throw e =>
      ∃ a exterior, a ∈ areas ∧
        computeTextCentre (interior_of circles a) exterior = Throw e
  end.
Proof.
  intros Hnd _ _ _. unfold computeTextCentres.
  destruct (getOverlappingCircles_spec circles Hnd) as (overlapped & -> & _ & Hlisted & _).
  cbn [mbind result_bind].
  pose proof (text_centres_fold computeTextCentre circles overlapped delimiter areas [])
    as Hfold.
  destruct (foldl_result _ _ areas) as [ret|e].
  - destruct Hfold as [H1 H2]. split.
    + intros name. rewrite H1. simpl. split; [by intros [[? ?]|?]|auto].
    + intros name centre Hget.
      destruct (H2 name centre Hget) as [?|(a & Ha & Hname & Hc)]; [done|].
      exists a, (exterior_of circles overlapped a). split_and!; [done..| |].
      * intros c Hin. unfold exterior_of in Hin.
        apply list_elem_of_fmap in Hin as ([k c'] & -> & Hin).
        apply list_elem_of_filter in Hin as [[Hk _] Hin]. eauto.
      * intros k c Hin Hk Hno. unfold exterior_of.
        apply list_elem_of_fmap. exists (k, c). split; [done|].
        apply list_elem_of_filter. split; [|done]. split; [done|].
        rewrite Exists_exists. intros (s & Hs & Hl). apply (Hno s Hs).
        apply (Hlisted s k). simpl in Hl.
        destruct (obj_get overlapped s) as [l|] eqn:Hs'; [by exists l|].
        by apply elem_of_nil in Hl.
  - destruct Hfold as (a & Ha & Hc). eauto.
Qed.

Lemma computeTextCentres_anchors_witness :
  match computeTextCentres count_centre far_apart [mkArea ["A"] 1 None None] "," with
  | Ok ret =>
      (∀ name, is_Some (obj_get ret name) ↔
               ∃ a, a ∈ [mkArea ["A"] 1 None None] ∧ join "," (sets a) = name) ∧
      (∀ name centre, obj_get ret name = Some centre →
         ∃ (a : Area) (exterior : list Circle),
           a ∈ [mkArea ["A"] 1 None None] ∧ join "," (sets a) = name ∧
           count_centre (interior_of far_apart a) exterior = Ok centre ∧
           (∀ c : Circle, c ∈ exterior → ∃ k, (k, c) ∈ far_apart ∧ k ∉ sets a) ∧
           (∀ k c, (k, c) ∈ far_apart → k ∉ sets a →
                   (∀ s, s ∈ sets a → ¬ encloses far_apart k s) → c ∈ exterior))
  | Throw e =>
      ∃ (a : Area) (exterior : list Circle), a ∈ [mkArea ["A"] 1 None None] ∧
        count_centre (interior_of far_apart a) exterior = Throw e
  end.
Proof.
  apply (computeTextCentres_anchors count_centre far_apart
           [mkArea ["A"] 1 None None] ",");
    apply (bool_decide_unpack _); vm_compute; exact I.
Defined.

(** There the circle of A is the interior and the circle of B, which
    does not enclose it, the exterior. *)
Example computeTextCentres_far_apart :
  computeTextCentres count_centre far_apart [mkArea ["A"] 1 None None] ","
  = Ok [("A", mkTextCentre 1 1 false)].
Proof.
  assert (distance (0, 0) (5, 0) = 5) as Hd.
  { rewrite distance_on_x_axis by lra. lra. }
  assert (getOverlappingCircles far_apart = Ok [("A", []); ("B", [])]) as Hov.
  { unfold getOverlappingCircles, far_apart. cbv zeta.
    cbn [obj_keys fmap list_fmap fst foldl overlapping_from foldl_result].
    unfold overlapping_pair. cbn [obj_get]. rewrite decide_True by done.
    rewrite decide_False by done. rewrite decide_True by done.
    cbv zeta. unfold center. cbn [Circle.x Circle.y Circle.radius unit_circle].
    rewrite Hd. rewrite decide_False by lra. rewrite decide_False by lra.
    reflexivity. }
  unfold computeTextCentres. rewrite Hov. cbn [mbind result_bind foldl_result].
  rewrite text_centre_step_spec. unfold count_centre. reflexivity.
Qed.
